(** * brickwave: the signal synthesis and encoding core, embedded in Rocq

    A shallow embedding of [src/generateNoise.ts], [src/ambientLayers.ts] and
    [src/wavWriter.ts].  A JavaScript [number] is an IEEE-754 binary64 value, so
    it is modelled by the kernel's primitive [float]; a [Float32Array] is a list
    of such values, every store being rounded to single precision by
    [Math_fround]; integer quantities the code only uses as integers (buffer
    lengths, loop counters, byte values, header fields) are in [Z] or [nat]. *)

From Stdlib Require Import ZArith List Bool Lia String Ascii.
From Stdlib Require Import Uint63 Floats.
Import ListNotations.

Set Warnings "-inexact-float".
Local Open Scope Z_scope.
Local Open Scope float_scope.

(* ================================================================== *)
(** ** JavaScript numbers *)
(* ================================================================== *)

Module JS.

(** The number of an integer (exact for magnitudes below 2^53). *)
Definition Z2F (z : Z) : float :=
  match z with
  | Z0 => 0
  | Zpos _ => of_uint63 (Uint63.of_Z z)
  | Zneg p => - of_uint63 (Uint63.of_Z (Zpos p))
  end.

(** The integer part of a number, rounded towards zero; 0 for NaN and the
    infinities (as in ToInt32 and ToUint8). *)
Definition SFtrunc (x : spec_float) : Z :=
  match x with
  | S754_finite s m e =>
      let a := if (0 <=? e)%Z then (Zpos m * 2 ^ e)%Z else (Zpos m / 2 ^ (- e))%Z in
      if s then (- a)%Z else a
  | _ => 0%Z
  end.

Definition truncZ (x : float) : Z := SFtrunc (Prim2SF x).

(** ECMAScript ToInt32: truncate, wrap modulo 2^32, read as two's complement. *)
Definition ToInt32 (x : float) : Z :=
  let r := (truncZ x mod 2 ^ 32)%Z in
  if (2 ^ 31 <=? r)%Z then (r - 2 ^ 32)%Z else r.

(** [a & b] on numbers: both operands go through ToInt32. *)
Definition bitand (a : float) (b : Z) : Z := Z.land (ToInt32 a) b.

(** [Math.floor]. *)
Definition Math_floor (x : float) : float :=
  match Prim2SF x with
  | S754_finite s m e =>
      if (0 <=? e)%Z then x
      else
        let q := (Zpos m / 2 ^ (- e))%Z in
        let r := (Zpos m mod 2 ^ (- e))%Z in
        if s then (if (r =? 0)%Z then x else Z2F (- (q + 1)))
        else Z2F q
  | _ => x
  end.

Definition is_neg_zero (x : float) : bool :=
  match Prim2SF x with S754_zero true => true | _ => false end.

(** [Math.min] and [Math.max]: NaN if either argument is NaN, and -0 is below +0. *)
Definition Math_min (a b : float) : float :=
  if is_nan a || is_nan b then nan
  else if a <? b then a
  else if b <? a then b
  else if is_neg_zero a then a else b.

Definition Math_max (a b : float) : float :=
  if is_nan a || is_nan b then nan
  else if a <? b then b
  else if b <? a then a
  else if is_neg_zero a then b else a.

(** Rounding of a binary64 value to binary32 (24-bit significand, exponents up
    to 128), the conversion a [Float32Array] applies to every stored value. *)
Definition SF32round (x : spec_float) : spec_float :=
  match x with
  | S754_finite s m e => binary_round 24 128 s m e
  | _ => x
  end.

Definition Math_fround (x : float) : float := SF2Prim (SF32round (Prim2SF x)).

(** A value a [Float32Array] can hold. *)
Definition is_float32 (x : float) : Prop := Math_fround x = x.

(** ECMAScript ToIndex, applied by [new Float32Array(length)]: NaN counts as 0,
    the value is truncated, and anything outside [0, 2^53 - 1] is a RangeError. *)
Definition ToIndex (x : float) : option nat :=
  match Prim2SF x with
  | S754_infinity _ => None
  | sf =>
      let z := SFtrunc sf in
      if ((0 <=? z) && (z <=? 2 ^ 53 - 1))%Z then Some (Z.to_nat z) else None
  end.

Definition Math_PI : float := 3.141592653589793.

End JS.
Import JS.

(* ================================================================== *)
(** ** generateNoise.ts *)
(* ================================================================== *)

(** The errors the core can raise. *)
Inductive JsError : Type :=
  | RangeError                       (* invalid typed array length *)
  | UnknownNoiseType (ty : string).  (* Error(`Unknown noise type: ${type}`) *)

(** [class SeededRandom]: the object is its [seed] field.  [entropy] is the value
    [Math.random()] returns, consulted only when no seed is supplied. *)
Definition SeededRandom : Type := float.

Definition new_SeededRandom (entropy : float) (seed : option float) : SeededRandom :=
  match seed with
  | Some s => s
  | None => Math_floor (entropy * 2147483647)
  end.

(** [random()]: the value returned and the updated object. *)
Definition random (rng : SeededRandom) : float * SeededRandom :=
  let seed' := Z2F (bitand (rng * 1103515245 + 12345) 0x7fffffff) in
  (seed' / 2147483647, seed').

(** The white loop: [buffer[i] = rng.random() * 2 - 1] for i = 0 .. length-1. *)
Fixpoint white_loop (n : nat) (rng : SeededRandom) : list float :=
  match n with
  | O => []
  | S k =>
      let (u, rng') := random rng in
      Math_fround (u * 2 - 1) :: white_loop k rng'
  end.

(** The brown loop, with [lastOut] carried across iterations. *)
Fixpoint brown_loop (n : nat) (rng : SeededRandom) (lastOut : float) : list float :=
  match n with
  | O => []
  | S k =>
      let (u, rng') := random rng in
      let white := u * 2 - 1 in
      let out := Math_max (-1) (Math_min 1 ((lastOut + 0.02 * white) * 0.98)) in
      Math_fround out :: brown_loop k rng' out
  end.

(** The seven filter variables of the pink loop. *)
Record PinkState : Type := mkPink {
  b0 : float; b1 : float; b2 : float; b3 : float;
  b4 : float; b5 : float; b6 : float
}.

Definition pink_init : PinkState := mkPink 0 0 0 0 0 0 0.

(** One iteration of the pink loop: the value stored and the new variables. *)
Definition pink_step (st : PinkState) (white : float) : float * PinkState :=
  let b0' := 0.99886 * b0 st + white * 0.0555179 in
  let b1' := 0.99332 * b1 st + white * 0.0750759 in
  let b2' := 0.96900 * b2 st + white * 0.1538520 in
  let b3' := 0.86650 * b3 st + white * 0.3104856 in
  let b4' := 0.55000 * b4 st + white * 0.5329522 in
  let b5' := -0.7616 * b5 st - white * 0.0168980 in
  let pink := b0' + b1' + b2' + b3' + b4' + b5' + b6 st + white * 0.5362 in
  let b6' := white * 0.115926 in
  (pink * 0.11, mkPink b0' b1' b2' b3' b4' b5' b6').

Fixpoint pink_loop (n : nat) (rng : SeededRandom) (st : PinkState) : list float :=
  match n with
  | O => []
  | S k =>
      let (u, rng') := random rng in
      let white := u * 2 - 1 in
      let (out, st') := pink_step st white in
      Math_fround out :: pink_loop k rng' st'
  end.

(** [generateNoise(type, duration, sampleRate, seed)].  The buffer is allocated
    before the type is examined, so a bad length is reported first. *)
Definition generateNoise (entropy : float) (type : string)
    (duration sampleRate : float) (seed : option float) : JsError + list float :=
  match ToIndex (Math_floor (duration * sampleRate)) with
  | None => inl RangeError
  | Some len =>
      let rng := new_SeededRandom entropy seed in
      if String.eqb type "white" then inr (white_loop len rng)
      else if String.eqb type "brown" then inr (brown_loop len rng 0)
      else if String.eqb type "pink" then inr (pink_loop len rng pink_init)
      else inl (UnknownNoiseType type)
  end.

(* ================================================================== *)
(** ** Typed arrays *)
(* ================================================================== *)

(** [buffer[i]] read as a number: an index outside the array yields
    [undefined], which arithmetic turns into NaN. *)
Definition get (buffer : list float) (i : nat) : float := nth i buffer nan.

(** In-place update of one element; an index outside the array is ignored. *)
Fixpoint upd (buffer : list float) (i : nat) (f : float -> float) : list float :=
  match buffer, i with
  | [], _ => []
  | x :: t, O => f x :: t
  | x :: t, S k => x :: upd t k f
  end.

(** [buffer[i] = v] and [buffer[i] += v] on a [Float32Array]. *)
Definition set_at (buffer : list float) (i : nat) (v : float) : list float :=
  upd buffer i (fun _ => Math_fround v).

Definition add_at (buffer : list float) (i : nat) (v : float) : list float :=
  upd buffer i (fun old => Math_fround (old + v)).

(** [new Float32Array(n)]: n zeros. *)
Definition zeros (n : nat) : list float := repeat 0 n.

(** A number used as an array index: only a non-negative whole number names
    an element. *)
Definition SFindex (x : spec_float) : option nat :=
  match x with
  | S754_zero _ => Some O
  | S754_finite false m e =>
      if (0 <=? e)%Z then Some (Z.to_nat (Zpos m * 2 ^ e))
      else if (Zpos m mod 2 ^ (- e) =? 0)%Z then Some (Z.to_nat (Zpos m / 2 ^ (- e)))
      else None
  | _ => None
  end.

Definition F2idx (x : float) : option nat := SFindex (Prim2SF x).

Definition get_num (buffer : list float) (i : float) : float :=
  match F2idx i with
  | Some k => get buffer k
  | None => nan
  end.

Definition add_at_num (buffer : list float) (i : float) (v : float) : list float :=
  match F2idx i with
  | Some k => add_at buffer k v
  | None => buffer
  end.

(** [map] with the element's index. *)
Fixpoint mapi_from {A B : Type} (f : nat -> A -> B) (i : nat) (l : list A) : list B :=
  match l with
  | [] => []
  | x :: t => f i x :: mapi_from f (S i) t
  end.

Definition mapi {A B : Type} (f : nat -> A -> B) (l : list A) : list B :=
  mapi_from f O l.

(* ================================================================== *)
(** ** wavWriter.ts *)
(* ================================================================== *)

(** A store into a [Uint8Array]. *)
Definition ToUint8 (z : Z) : Z := (z mod 256)%Z.

(** The two bytes [float32ToPCM] writes for one sample. *)
Definition sample_bytes (x : float) : list Z :=
  let sample := Math_max (-1) (Math_min 1 x) in
  let int16 := if sample <? 0 then sample * 32768 else sample * 32767 in
  [ ToUint8 (bitand int16 0xFF);
    ToUint8 (Z.land (Z.shiftr (ToInt32 int16) 8) 0xFF) ].

(** [float32ToPCM(buffer, channels)]. *)
Definition float32ToPCM (buffer : list float) (channels : float) : list Z :=
  flat_map sample_bytes buffer.

(** The gain [applyEnvelope] computes at index [i] of a buffer of [len] samples.
    [buffer.length - i] is a difference of two array indices and is kept in [Z]. *)
Definition envelope_gain (len : nat) (fadeInSamples fadeOutSamples : float)
    (i : nat) : float :=
  let gain := 1 in
  let gain :=
    if Z2F (Z.of_nat i) <? fadeInSamples
    then gain * (Z2F (Z.of_nat i) / fadeInSamples) else gain in
  let gain :=
    if Z2F (Z.of_nat len) - fadeOutSamples <=? Z2F (Z.of_nat i)
    then gain * (Z2F (Z.of_nat len - Z.of_nat i) / fadeOutSamples) else gain in
  gain.

(** [applyEnvelope(buffer, fadeInSec, fadeOutSec, sampleRate)]. *)
Definition applyEnvelope (buffer : list float)
    (fadeInSec fadeOutSec sampleRate : float) : list float :=
  let fadeInSamples := Math_floor (fadeInSec * sampleRate) in
  let fadeOutSamples := Math_floor (fadeOutSec * sampleRate) in
  mapi (fun i x =>
          Math_fround (x * envelope_gain (List.length buffer) fadeInSamples fadeOutSamples i))
       buffer.

(** [convertToStereo(monoBuffer, spread)]. *)
Definition stereo_pair (spread : float) (sample : float) : list float :=
  let leftGain := 1 - spread * 0.5 in
  let rightGain := 1 - spread * 0.5 in
  [ Math_fround (sample * leftGain); Math_fround (sample * rightGain) ].

Definition convertToStereo (monoBuffer : list float) (spread : float) : list float :=
  flat_map (stereo_pair spread) monoBuffer.

(** Node's [Buffer]: bytes as integers in 0..255. *)
Definition le_bytes (n : nat) (z : Z) : list Z :=
  map (fun k => ((z / 2 ^ (8 * Z.of_nat k)) mod 256)%Z) (seq 0 n).

(** [buf.writeUIntNLE(value, offset)], N = 8 * width: a value outside
    [0, 2^N - 1] raises ERR_OUT_OF_RANGE (a RangeError); otherwise the integer
    part is stored low byte first. *)
Definition splice (buf : list Z) (offset : nat) (bytes : list Z) : list Z :=
  firstn offset buf ++ bytes ++ skipn (offset + List.length bytes) buf.

Definition writeUIntLE (width : nat) (buf : list Z) (value : float) (offset : nat)
    : JsError + list Z :=
  if (Z2F (2 ^ (8 * Z.of_nat width) - 1) <? value) || (value <? 0)
  then inl RangeError
  else inr (splice buf offset (le_bytes width (truncZ value))).

Definition writeUInt32LE := writeUIntLE 4.
Definition writeUInt16LE := writeUIntLE 2.

(** [buf.write(str, offset)] for an ASCII string. *)
Definition write_ascii (buf : list Z) (s : string) (offset : nat) : list Z :=
  splice buf offset (map (fun c => Z.of_N (N_of_ascii c)) (list_ascii_of_string s)).

Definition bind {A B : Type} (x : JsError + A) (f : A -> JsError + B) : JsError + B :=
  match x with
  | inl e => inl e
  | inr a => f a
  end.

Notation "x <- c ;; k" := (bind c (fun x => k))
  (at level 61, c at next level, right associativity).

(** The byte sequence [writeWav] hands to [writeFileSync]. *)
Definition wav_bytes (data : list float) (sampleRate channels : float)
    : JsError + list Z :=
  let pcmData := float32ToPCM data channels in
  let header := repeat 0%Z 44 in
  let totalLen := (Z.of_nat (List.length pcmData) + 44)%Z in
  let bytesPerSample := 2 in
  let blockAlign := channels * bytesPerSample in
  let byteRate := sampleRate * blockAlign in
  let header := write_ascii header "RIFF" 0 in
  header <- writeUInt32LE header (Z2F (totalLen - 8)) 4 ;;
  let header := write_ascii header "WAVE" 8 in
  let header := write_ascii header "fmt " 12 in
  header <- writeUInt32LE header 16 16 ;;
  header <- writeUInt16LE header 1 20 ;;
  header <- writeUInt16LE header channels 22 ;;
  header <- writeUInt32LE header sampleRate 24 ;;
  header <- writeUInt32LE header byteRate 28 ;;
  header <- writeUInt16LE header blockAlign 32 ;;
  header <- writeUInt16LE header 16 34 ;;
  let header := write_ascii header "data" 36 in
  header <- writeUInt32LE header (Z2F (Z.of_nat (List.length pcmData))) 40 ;;
  inr (header ++ pcmData).

(** The file system [writeFileSync] acts on: the contents of each path. *)
Definition FileSystem : Type := string -> option (list Z).

Definition writeFileSync (fs : FileSystem) (path : string) (bytes : list Z) : FileSystem :=
  fun p => if String.eqb p path then Some bytes else fs p.

(** [writeWav({data, sampleRate, outPath, channels})]. *)
Definition writeWav (fs : FileSystem) (data : list float) (sampleRate : float)
    (outPath : string) (channels : float) : JsError + FileSystem :=
  wav <- wav_bytes data sampleRate channels ;;
  inr (writeFileSync fs outPath wav).

(* ================================================================== *)
(** ** ambientLayers.ts *)
(* ================================================================== *)

Record LayerOptions : Type := mkOptions {
  intensity : float;
  variation : float;
  seed : option float
}.

Record AmbientLayerResult : Type := mkLayer {
  name : string;
  buffer : list float;
  description : string
}.

(** What a synthesis loop carries: the generator and the output buffer. *)
Record LoopState : Type := mkLoop {
  ls_rng : SeededRandom;
  ls_buf : list float
}.

Section Platform.

(** The host's [Math.sin], [Math.exp] and [Math.tanh] (implementation-approximated
    in ECMAScript) and [Number.prototype.toFixed]. *)
Variable Math_sin : float -> float.
Variable Math_exp : float -> float.
Variable Math_tanh : float -> float.
Variable toFixed : float -> nat -> string.

(** *** generateRainLayer *)

(** The droplet loop [for (j = 0; j < dropletSamples && (i + j) < buffer.length; j++)];
    [rem] is [buffer.length - (i + j)]. *)
Fixpoint droplet_loop (sampleRate dropletSamples dropletIntensity frequency : float)
    (options : LayerOptions) (i : nat) (rem : nat) (j : nat) (st : LoopState) : LoopState :=
  match rem with
  | O => st
  | S rem' =>
      if Z2F (Z.of_nat j) <? dropletSamples then
        let dropletDuration := 0.01 in
        let t := Z2F (Z.of_nat j) / sampleRate in
        let envelope := Math_exp (- t * 150) * (1 - t / dropletDuration) in
        let oscillation := Math_sin (2 * Math_PI * frequency * t) in
        let (u, rng') := random (ls_rng st) in
        let noise := (u * 2 - 1) * 0.2 in
        let buf' :=
          add_at (ls_buf st) (i + j)
            ((oscillation * 0.8 + noise * 0.2) * envelope * dropletIntensity
             * intensity options) in
        droplet_loop sampleRate dropletSamples dropletIntensity frequency options
          i rem' (S j) (mkLoop rng' buf')
      else st
  end.

(** One iteration of the outer rain loop at index [i]. *)
Definition rain_iter (baseNoise : list float) (sampleRate : float)
    (options : LayerOptions) (i : nat) (st : LoopState) : LoopState :=
  let dropletRate := 20 + intensity options * 80 in
  let dropletDuration := 0.01 in
  let dropletSamples := Math_floor (dropletDuration * sampleRate) in
  let noiseIntensity := abs (get baseNoise i) in
  let rainChance := (dropletRate / sampleRate) * (1 + noiseIntensity * variation options) in
  let (u, rng1) := random (ls_rng st) in
  if u <? rainChance then
    let (u1, rng2) := random rng1 in
    let dropletIntensity := 0.1 + u1 * 0.4 in
    let (u2, rng3) := random rng2 in
    let frequency := 2000 + u2 * 3000 in
    droplet_loop sampleRate dropletSamples dropletIntensity frequency options
      i (List.length (ls_buf st) - i) 0 (mkLoop rng3 (ls_buf st))
  else mkLoop rng1 (ls_buf st).

(** [for (i = 0; i < buffer.length; i++)]: [rem] iterations from index [i]. *)
Fixpoint for_loop (body : nat -> LoopState -> LoopState) (rem : nat) (i : nat)
    (st : LoopState) : LoopState :=
  match rem with
  | O => st
  | S rem' => for_loop body rem' (S i) (body i st)
  end.

Definition generateRainLayer (entropy : float) (baseNoise : list float)
    (sampleRate : float) (options : LayerOptions) : AmbientLayerResult :=
  let rng := new_SeededRandom entropy (seed options) in
  let buffer := zeros (List.length baseNoise) in
  let st := for_loop (rain_iter baseNoise sampleRate options)
              (List.length buffer) 0 (mkLoop rng buffer) in
  mkLayer "pacific_rain" (ls_buf st)
    ("Pacific Northwest rain (intensity: " ++ toFixed (intensity options) 2 ++ ")").

(** *** generateBirdLayer *)

(** The call loop [for (j = 0; j < callSamples && (i + j) < buffer.length; j++)].
    The outer index [i] is a number here, because [i += callSamples] makes it
    one; the loop is cut after [fuel] iterations. *)
Fixpoint call_loop (sampleRate callSamples callLength frequency modulation : float)
    (options : LayerOptions) (i : float) (fuel : nat) (j : nat) (buf : list float)
    : option (list float) :=
  if (Z2F (Z.of_nat j) <? callSamples)
     && (i + Z2F (Z.of_nat j) <? Z2F (Z.of_nat (List.length buf))) then
    match fuel with
    | O => None
    | S fuel' =>
        let callTime := Z2F (Z.of_nat j) / sampleRate in
        let envelope := Math_sin (Math_PI * callTime / callLength) in
        let freq := frequency + Math_sin (2 * Math_PI * 3 * callTime) * modulation in
        let signal := Math_sin (2 * Math_PI * freq * callTime) in
        let buf' :=
          add_at_num buf (i + Z2F (Z.of_nat j))
            (signal * envelope * 0.3 * intensity options) in
        call_loop sampleRate callSamples callLength frequency modulation options
          i fuel' (S j) buf'
    end
  else Some buf.

(** The three archetypes: frequency, modulation, call length, and the generator
    after the frequency draw. *)
Definition bird_archetype (birdType : float) (rng : SeededRandom)
    : float * float * float * SeededRandom :=
  let (u, rng') := random rng in
  if birdType <? 0.3 then (2000 + u * 1000, 200, 0.3, rng')
  else if birdType <? 0.6 then (400 + u * 300, 50, 0.15, rng')
  else (1500 + u * 2000, 400, 0.1, rng').

(** The outer bird loop [for (i = 0; i < buffer.length; i++)], whose body may
    advance [i]; cut after [fuel] iterations. *)
Fixpoint bird_loop (baseNoise : list float) (sampleRate : float)
    (options : LayerOptions) (fuel : nat) (i : float) (st : LoopState)
    : option LoopState :=
  if i <? Z2F (Z.of_nat (List.length (ls_buf st))) then
    match fuel with
    | O => None
    | S fuel' =>
        let callRate := 0.5 + intensity options * 2 in
        let noiseLevel := abs (get_num baseNoise i) in
        let callChance :=
          (callRate / sampleRate) * (1 + noiseLevel * variation options * 2) in
        let (u, rng1) := random (ls_rng st) in
        if u <? callChance then
          let (birdType, rng2) := random rng1 in
          let '(frequency, modulation, callLength, rng3) := bird_archetype birdType rng2 in
          let callSamples := Math_floor (callLength * sampleRate) in
          match call_loop sampleRate callSamples callLength frequency modulation
                  options i (S (List.length (ls_buf st))) 0 (ls_buf st) with
          | None => None
          | Some buf' =>
              bird_loop baseNoise sampleRate options fuel'
                (i + callSamples + 1) (mkLoop rng3 buf')
          end
        else
          bird_loop baseNoise sampleRate options fuel' (i + 1) (mkLoop rng1 (ls_buf st))
    end
  else Some st.

(** [generateBirdLayer]; [callDuration] is computed and never used, but its
    draw advances the generator. *)
Definition generateBirdLayer (fuel : nat) (entropy : float) (baseNoise : list float)
    (sampleRate : float) (options : LayerOptions) : option AmbientLayerResult :=
  let rng := new_SeededRandom entropy (seed options) in
  let buffer := zeros (List.length baseNoise) in
  let (u, rng') := random rng in
  let callDuration := 0.2 + u * 0.8 in
  match bird_loop baseNoise sampleRate options fuel 0 (mkLoop rng' buffer) with
  | None => None
  | Some st =>
      Some (mkLayer "pacific_birds" (ls_buf st)
              ("Pacific Northwest birds (intensity: "
               ++ toFixed (intensity options) 2 ++ ")"))
  end.

(** *** generateWaterLayer *)

Fixpoint bubble_loop (sampleRate bubbleSamples bubbleFreq : float)
    (options : LayerOptions) (i : nat) (rem : nat) (j : nat) (buf : list float)
    : list float :=
  match rem with
  | O => buf
  | S rem' =>
      if Z2F (Z.of_nat j) <? bubbleSamples then
        let bubbleTime := Z2F (Z.of_nat j) / sampleRate in
        let bubbleEnv := Math_exp (- bubbleTime * 10) in
        let bubbleSound := Math_sin (2 * Math_PI * bubbleFreq * bubbleTime) in
        bubble_loop sampleRate bubbleSamples bubbleFreq options i rem' (S j)
          (add_at buf (i + j) (bubbleSound * bubbleEnv * 0.2 * intensity options))
      else buf
  end.

(** The water loop carries the lowpass [filterState] as well. *)
Record WaterState : Type := mkWater {
  ws_filter : float;
  ws_loop : LoopState
}.

Definition water_iter (baseNoise : list float) (sampleRate : float)
    (options : LayerOptions) (i : nat) (ws : WaterState) : WaterState :=
  let baseFlow := 0.3 in
  let bubbleRate := 5 + intensity options * 15 in
  let st := ws_loop ws in
  let noiseLevel := abs (get baseNoise i) in
  let (u, rng1) := random (ls_rng st) in
  let rawNoise := u * 2 - 1 in
  let filterState := ws_filter ws * 0.95 + rawNoise * 0.05 in
  let flowIntensity := baseFlow + noiseLevel * variation options * 0.5 in
  let buf1 := set_at (ls_buf st) i (filterState * flowIntensity * intensity options * 0.4) in
  let bubbleChance := bubbleRate / sampleRate in
  let (u2, rng2) := random rng1 in
  if u2 <? bubbleChance then
    let (u3, rng3) := random rng2 in
    let bubbleFreq := 800 + u3 * 1200 in
    let (u4, rng4) := random rng3 in
    let bubbleDuration := 0.05 + u4 * 0.1 in
    let bubbleSamples := Math_floor (bubbleDuration * sampleRate) in
    mkWater filterState
      (mkLoop rng4
         (bubble_loop sampleRate bubbleSamples bubbleFreq options
            i (List.length buf1 - i) 0 buf1))
  else mkWater filterState (mkLoop rng2 buf1).

Fixpoint water_loop (baseNoise : list float) (sampleRate : float)
    (options : LayerOptions) (rem : nat) (i : nat) (ws : WaterState) : WaterState :=
  match rem with
  | O => ws
  | S rem' =>
      water_loop baseNoise sampleRate options rem' (S i)
        (water_iter baseNoise sampleRate options i ws)
  end.

Definition generateWaterLayer (entropy : float) (baseNoise : list float)
    (sampleRate : float) (options : LayerOptions) : AmbientLayerResult :=
  let rng := new_SeededRandom entropy (seed options) in
  let buffer := zeros (List.length baseNoise) in
  let ws := water_loop baseNoise sampleRate options (List.length buffer) 0
              (mkWater 0 (mkLoop rng buffer)) in
  mkLayer "running_water" (ls_buf (ws_loop ws))
    ("Running water (intensity: " ++ toFixed (intensity options) 2 ++ ")").

(** *** mixAmbientLayers *)

(** The first two loops: the base scaled by [baseLevel], then every layer added
    with weight [layerLevel / layers.length]. *)
Definition add_layer (layerLevel : float) (count : nat) (mixed : list float)
    (layer : AmbientLayerResult) : list float :=
  let layerWeight := layerLevel / Z2F (Z.of_nat count) in
  mapi (fun i m => Math_fround (m + get (buffer layer) i * layerWeight)) mixed.

Definition premix (baseNoise : list float) (layers : list AmbientLayerResult)
    (baseLevel layerLevel : float) : list float :=
  let mixed := map (fun x => Math_fround (x * baseLevel)) baseNoise in
  fold_left (add_layer layerLevel (List.length layers)) layers mixed.

(** The third loop, on one element. *)
Definition soft_limit (x : float) : float :=
  if 0.95 <? abs x
  then Math_fround (if 0 <? x then Math_tanh x else - Math_tanh (- x))
  else x.

Definition mixAmbientLayers (baseNoise : list float) (layers : list AmbientLayerResult)
    (baseLevel layerLevel : float) : list float :=
  map soft_limit (premix baseNoise layers baseLevel layerLevel).

End Platform.

(* ================================================================== *)
(** ** Definitions used to state the properties *)
(* ================================================================== *)

Local Close Scope float_scope.

(** The magnitude of [m * 2^e]: the value lies in [2^(mag-1), 2^mag). *)
Definition mag (m e : Z) : Z := Zdigits2 m + e.

Definition is_pow2 (m : Z) : Prop := m = 2 ^ (Zdigits2 m - 1).

(** What [binary_round_aux prec emax] can return for a positive significand of
    magnitude [M] (that is, a value in [2^(M-1), 2^M)). *)
Inductive rounded (prec emax : Z) (s : bool) (M : Z) : spec_float -> Prop :=
  | rounded_zero :
      M <= SpecFloat.fexp prec emax M -> rounded prec emax s M (S754_zero s)
  | rounded_inf :
      emax <= M -> rounded prec emax s M (S754_infinity s)
  | rounded_fin (m : positive) (e : Z) :
      mag (Zpos m) e = M \/ (mag (Zpos m) e = M + 1 /\ is_pow2 (Zpos m)) ->
      e = SpecFloat.fexp prec emax (mag (Zpos m) e) ->
      e <= emax - prec ->
      rounded prec emax s M (S754_finite s m e).

(** The value of a number, as a multiple of 2^-1074; the infinities lie
    beyond every finite value. *)
Definition huge : Z := 2 ^ 2200.

Definition SFval (x : spec_float) : Z :=
  match x with
  | S754_zero _ => 0
  | S754_nan => 0
  | S754_infinity s => if s then - huge else huge
  | S754_finite s m e =>
      let v := Zpos m * 2 ^ (e + 1074) in if s then - v else v
  end.

Definition SFnan (x : spec_float) : bool :=
  match x with S754_nan => true | _ => false end.

Ltac solve_compare :=
  symmetry;
  match goal with
  | |- (_ ?= _) = Lt => apply Z.compare_lt_iff
  | |- (_ ?= _) = Gt => apply Z.compare_gt_iff
  | |- (_ ?= _) = Eq => apply Z.compare_eq_iff
  end; lia.

(** Values of numbers. *)
Definition Fval (x : float) : Z := SFval (Prim2SF x).

(** The canonical form of a positive integer below 2^53. *)
Definition SFint (s : bool) (n : Z) : spec_float :=
  S754_finite s (Z.to_pos (n * 2 ^ (53 - Zdigits2 n))) (Zdigits2 n - 53).

(** The sign of a number that is not NaN: [true] for negative. *)
Definition SFsign (x : spec_float) : option bool :=
  match x with
  | S754_zero s | S754_infinity s | S754_finite s _ _ => Some s
  | S754_nan => None
  end.

(* ================================================================== *)
(** ** The pink formula in the words of the specification *)
(* ================================================================== *)

Local Open Scope float_scope.

(** The generator after [k] draws, and the white value of sample [i]. *)
Fixpoint rng_after (k : nat) (rng : SeededRandom) : SeededRandom :=
  match k with
  | O => rng
  | S k' => snd (random (rng_after k' rng))
  end.

Definition white_at (rng : SeededRandom) (i : nat) : float :=
  fst (random (rng_after i rng)) * 2 - 1.

(** A filter state with pole coefficients [a / c]: 0 before the first sample,
    then [a * b + white * c] at every sample. *)
Fixpoint pole (a c : float) (rng : SeededRandom) (i : nat) : float :=
  match i with
  | O => a * 0 + white_at rng 0 * c
  | S k => a * pole a c rng k + white_at rng (S k) * c
  end.

Definition pole_before (a c : float) (rng : SeededRandom) (i : nat) : float :=
  match i with
  | O => 0
  | S k => pole a c rng k
  end.

(** The seventh term: the previous iteration's [white * 0.115926]. *)
Definition b6_at (rng : SeededRandom) (i : nat) : float :=
  match i with
  | O => 0
  | S k => white_at rng k * 0.115926
  end.

(** [b0 + b1 + b2 + b3 + b4 + b5 + b6] at sample [i]. *)
Definition pole_sum (rng : SeededRandom) (i : nat) : float :=
  pole 0.99886 0.0555179 rng i + pole 0.99332 0.0750759 rng i
  + pole 0.96900 0.1538520 rng i + pole 0.86650 0.3104856 rng i
  + pole 0.55000 0.5329522 rng i + pole (-0.7616) (-0.0168980) rng i
  + b6_at rng i.

(** The sample as the specification gives it, and with the direct white term
    of the source; both as stored in the [Float32Array]. *)
Definition pink_as_stated (rng : SeededRandom) (i : nat) : float :=
  Math_fround (pole_sum rng i * 0.11).

Definition pink_sample (rng : SeededRandom) (i : nat) : float :=
  Math_fround ((pole_sum rng i + white_at rng i * 0.5362) * 0.11).

(** The filter variables on entry to iteration [i]. *)
Definition pink_state (rng : SeededRandom) (i : nat) : PinkState :=
  mkPink (pole_before 0.99886 0.0555179 rng i) (pole_before 0.99332 0.0750759 rng i)
         (pole_before 0.96900 0.1538520 rng i) (pole_before 0.86650 0.3104856 rng i)
         (pole_before 0.55000 0.5329522 rng i) (pole_before (-0.7616) (-0.0168980) rng i)
         (b6_at rng i).

Local Close Scope float_scope.

(* ================================================================== *)
(** ** The PCM conversion in the words of the specification *)
(* ================================================================== *)

Local Open Scope float_scope.

(** Clamping to [-1, 1]. *)
Definition clamp (x : float) : float :=
  if x <? -1 then -1 else if 1 <? x then 1 else x.

(** The integer a sample is converted to: clamped, scaled by 32768 below zero
    and by 32767 otherwise, truncated. *)
Definition pcm16 (x : float) : Z :=
  let c := clamp x in
  truncZ (if c <? 0 then c * 32768 else c * 32767).

(** The noise types [generateNoise] recognizes. *)
Definition recognized (type : string) : Prop :=
  type = "white"%string \/ type = "brown"%string \/ type = "pink"%string.

Local Close Scope float_scope.

(* ================================================================== *)
(** ** Reading the fields of a container *)
(* ================================================================== *)

(** The unsigned integer a little-endian byte sequence denotes. *)
Fixpoint le_decode (bytes : list Z) : Z :=
  match bytes with
  | [] => 0
  | b :: rest => b + 256 * le_decode rest
  end.

(** The [width]-byte little-endian field at [offset]. *)
Definition field (bytes : list Z) (offset width : nat) : Z :=
  le_decode (firstn width (skipn offset bytes)).

(** The four ASCII codes of a chunk tag. *)
Definition tag (bytes : list Z) (offset : nat) : list Z :=
  firstn 4 (skipn offset bytes).

(* ================================================================== *)
(** ** The mixer and the layers *)
(* ================================================================== *)

Local Open Scope float_scope.

(** The sign of a number, as a factor. *)
Definition sign (x : float) : float := if 0 <? x then 1 else -1.

(** What the limiter needs of the host's [Math.tanh]: on positive arguments its
    value lies in [0, 1]. *)
Definition tanh_range (f : float -> float) : Prop :=
  forall t : float, (0 <? t) = true -> (0 <=? f t) = true /\ (f t <=? 1) = true.

(** The three call lengths of [generateBirdLayer], in seconds. *)
Definition call_lengths : list float := [0.3; 0.15; 0.1].

(** A sample rate at which every call length is fewer than 2^52 samples. *)
Definition calls_fit (sampleRate : float) : Prop :=
  forall callLength : float,
    In callLength call_lengths ->
    (callLength * sampleRate <? 4503599627370496) = true.

(* ================================================================== *)
(** ** Further definitions used to state properties *)
(* ================================================================== *)

Local Close Scope float_scope.

(** What rounding returns for a value that does not exceed the representable
    [mR * 2^eR]: a zero, or a finite number that does not exceed it either. *)
Definition below (s : bool) (mR : positive) (eR : Z) (r : spec_float) : Prop :=
  match r with
  | S754_zero s' => s' = s
  | S754_finite s' m e =>
      s' = s /\ -1074 <= e /\ Zpos m * 2 ^ (e + 1074) <= Zpos mR * 2 ^ (eR + 1074)
  | _ => False
  end.

(** The signed 16-bit integer two little-endian bytes denote. *)
Definition int16_decode (bytes : list Z) : Z :=
  let u := le_decode bytes in
  if u <? 32768 then u else u - 65536.

(* ================================================================== *)
(** ** Binary floating-point arithmetic *)
(* ================================================================== *)

Local Close Scope float_scope.

(** * Binary digits *)

Lemma digits2_pos_log2 (p : positive) :
  Zpos (digits2_pos p) = Z.log2 (Zpos p) + 1.
Proof.
  assert (H : forall q, digits2_pos q = Pos.size q) by (induction q; simpl; congruence).
  rewrite H. destruct p; simpl; lia.
Qed.

Lemma Zdigits2_log2 (m : Z) : 0 < m -> Zdigits2 m = Z.log2 m + 1.
Proof. destruct m; try lia. intros _. apply digits2_pos_log2. Qed.

Lemma Zdigits2_bounds (m : Z) :
  0 < m -> 2 ^ (Zdigits2 m - 1) <= m < 2 ^ Zdigits2 m.
Proof.
  intros H. rewrite Zdigits2_log2 by assumption.
  replace (Z.log2 m + 1 - 1) with (Z.log2 m) by lia.
  pose proof (Z.log2_spec m H). rewrite <- Z.add_1_r in H0. exact H0.
Qed.

Lemma Zdigits2_unique (m d : Z) :
  2 ^ (d - 1) <= m < 2 ^ d -> 0 < m -> Zdigits2 m = d.
Proof.
  intros H Hm. rewrite Zdigits2_log2 by assumption.
  assert (0 <= d - 1).
  { destruct (Z_lt_le_dec (d - 1) 0) as [Hn|]; [|assumption].
    assert (d <= 0) by lia.
    assert (2 ^ d <= 2 ^ 0) by (destruct (Z.eq_dec d 0); [subst; lia|rewrite Z.pow_neg_r by lia; lia]).
    simpl in *. lia. }
  rewrite (Z.log2_unique m (d - 1)); try lia.
  replace (Z.succ (d - 1)) with d by lia. lia.
Qed.

Lemma Zdigits2_pos (m : Z) : 0 < m -> 0 < Zdigits2 m.
Proof. intros H. rewrite Zdigits2_log2 by assumption. pose proof (Z.log2_nonneg m). lia. Qed.

Lemma Zdigits2_mul_pow2 (m k : Z) :
  0 < m -> 0 <= k -> Zdigits2 (m * 2 ^ k) = Zdigits2 m + k.
Proof.
  intros Hm Hk.
  assert (0 < m * 2 ^ k)
    by (apply Z.mul_pos_pos; [assumption | apply Z.pow_pos_nonneg; lia]).
  rewrite !Zdigits2_log2 by assumption. rewrite Z.log2_mul_pow2 by lia. lia.
Qed.

(** * Right shifts *)

Lemma iter_pos_nat {A : Type} (f : A -> A) (p : positive) (x : A) :
  iter_pos f p x = Nat.iter (Pos.to_nat p) f x.
Proof.
  revert x. induction p as [p IH|p IH|]; intros x; cbn [iter_pos].
  - rewrite !IH, Pos2Nat.inj_xI, Nat.iter_succ_r, <- Nat.iter_add.
    f_equal. lia.
  - rewrite !IH, Pos2Nat.inj_xO, <- Nat.iter_add. f_equal. lia.
  - reflexivity.
Qed.

Lemma shr_1_m (mrs : shr_record) :
  0 <= shr_m mrs -> shr_m (shr_1 mrs) = shr_m mrs / 2.
Proof.
  destruct mrs as [m r s]. simpl. intros H.
  destruct m as [|[p|p|]|]; simpl; try lia; try reflexivity.
  - rewrite Pos2Z.inj_xI. apply Z.div_unique with 1; lia.
  - rewrite Pos2Z.inj_xO. apply Z.div_unique with 0; lia.
Qed.

Lemma shr_1_r (mrs : shr_record) :
  0 <= shr_m mrs -> shr_r (shr_1 mrs) = Z.odd (shr_m mrs).
Proof.
  destruct mrs as [m r s]. simpl. intros H.
  destruct m as [|[p|p|]|]; simpl; try lia; reflexivity.
Qed.

Lemma shr_1_s (mrs : shr_record) :
  shr_s (shr_1 mrs) = shr_r mrs || shr_s mrs.
Proof.
  destruct mrs as [m r s]. simpl.
  destruct m as [|[p|p|]|[p|p|]]; reflexivity.
Qed.

Lemma shr_iter_m (n : nat) (mrs : shr_record) :
  0 <= shr_m mrs ->
  shr_m (Nat.iter n shr_1 mrs) = shr_m mrs / 2 ^ Z.of_nat n.
Proof.
  intros H. induction n as [|n IH].
  - simpl. now rewrite Z.div_1_r.
  - rewrite Nat2Z.inj_succ, Z.pow_succ_r by lia. rewrite Nat.iter_succ.
    rewrite shr_1_m.
    + rewrite IH. rewrite Z.div_div by (try apply Z.pow_pos_nonneg; lia).
      f_equal. lia.
    + rewrite IH. apply Z.div_pos; [assumption|apply Z.pow_pos_nonneg; lia].
Qed.

Lemma shr_iter_r (n : nat) (mrs : shr_record) :
  0 <= shr_m mrs ->
  shr_r (Nat.iter (S n) shr_1 mrs) = Z.odd (shr_m mrs / 2 ^ Z.of_nat n).
Proof.
  intros H. rewrite Nat.iter_succ. rewrite shr_1_r.
  - now rewrite shr_iter_m.
  - rewrite shr_iter_m by assumption.
    apply Z.div_pos; [assumption|apply Z.pow_pos_nonneg; lia].
Qed.

(** Shifting out zeros only leaves the record exact. *)
Lemma shr_iter_exact (n : nat) (m : Z) :
  0 <= m -> m mod 2 ^ Z.of_nat n = 0 ->
  Nat.iter n shr_1 (Build_shr_record m false false)
  = Build_shr_record (m / 2 ^ Z.of_nat n) false false.
Proof.
  intros Hm. induction n as [|n IH]; intros Hd.
  - simpl. now rewrite Z.div_1_r.
  - assert (Hp : 0 < 2 ^ Z.of_nat n) by (apply Z.pow_pos_nonneg; lia).
    rewrite Nat2Z.inj_succ, Z.pow_succ_r in Hd by lia.
    assert (Hd' : m mod 2 ^ Z.of_nat n = 0).
    { apply Z.mod_divide in Hd; [|lia]. apply Z.mod_divide; [lia|].
      destruct Hd as [c Hc]. exists (c * 2). lia. }
    rewrite Nat.iter_succ. rewrite IH by assumption.
    assert (He : Z.odd (m / 2 ^ Z.of_nat n) = false).
    { apply Z.mod_divide in Hd; [|lia]. destruct Hd as [c Hc].
      replace m with (c * 2 * 2 ^ Z.of_nat n) by lia.
      rewrite Z.div_mul by lia. rewrite Z.mul_comm. apply Z.odd_mul. }
    assert (Hq : 0 <= m / 2 ^ Z.of_nat n) by (apply Z.div_pos; lia).
    set (q := m / 2 ^ Z.of_nat n) in *.
    assert (E : shr_1 (Build_shr_record q false false)
                = Build_shr_record (q / 2) false false).
    { pose proof (shr_1_m (Build_shr_record q false false) Hq) as A.
      pose proof (shr_1_r (Build_shr_record q false false) Hq) as B.
      pose proof (shr_1_s (Build_shr_record q false false)) as C.
      destruct (shr_1 (Build_shr_record q false false)) as [m' r' s'].
      simpl in *. subst. rewrite He. reflexivity. }
    rewrite E. f_equal. unfold q.
    rewrite Nat2Z.inj_succ, Z.pow_succ_r by lia.
    rewrite Z.div_div by lia. f_equal. lia.
Qed.

Lemma shr_nat (mrs : shr_record) (e n : Z) :
  shr mrs e n = (Nat.iter (Z.to_nat n) shr_1 mrs, e + Z.max n 0).
Proof.
  destruct n as [|p|p]; simpl.
  - now rewrite Z.add_0_r.
  - rewrite iter_pos_nat. f_equal. 
  - now rewrite Z.add_0_r.
Qed.

Lemma shr_m_of_loc (m : Z) (l : location) : shr_m (shr_record_of_loc m l) = m.
Proof. destruct l as [|[ | | ]]; reflexivity. Qed.

Lemma rne_bounds (m : Z) (l : location) :
  m <= round_nearest_even m l <= m + 1.
Proof.
  destruct l as [|[ | | ]]; simpl; try lia. destruct (Z.even m); lia.
Qed.

Lemma rne_r_false (mrs : shr_record) :
  shr_r mrs = false ->
  round_nearest_even (shr_m mrs) (loc_of_shr_record mrs) = shr_m mrs.
Proof. destruct mrs as [m r [|]]; simpl; intros ->; reflexivity. Qed.

Lemma rne_exact (m : Z) :
  round_nearest_even m (loc_of_shr_record (Build_shr_record m false false)) = m.
Proof. reflexivity. Qed.

Lemma digits_div_pow2 (m K : Z) :
  0 < m -> 0 <= K < Zdigits2 m ->
  0 < m / 2 ^ K /\ Zdigits2 (m / 2 ^ K) = Zdigits2 m - K.
Proof.
  intros Hm HK. pose proof (Zdigits2_bounds m Hm) as [Hlo Hhi].
  assert (Hp : 0 < 2 ^ K) by (apply Z.pow_pos_nonneg; lia).
  assert (A : 2 ^ (Zdigits2 m - 1 - K) <= m / 2 ^ K).
  { apply Z.div_le_lower_bound; [assumption|].
    rewrite <- Z.pow_add_r by lia. replace (K + (Zdigits2 m - 1 - K)) with (Zdigits2 m - 1) by lia.
    assumption. }
  assert (B : m / 2 ^ K < 2 ^ (Zdigits2 m - K)).
  { apply Z.div_lt_upper_bound; [assumption|].
    rewrite <- Z.pow_add_r by lia. replace (K + (Zdigits2 m - K)) with (Zdigits2 m) by lia.
    assumption. }
  assert (C : 0 < 2 ^ (Zdigits2 m - 1 - K)) by (apply Z.pow_pos_nonneg; lia).
  split; [lia|].
  apply Zdigits2_unique; [|lia].
  replace (Zdigits2 m - K - 1) with (Zdigits2 m - 1 - K) by lia. lia.
Qed.

Lemma div_pow2_small (m K : Z) :
  0 < m -> Zdigits2 m <= K -> m / 2 ^ K = 0.
Proof.
  intros Hm HK. pose proof (Zdigits2_bounds m Hm) as [_ Hhi].
  pose proof (Zdigits2_pos m Hm).
  apply Z.div_small. split; [lia|].
  apply Z.lt_le_trans with (2 ^ Zdigits2 m); [assumption|].
  apply Z.pow_le_mono_r; lia.
Qed.

Lemma digits_succ (m : Z) :
  0 < m ->
  Zdigits2 (m + 1) = Zdigits2 m \/
  (Zdigits2 (m + 1) = Zdigits2 m + 1 /\ m + 1 = 2 ^ Zdigits2 m).
Proof.
  intros Hm. pose proof (Zdigits2_bounds m Hm) as [Hlo Hhi].
  pose proof (Zdigits2_pos m Hm).
  destruct (Z.eq_dec (m + 1) (2 ^ Zdigits2 m)) as [E|NE].
  - right. split; [|assumption].
    apply Zdigits2_unique; [|lia].
    replace (Zdigits2 m + 1 - 1) with (Zdigits2 m) by lia.
    rewrite Z.pow_add_r by lia. lia.
  - left. apply Zdigits2_unique; lia.
Qed.


Section Rounding.

Variables prec emax : Z.
Hypothesis Hprec : 0 < prec.
Hypothesis Hemax : 2 <= emax.

Abbreviation fexp := (SpecFloat.fexp prec emax).
Abbreviation emin := (SpecFloat.emin prec emax).

Lemma binary_round_aux_unfold (s : bool) (mx ex : Z) (lx : location) :
  binary_round_aux prec emax s mx ex lx =
  let k1 := fexp (Zdigits2 mx + ex) - ex in
  let mrs1 := Nat.iter (Z.to_nat k1) shr_1 (shr_record_of_loc mx lx) in
  let e1 := ex + Z.max k1 0 in
  let m2 := round_nearest_even (shr_m mrs1) (loc_of_shr_record mrs1) in
  let k2 := fexp (Zdigits2 m2 + e1) - e1 in
  let mrs2 := Nat.iter (Z.to_nat k2) shr_1 (Build_shr_record m2 false false) in
  let e2 := e1 + Z.max k2 0 in
  match shr_m mrs2 with
  | Z0 => S754_zero s
  | Zpos m => if e2 <=? emax - prec then S754_finite s m e2 else S754_infinity s
  | Zneg _ => S754_nan
  end.
Proof.
  unfold binary_round_aux, shr_fexp. rewrite shr_nat. cbv zeta.
  rewrite shr_nat. reflexivity.
Qed.


Lemma binary_round_aux_rounded (s : bool) (mx ex : Z) (lx : location) :
  0 < mx -> ex <= fexp (mag mx ex) ->
  rounded prec emax s (mag mx ex) (binary_round_aux prec emax s mx ex lx).
Proof.
  intros Hmx Hex. rewrite binary_round_aux_unfold. cbv zeta.
  unfold mag in *. set (d := Zdigits2 mx) in *. set (M := d + ex) in *.
  set (k1 := fexp M - ex). assert (Hk1 : 0 <= k1) by (unfold k1; lia).
  rewrite (Z.max_l k1 0) by lia.
  set (mrs1 := Nat.iter (Z.to_nat k1) shr_1 (shr_record_of_loc mx lx)).
  assert (Hm1 : shr_m mrs1 = mx / 2 ^ k1).
  { unfold mrs1. rewrite shr_iter_m by (rewrite shr_m_of_loc; lia).
    rewrite shr_m_of_loc, Z2Nat.id by lia. reflexivity. }
  replace (ex + k1) with (fexp M) by (unfold k1; lia).
  set (m2 := round_nearest_even (shr_m mrs1) (loc_of_shr_record mrs1)).
  pose proof (rne_bounds (shr_m mrs1) (loc_of_shr_record mrs1)) as Hm2.
  fold m2 in Hm2. rewrite Hm1 in Hm2.
  pose proof (Zdigits2_pos mx Hmx) as Hd. fold d in Hd.
  assert (Hfe : forall x, emin <= fexp x /\ x - prec <= fexp x
                          /\ (fexp x = emin \/ fexp x = x - prec))
    by (intros x; unfold SpecFloat.fexp; lia).
  assert (Hfm : forall x, fexp x <= fexp (x + 1) <= fexp x + 1)
    by (intros x; unfold SpecFloat.fexp; lia).
  assert (Hee : emin <= emax - prec) by (unfold SpecFloat.emin; lia).
  (* the significand after the first shift and rounding *)
  assert (Hcases :
    (m2 = 0 /\ M <= fexp M) \/
    (0 < m2 /\ (mag m2 (fexp M) = M \/
                (mag m2 (fexp M) = M + 1 /\ is_pow2 m2 /\ (2 <= Zdigits2 m2 \/ fexp M = M))))).
  { destruct (Z_lt_le_dec k1 d) as [Hlt|Hge].
    - (* at least one digit survives *)
      right. destruct (digits_div_pow2 mx k1 Hmx) as [Hpos Hdig]; [fold d; lia|].
      fold d in Hdig.
      assert (Hm2' : m2 = mx / 2 ^ k1 \/ m2 = mx / 2 ^ k1 + 1) by lia.
      split; [lia|]. unfold mag.
      destruct Hm2' as [-> | ->].
      + left. rewrite Hdig. unfold k1. lia.
      + destruct (digits_succ _ Hpos) as [E|[E P]].
        * left. rewrite E, Hdig. unfold k1. lia.
        * right. rewrite E, Hdig. split; [unfold k1; lia|]. split.
          -- unfold is_pow2. rewrite E, P. f_equal. lia.
          -- left. lia.
    - (* every digit is shifted out *)
      assert (Hz : mx / 2 ^ k1 = 0) by (apply div_pow2_small; [assumption|fold d; lia]).
      rewrite Hz in Hm2.
      destruct (Z.eq_dec m2 0) as [E0|NE0].
      + left. split; [assumption|]. unfold k1 in Hge. lia.
      + right. assert (E1 : m2 = 1) by lia. split; [lia|].
        (* rounding up needs the round bit, hence k1 = d *)
        assert (Hkd : k1 = d).
        { destruct (Z.eq_dec k1 d) as [|Hne]; [assumption|exfalso].
          assert (Hr : shr_r mrs1 = false).
          { unfold mrs1. replace (Z.to_nat k1) with (S (Z.to_nat (k1 - 1))) by lia.
            rewrite shr_iter_r by (rewrite shr_m_of_loc; lia).
            rewrite shr_m_of_loc, Z2Nat.id by lia.
            rewrite div_pow2_small by (try assumption; fold d; lia). reflexivity. }
          apply rne_r_false in Hr. fold m2 in Hr. rewrite Hm1, Hz in Hr. lia. }
        right. unfold mag. rewrite E1. change (Zdigits2 1) with 1.
        split; [unfold k1 in Hkd; lia|]. split; [reflexivity|].
        right. unfold k1 in Hkd. lia. }
  destruct Hcases as [[E0 HM]|[Hpos Hmag]].
  - (* zero *)
    rewrite E0. change (Zdigits2 0) with 0. 
    assert (Hk2 : fexp (0 + fexp M) - fexp M <= 0) by (unfold SpecFloat.fexp; lia).
    replace (Z.to_nat (fexp (0 + fexp M) - fexp M)) with O by lia.
    simpl. apply rounded_zero. assumption.
  - set (k2 := fexp (Zdigits2 m2 + fexp M) - fexp M).
    unfold mag in Hmag.
    assert (Hk2 : k2 = 0 \/ (k2 = 1 /\ is_pow2 m2 /\ 2 <= Zdigits2 m2
                            /\ Zdigits2 m2 + fexp M = M + 1)).
    { destruct Hmag as [E|[E [P Q]]].
      - left. unfold k2. rewrite E. lia.
      - unfold k2. rewrite E. pose proof (Hfm M).
        destruct (Z.eq_dec (fexp (M + 1)) (fexp M)) as [|NE]; [left; lia|].
        right. split; [lia|]. split; [assumption|]. split; [|lia].
        destruct Q as [Q|Q]; [assumption|].
        exfalso. unfold SpecFloat.fexp in *. lia. }
    destruct Hk2 as [E2|[E2 [P [Q R]]]].
    + rewrite E2. simpl Nat.iter. simpl shr_m. rewrite Z.add_0_r.
      destruct m2 as [|p|p]; try lia.
      destruct (Z.leb_spec (fexp M) (emax - prec)) as [Hle|Hgt].
      * apply rounded_fin.
        -- unfold mag. destruct Hmag as [E|[E [P _]]]; [left|right]; tauto.
        -- unfold mag. unfold k2 in E2. lia.
        -- assumption.
      * apply rounded_inf. destruct (Hfe M) as (_ & _ & [A|A]); lia.
    + rewrite E2. change (Z.to_nat 1) with 1%nat.
      change (Nat.iter 1 shr_1 (Build_shr_record m2 false false))
        with (shr_1 (Build_shr_record m2 false false)).
      rewrite shr_1_m by (simpl; lia). simpl shr_m.
      assert (Hhalf : 0 < m2 / 2 /\ Zdigits2 (m2 / 2) = Zdigits2 m2 - 1).
      { pose proof (digits_div_pow2 m2 1) as A. change (2 ^ 1) with 2 in A.
        apply A; lia. }
      destruct Hhalf as [Hh1 Hh2].
      assert (Ph : is_pow2 (m2 / 2)).
      { unfold is_pow2 in *. rewrite Hh2. rewrite P at 1.
        replace (Zdigits2 m2 - 1) with (Zdigits2 m2 - 1 - 1 + 1) at 1 by lia.
        rewrite Z.pow_add_r by lia. change (2 ^ 1) with 2.
        apply Z.div_mul. lia. }
      destruct (m2 / 2) as [|p|p] eqn:Eh; try lia.
      change (Z.max 1 0) with 1.
      destruct (Z.leb_spec (fexp M + 1) (emax - prec)) as [Hle|Hgt].
      * apply rounded_fin.
        -- right. unfold mag. rewrite Hh2. split; [lia|assumption].
        -- unfold mag. rewrite Hh2. unfold k2 in E2.
           replace (Zdigits2 m2 - 1 + (fexp M + 1)) with (Zdigits2 m2 + fexp M) by lia.
           lia.
        -- assumption.
      * apply rounded_inf. unfold k2 in E2. rewrite R in E2.
        destruct (Hfe (M + 1)) as (_ & _ & [A|A]); lia.
Qed.


Lemma binary_round_aux_exact (s : bool) (mx ex : Z) :
  0 < mx ->
  0 <= fexp (mag mx ex) - ex ->
  mx mod 2 ^ (fexp (mag mx ex) - ex) = 0 ->
  fexp (mag mx ex) <= emax - prec ->
  binary_round_aux prec emax s mx ex loc_Exact
  = S754_finite s (Z.to_pos (mx / 2 ^ (fexp (mag mx ex) - ex))) (fexp (mag mx ex)).
Proof.
  intros Hmx Hk Hdiv Hle. rewrite binary_round_aux_unfold. cbv zeta.
  unfold mag in *. set (d := Zdigits2 mx) in *. set (M := d + ex) in *.
  set (k1 := fexp M - ex) in *.
  rewrite (Z.max_l k1 0) by lia.
  replace (ex + k1) with (fexp M) by (unfold k1; lia).
  assert (Hp : 0 < 2 ^ k1) by (apply Z.pow_pos_nonneg; lia).
  assert (Hkd : k1 < d).
  { destruct (Z_lt_le_dec k1 d) as [|Hge]; [assumption|exfalso].
    pose proof (Zdigits2_bounds mx Hmx) as [_ Hhi]. fold d in Hhi.
    assert (mx < 2 ^ k1).
    { apply Z.lt_le_trans with (2 ^ d); [assumption|].
      apply Z.pow_le_mono_r; lia. }
    rewrite Z.mod_small in Hdiv by lia. lia. }
  change (shr_record_of_loc mx loc_Exact) with (Build_shr_record mx false false).
  rewrite (shr_iter_exact (Z.to_nat k1) mx) by (rewrite ?Z2Nat.id by lia; assumption || lia).
  rewrite Z2Nat.id by lia. rewrite rne_exact. simpl shr_m.
  destruct (digits_div_pow2 mx k1 Hmx) as [Hpos Hdig]; [fold d; lia|].
  fold d in Hdig. rewrite Hdig.
  replace (d - k1 + fexp M) with M by (unfold k1; lia).
  rewrite Z.sub_diag. simpl Z.to_nat. simpl Nat.iter. simpl shr_m.
  rewrite Z.add_0_r.
  destruct (mx / 2 ^ k1) as [|p|p] eqn:E; try lia.
  apply Z.leb_le in Hle. rewrite Hle. reflexivity.
Qed.

Lemma Pos_iter_xO (p k : positive) :
  Zpos (Pos.iter xO p k) = Zpos p * 2 ^ Zpos k.
Proof.
  revert p. induction k as [|k IH] using Pos.peano_ind; intros p.
  - simpl. rewrite Pos2Z.inj_xO. lia.
  - rewrite Pos.iter_succ, Pos2Z.inj_xO, IH, Pos2Z.inj_succ, Z.pow_succ_r by lia. lia.
Qed.

(** A value that fits the format is returned unchanged by [binary_round]. *)
Lemma binary_round_exact (s : bool) (mx : positive) (ex : Z) :
  fexp (mag (Zpos mx) ex) <= emax - prec ->
  (ex < fexp (mag (Zpos mx) ex) ->
   Zpos mx mod 2 ^ (fexp (mag (Zpos mx) ex) - ex) = 0) ->
  binary_round prec emax s mx ex
  = S754_finite s
      (Z.to_pos (if ex <? fexp (mag (Zpos mx) ex)
                 then Zpos mx / 2 ^ (fexp (mag (Zpos mx) ex) - ex)
                 else Zpos mx * 2 ^ (ex - fexp (mag (Zpos mx) ex))))
      (fexp (mag (Zpos mx) ex)).
Proof.
  intros Hle Hdiv. unfold binary_round, shl_align.
  change (Zpos (digits2_pos mx)) with (Zdigits2 (Zpos mx)).
  fold (mag (Zpos mx) ex). set (e' := fexp (mag (Zpos mx) ex)) in *.
  destruct (Z.ltb_spec ex e') as [Hlt|Hge].
  - destruct (e' - ex) as [|q|q] eqn:E; try lia.
    rewrite binary_round_aux_exact; fold e'; try lia.
    + rewrite E. reflexivity.
    + rewrite E. apply Hdiv. assumption.
  - destruct (e' - ex) as [|q|q] eqn:E; try lia.
    + rewrite binary_round_aux_exact; fold e'; try lia.
      * rewrite E. replace (ex - e') with 0 by lia. simpl (2 ^ 0).
        rewrite Z.div_1_r, Z.mul_1_r. reflexivity.
      * rewrite E. apply Z.mod_1_r.
    + assert (Hm : mag (Zpos (Pos.iter xO mx q)) e' = mag (Zpos mx) ex).
      { unfold mag. rewrite Pos_iter_xO, Zdigits2_mul_pow2 by lia. lia. }
      rewrite binary_round_aux_exact; rewrite ?Hm; fold e'; try lia.
      * rewrite Z.sub_diag. simpl (2 ^ 0). rewrite Z.div_1_r, Pos_iter_xO.
        replace (ex - e') with (Zpos q) by lia. reflexivity.
      * rewrite Z.sub_diag. apply Z.mod_1_r.
Qed.

End Rounding.

(** * Binary64 *)

Abbreviation fexp64 := (SpecFloat.fexp prec emax).

Lemma prec64_pos : 0 < prec.
Proof. reflexivity. Qed.

Lemma emax64_ge2 : 2 <= emax.
Proof. discriminate. Qed.

Lemma fexp64_eq (x : Z) : fexp64 x = Z.max (x - 53) (-1074).
Proof. reflexivity. Qed.

Lemma valid_finite (s : bool) (m : positive) (e : Z) :
  valid_binary (S754_finite s m e) = true ->
  e = fexp64 (mag (Zpos m) e) /\ -1074 <= e <= 971 /\
  Zdigits2 (Zpos m) <= 53 /\ (-1074 < e -> Zdigits2 (Zpos m) = 53).
Proof.
  unfold valid_binary, bounded, canonical_mantissa. intros H.
  apply andb_true_iff in H. destruct H as [H1 H2].
  apply Z.eqb_eq in H1. apply Z.leb_le in H2.
  change (Zpos (digits2_pos m)) with (Zdigits2 (Zpos m)) in H1.
  change (emax - prec) with 971 in H2.
  unfold mag. rewrite fexp64_eq in *. lia.
Qed.

Lemma valid_finite_bounds (s : bool) (m : positive) (e : Z) :
  valid_binary (S754_finite s m e) = true ->
  Zpos m < 2 ^ 53 /\ (-1074 < e -> 2 ^ 52 <= Zpos m).
Proof.
  intros H. destruct (valid_finite s m e H) as (_ & _ & Hd & Hn).
  pose proof (Zdigits2_bounds (Zpos m) ltac:(lia)) as [Hlo Hhi].
  split.
  - apply Z.lt_le_trans with (2 ^ Zdigits2 (Zpos m)); [assumption|].
    apply Z.pow_le_mono_r; lia.
  - intros He. rewrite (Hn He) in Hlo. exact Hlo.
Qed.

(** A canonical finite value is a fixed point of rounding. *)
Lemma binary_round_aux_valid (s : bool) (m : positive) (e : Z) :
  valid_binary (S754_finite s m e) = true ->
  binary_round_aux prec emax s (Zpos m) e loc_Exact = S754_finite s m e.
Proof.
  intros H. destruct (valid_finite s m e H) as (He & Hr & _).
  rewrite binary_round_aux_exact.
  - rewrite <- He, Z.sub_diag. simpl (2 ^ 0). now rewrite Z.div_1_r.
  - lia.
  - rewrite <- He. lia.
  - rewrite <- He, Z.sub_diag. apply Z.mod_1_r.
  - rewrite <- He. change (emax - prec) with 971. lia.
Qed.




Lemma finite_val_bounds (s : bool) (m : positive) (e : Z) :
  valid_binary (S754_finite s m e) = true ->
  0 < Zpos m * 2 ^ (e + 1074) < huge.
Proof.
  intros H. destruct (valid_finite s m e H) as (_ & Hr & _).
  destruct (valid_finite_bounds s m e H) as [Hm _].
  assert (Hp : 0 < 2 ^ (e + 1074)) by (apply Z.pow_pos_nonneg; lia).
  split; [lia|].
  apply Z.lt_le_trans with (2 ^ 53 * 2 ^ (e + 1074)).
  - apply Z.mul_lt_mono_pos_r; assumption.
  - rewrite <- Z.pow_add_r by lia. unfold huge. apply Z.pow_le_mono_r; lia.
Qed.

Lemma canonical_lt (s1 s2 : bool) (m1 m2 : positive) (e1 e2 : Z) :
  valid_binary (S754_finite s1 m1 e1) = true ->
  valid_binary (S754_finite s2 m2 e2) = true ->
  e1 < e2 ->
  Zpos m1 * 2 ^ (e1 + 1074) < Zpos m2 * 2 ^ (e2 + 1074).
Proof.
  intros H1 H2 Hlt.
  destruct (valid_finite _ _ _ H1) as (_ & Hr1 & _).
  destruct (valid_finite _ _ _ H2) as (_ & Hr2 & _).
  destruct (valid_finite_bounds _ _ _ H1) as [Hm1 _].
  destruct (valid_finite_bounds _ _ _ H2) as [_ Hm2].
  specialize (Hm2 ltac:(lia)).
  assert (Hp1 : 0 < 2 ^ (e1 + 1074)) by (apply Z.pow_pos_nonneg; lia).
  assert (Hp2 : 0 < 2 ^ (e2 + 1074)) by (apply Z.pow_pos_nonneg; lia).
  apply Z.lt_le_trans with (2 ^ 53 * 2 ^ (e1 + 1074)).
  - apply Z.mul_lt_mono_pos_r; assumption.
  - apply Z.le_trans with (2 ^ 52 * 2 ^ (e2 + 1074)).
    + rewrite <- !Z.pow_add_r by lia. apply Z.pow_le_mono_r; lia.
    + apply Z.mul_le_mono_nonneg_r; lia.
Qed.

Lemma finite_compare (s1 s2 : bool) (m1 m2 : positive) (e1 e2 : Z) :
  valid_binary (S754_finite s1 m1 e1) = true ->
  valid_binary (S754_finite s2 m2 e2) = true ->
  match e1 ?= e2 with
  | Lt => Lt
  | Gt => Gt
  | Eq => Pos.compare_cont Eq m1 m2
  end = (Zpos m1 * 2 ^ (e1 + 1074) ?= Zpos m2 * 2 ^ (e2 + 1074)).
Proof.
  intros H1 H2. destruct (Z.compare_spec e1 e2) as [E|L|G].
  - subst e2. change (Pos.compare_cont Eq m1 m2) with (Zpos m1 ?= Zpos m2).
    destruct (valid_finite _ _ _ H1) as (_ & Hr1 & _).
    assert (Hp : 0 < 2 ^ (e1 + 1074)) by (apply Z.pow_pos_nonneg; lia).
    apply Zmult_compare_compat_r. lia.
  - symmetry. apply Z.compare_lt_iff. eapply canonical_lt; eassumption.
  - symmetry. apply Z.compare_gt_iff. eapply canonical_lt; eassumption.
Qed.


(** On canonical numbers the IEEE comparison is the comparison of values. *)
Lemma SFcompare_val (x y : spec_float) :
  valid_binary x = true -> valid_binary y = true ->
  SFnan x = false -> SFnan y = false ->
  SFcompare x y = Some (SFval x ?= SFval y).
Proof.
  intros Hx Hy Nx Ny.
  assert (Hh : 0 < huge) by (unfold huge; apply Z.pow_pos_nonneg; lia).
  destruct x as [sx|sx| |sx mx ex]; try discriminate;
  destruct y as [sy|sy| |sy my ey]; try discriminate; cbn [SFcompare SFval];
  try pose proof (finite_val_bounds _ _ _ Hx) as Bx;
  try pose proof (finite_val_bounds _ _ _ Hy) as By.
  - reflexivity.
  - destruct sy; f_equal; solve_compare.
  - destruct sy; f_equal; solve_compare.
  - destruct sx; f_equal; solve_compare.
  - destruct sx, sy; f_equal; solve_compare.
  - destruct sx, sy; f_equal; solve_compare.
  - destruct sx; f_equal; solve_compare.
  - destruct sx, sy; f_equal; solve_compare.
  - destruct sx, sy; f_equal.
    + rewrite Z.compare_opp.
      rewrite (Z.compare_antisym (Zpos mx * 2 ^ (ex + 1074)) (Zpos my * 2 ^ (ey + 1074))).
      rewrite <- (finite_compare _ _ _ _ _ _ Hx Hy).
      destruct (ex ?= ey); reflexivity.
    + solve_compare.
    + solve_compare.
    + apply (finite_compare _ _ _ _ _ _ Hx Hy).
Qed.


Lemma is_nan_SFnan (x : float) : is_nan x = SFnan (Prim2SF x).
Proof.
  unfold is_nan. rewrite eqb_spec. unfold SFeqb.
  pose proof (Prim2SF_valid x) as V.
  destruct (Prim2SF x) as [s|s| |s m e] eqn:E; simpl; try reflexivity.
  - destruct s; reflexivity.
  - rewrite Z.compare_refl, Pos.compare_cont_refl. destruct s; reflexivity.
Qed.

Lemma ltb_val (x y : float) :
  is_nan x = false -> is_nan y = false ->
  PrimFloat.ltb x y = (Fval x <? Fval y).
Proof.
  intros Nx Ny. rewrite is_nan_SFnan in *. rewrite ltb_spec. unfold SFltb, Fval.
  rewrite SFcompare_val by (apply Prim2SF_valid || assumption).
  unfold Z.ltb. destruct (SFval (Prim2SF x) ?= SFval (Prim2SF y)); reflexivity.
Qed.

Lemma leb_val (x y : float) :
  is_nan x = false -> is_nan y = false ->
  PrimFloat.leb x y = (Fval x <=? Fval y).
Proof.
  intros Nx Ny. rewrite is_nan_SFnan in *. rewrite leb_spec. unfold SFleb, Fval.
  rewrite SFcompare_val by (apply Prim2SF_valid || assumption).
  unfold Z.leb. destruct (SFval (Prim2SF x) ?= SFval (Prim2SF y)); reflexivity.
Qed.

Lemma ltb_nan_l (x y : float) : is_nan x = true -> PrimFloat.ltb x y = false.
Proof.
  rewrite is_nan_SFnan, ltb_spec. destruct (Prim2SF x); try discriminate. reflexivity.
Qed.

Lemma ltb_nan_r (x y : float) : is_nan y = true -> PrimFloat.ltb x y = false.
Proof.
  rewrite is_nan_SFnan, ltb_spec.
  destruct (Prim2SF y); try discriminate. destruct (Prim2SF x); reflexivity.
Qed.

Lemma leb_nan_l (x y : float) : is_nan x = true -> PrimFloat.leb x y = false.
Proof.
  rewrite is_nan_SFnan, leb_spec. destruct (Prim2SF x); try discriminate. reflexivity.
Qed.

Lemma leb_nan_r (x y : float) : is_nan y = true -> PrimFloat.leb x y = false.
Proof.
  rewrite is_nan_SFnan, leb_spec.
  destruct (Prim2SF y); try discriminate. destruct (Prim2SF x); reflexivity.
Qed.

(** * Whole numbers *)


Lemma digits_le_53 (n : Z) : 0 < n < 2 ^ 53 -> 1 <= Zdigits2 n <= 53.
Proof.
  intros H. pose proof (Zdigits2_pos n ltac:(lia)).
  pose proof (Zdigits2_bounds n ltac:(lia)) as [Hlo _].
  split; [lia|].
  destruct (Z_le_gt_dec (Zdigits2 n) 53) as [|Hgt]; [assumption|exfalso].
  assert (2 ^ 53 <= 2 ^ (Zdigits2 n - 1)) by (apply Z.pow_le_mono_r; lia).
  lia.
Qed.

Lemma SFint_mantissa (n : Z) :
  0 < n < 2 ^ 53 ->
  Zpos (Z.to_pos (n * 2 ^ (53 - Zdigits2 n))) = n * 2 ^ (53 - Zdigits2 n)
  /\ Zdigits2 (n * 2 ^ (53 - Zdigits2 n)) = 53.
Proof.
  intros H. pose proof (digits_le_53 n H).
  assert (0 < 2 ^ (53 - Zdigits2 n)) by (apply Z.pow_pos_nonneg; lia).
  split.
  - apply Z2Pos.id. apply Z.mul_pos_pos; lia.
  - rewrite Zdigits2_mul_pow2 by lia. lia.
Qed.

Lemma SFint_valid (s : bool) (n : Z) :
  0 < n < 2 ^ 53 -> valid_binary (SFint s n) = true.
Proof.
  intros H. destruct (SFint_mantissa n H) as [Hm Hd]. pose proof (digits_le_53 n H).
  unfold SFint, valid_binary, bounded, canonical_mantissa.
  change (Zpos (digits2_pos ?p)) with (Zdigits2 (Zpos p)).
  rewrite Hm, Hd. apply andb_true_iff. split.
  - apply Z.eqb_eq. rewrite fexp64_eq. lia.
  - apply Z.leb_le. change (emax - prec) with 971. lia.
Qed.

Lemma binary_normalize_int (s : bool) (p : positive) :
  Zpos p < 2 ^ 53 ->
  binary_round prec emax s p 0 = SFint s (Zpos p).
Proof.
  intros H. pose proof (digits_le_53 (Zpos p) ltac:(lia)) as Hd.
  rewrite binary_round_exact.
  - unfold mag. rewrite Z.add_0_r, fexp64_eq.
    replace (Z.max (Zdigits2 (Zpos p) - 53) (-1074)) with (Zdigits2 (Zpos p) - 53) by lia.
    destruct (Z.ltb_spec 0 (Zdigits2 (Zpos p) - 53)); [lia|].
    unfold SFint. do 4 f_equal. lia.
  - unfold mag. rewrite Z.add_0_r, fexp64_eq. change (emax - prec) with 971. lia.
  - unfold mag. rewrite Z.add_0_r, fexp64_eq. lia.
Qed.

Lemma to_Z_of_Z_small (n : Z) : 0 <= n < 2 ^ 53 -> Uint63.to_Z (Uint63.of_Z n) = n.
Proof.
  intros H. rewrite Uint63.of_Z_spec. apply Z.mod_small.
  change wB with (2 ^ 63). assert (2 ^ 53 < 2 ^ 63) by reflexivity. lia.
Qed.

Lemma Prim2SF_Z2F_pos (n : Z) :
  0 < n < 2 ^ 53 -> Prim2SF (Z2F n) = SFint false n.
Proof.
  intros H. destruct n as [|p|p]; try lia. unfold Z2F.
  rewrite of_uint63_spec, to_Z_of_Z_small by lia.
  apply binary_normalize_int. lia.
Qed.

Lemma Prim2SF_Z2F_neg (n : Z) :
  0 < n < 2 ^ 53 -> Prim2SF (Z2F (- n)) = SFint true n.
Proof.
  intros H. destruct n as [|p|p]; try lia. unfold Z2F. cbn [Z.opp].
  rewrite opp_spec, of_uint63_spec, to_Z_of_Z_small by lia.
  cbn [binary_normalize]. rewrite binary_normalize_int by lia. reflexivity.
Qed.

Lemma Prim2SF_Z2F_0 : Prim2SF (Z2F 0) = S754_zero false.
Proof. reflexivity. Qed.

Lemma SFval_SFint (s : bool) (n : Z) :
  0 < n < 2 ^ 53 -> SFval (SFint s n) = if s then - (n * 2 ^ 1074) else n * 2 ^ 1074.
Proof.
  intros H. destruct (SFint_mantissa n H) as [Hm _]. pose proof (digits_le_53 n H).
  unfold SFint. cbn [SFval]. rewrite Hm.
  rewrite <- Z.mul_assoc, <- Z.pow_add_r by lia.
  replace (53 - Zdigits2 n + (Zdigits2 n - 53 + 1074)) with 1074 by lia.
  reflexivity.
Qed.

Lemma Fval_Z2F (n : Z) : - 2 ^ 53 < n < 2 ^ 53 -> Fval (Z2F n) = n * 2 ^ 1074.
Proof.
  intros H. unfold Fval. destruct (Z.lt_trichotomy n 0) as [Hn|[Hn|Hn]].
  - replace n with (- (- n)) at 1 by lia.
    rewrite Prim2SF_Z2F_neg, SFval_SFint by lia. lia.
  - subst n. reflexivity.
  - rewrite Prim2SF_Z2F_pos, SFval_SFint by lia. reflexivity.
Qed.

Lemma Z2F_not_nan (n : Z) : - 2 ^ 53 < n < 2 ^ 53 -> is_nan (Z2F n) = false.
Proof.
  intros H. rewrite is_nan_SFnan. destruct (Z.lt_trichotomy n 0) as [Hn|[Hn|Hn]].
  - replace n with (- (- n)) by lia. rewrite Prim2SF_Z2F_neg by lia. reflexivity.
  - subst n. reflexivity.
  - rewrite Prim2SF_Z2F_pos by lia. reflexivity.
Qed.

(** Comparisons of whole numbers are exact. *)
Lemma Z2F_ltb (a b : Z) :
  - 2 ^ 53 < a < 2 ^ 53 -> - 2 ^ 53 < b < 2 ^ 53 ->
  PrimFloat.ltb (Z2F a) (Z2F b) = (a <? b).
Proof.
  intros Ha Hb. rewrite ltb_val by (apply Z2F_not_nan; assumption).
  rewrite !Fval_Z2F by assumption.
  assert (0 < 2 ^ 1074) by (apply Z.pow_pos_nonneg; lia).
  destruct (Z.ltb_spec a b); [apply Z.ltb_lt|apply Z.ltb_ge]; nia.
Qed.

Lemma Z2F_leb (a b : Z) :
  - 2 ^ 53 < a < 2 ^ 53 -> - 2 ^ 53 < b < 2 ^ 53 ->
  PrimFloat.leb (Z2F a) (Z2F b) = (a <=? b).
Proof.
  intros Ha Hb. rewrite leb_val by (apply Z2F_not_nan; assumption).
  rewrite !Fval_Z2F by assumption.
  assert (0 < 2 ^ 1074) by (apply Z.pow_pos_nonneg; lia).
  destruct (Z.leb_spec a b); [apply Z.leb_le|apply Z.leb_gt]; nia.
Qed.

(** Truncation of a whole number. *)
Lemma SFtrunc_SFint (s : bool) (n : Z) :
  0 < n < 2 ^ 53 -> SFtrunc (SFint s n) = if s then - n else n.
Proof.
  intros H. destruct (SFint_mantissa n H) as [Hm _]. pose proof (digits_le_53 n H) as Hd.
  unfold SFint. cbn [SFtrunc]. rewrite Hm.
  assert (Hp : 0 < 2 ^ (53 - Zdigits2 n)) by (apply Z.pow_pos_nonneg; lia).
  destruct (Z.leb_spec 0 (Zdigits2 n - 53)) as [Hz|Hn].
  - replace (Zdigits2 n - 53) with 0 by lia. replace (53 - Zdigits2 n) with 0 by lia.
    simpl (2 ^ 0). rewrite !Z.mul_1_r. reflexivity.
  - replace (- (Zdigits2 n - 53)) with (53 - Zdigits2 n) by lia.
    rewrite Z.div_mul by lia. reflexivity.
Qed.

Lemma truncZ_Z2F (n : Z) : - 2 ^ 53 < n < 2 ^ 53 -> truncZ (Z2F n) = n.
Proof.
  intros H. unfold truncZ. destruct (Z.lt_trichotomy n 0) as [Hn|[Hn|Hn]].
  - replace n with (- (- n)) at 1 by lia.
    rewrite Prim2SF_Z2F_neg, SFtrunc_SFint by lia. lia.
  - subst n. reflexivity.
  - rewrite Prim2SF_Z2F_pos, SFtrunc_SFint by lia. reflexivity.
Qed.

(** * Exact arithmetic on whole numbers *)

Lemma Zdigits2_ge (m k : Z) : 0 <= k -> 2 ^ k <= m -> k + 1 <= Zdigits2 m.
Proof.
  intros Hk H. assert (0 < 2 ^ k) by (apply Z.pow_pos_nonneg; lia).
  rewrite Zdigits2_log2 by lia.
  assert (k <= Z.log2 m) by (apply Z.log2_le_pow2; lia). lia.
Qed.

Lemma Zdigits2_mul_ge (a b : Z) :
  0 < a -> 0 < b -> Zdigits2 a + Zdigits2 b - 1 <= Zdigits2 (a * b).
Proof.
  intros Ha Hb.
  pose proof (Zdigits2_bounds a Ha) as [La _]. pose proof (Zdigits2_bounds b Hb) as [Lb _].
  pose proof (Zdigits2_pos a Ha). pose proof (Zdigits2_pos b Hb).
  assert (2 ^ (Zdigits2 a - 1 + (Zdigits2 b - 1)) <= a * b).
  { rewrite Z.pow_add_r by lia. apply Z.mul_le_mono_nonneg; try lia;
      apply Z.pow_nonneg; lia. }
  pose proof (Zdigits2_ge (a * b) (Zdigits2 a - 1 + (Zdigits2 b - 1)) ltac:(lia) H1).
  lia.
Qed.

Lemma shl_align_fst (m : positive) (e e' : Z) :
  e' <= e -> Zpos (fst (shl_align m e e')) = Zpos m * 2 ^ (e - e').
Proof.
  intros H. unfold shl_align. destruct (e' - e) as [|p|p] eqn:E; try lia; cbn [fst].
  - replace (e - e') with 0 by lia. simpl (2 ^ 0). lia.
  - rewrite Pos_iter_xO. replace (e - e') with (Zpos p) by lia. reflexivity.
Qed.

(** The number [N * 2^j * 2^(-j)], normalized, is the whole number [N]. *)
Lemma binary_round_scaled (s : bool) (p : positive) (n j : Z) :
  0 <= j -> 0 < n < 2 ^ 53 -> Zpos p = n * 2 ^ j ->
  binary_round prec emax s p (- j) = SFint s n.
Proof.
  intros Hj Hn Hp. pose proof (digits_le_53 n Hn) as Hd.
  assert (Hm : mag (Zpos p) (- j) = Zdigits2 n).
  { unfold mag. rewrite Hp, Zdigits2_mul_pow2 by lia. lia. }
  rewrite binary_round_exact; rewrite Hm, fexp64_eq;
    replace (Z.max (Zdigits2 n - 53) (-1074)) with (Zdigits2 n - 53) by lia.
  - unfold SFint. do 2 f_equal. rewrite Hp.
    destruct (Z.ltb_spec (- j) (Zdigits2 n - 53)) as [Hlt|Hge].
    + replace j with (53 - Zdigits2 n + (Zdigits2 n - 53 - - j)) at 1 by lia.
      rewrite Z.pow_add_r, Z.mul_assoc by lia.
      apply Z.div_mul. apply Z.pow_nonzero; lia.
    + rewrite <- Z.mul_assoc, <- Z.pow_add_r by lia. do 2 f_equal. lia.
  - change (emax - prec) with 971. lia.
  - intros Hlt. rewrite Hp.
    replace j with (53 - Zdigits2 n + (Zdigits2 n - 53 - - j)) at 1 by lia.
    rewrite Z.pow_add_r, Z.mul_assoc by lia. apply Z.mod_mul.
    apply Z.pow_nonzero; lia.
Qed.

Lemma binary_normalize_scaled (n j : Z) :
  0 <= j -> - 2 ^ 53 < n < 2 ^ 53 ->
  binary_normalize prec emax (n * 2 ^ j) (- j) false = Prim2SF (Z2F n).
Proof.
  intros Hj Hn. assert (Hp : 0 < 2 ^ j) by (apply Z.pow_pos_nonneg; lia).
  destruct (Z.lt_trichotomy n 0) as [H|[H|H]].
  - replace n with (- (- n)) at 2 by lia. rewrite Prim2SF_Z2F_neg by lia.
    destruct (n * 2 ^ j) as [|p|p] eqn:E; try nia. cbn [binary_normalize].
    apply binary_round_scaled; try lia.
  - subst n. reflexivity.
  - rewrite Prim2SF_Z2F_pos by lia.
    destruct (n * 2 ^ j) as [|p|p] eqn:E; try nia. cbn [binary_normalize].
    apply binary_round_scaled; try lia.
Qed.

Lemma SFint_as_scaled (s : bool) (n : Z) :
  0 < n < 2 ^ 53 ->
  exists p : positive,
    SFint s n = S754_finite s p (Zdigits2 n - 53) /\
    Zpos p = n * 2 ^ (53 - Zdigits2 n).
Proof.
  intros H. destruct (SFint_mantissa n H) as [Hm _].
  exists (Z.to_pos (n * 2 ^ (53 - Zdigits2 n))). split; [reflexivity|assumption].
Qed.

(** Sums and differences of non-negative whole numbers. *)
Lemma Z2F_add (a b : Z) :
  0 <= a -> 0 <= b -> a + b < 2 ^ 53 ->
  PrimFloat.add (Z2F a) (Z2F b) = Z2F (a + b).
Proof.
  intros Ha Hb Hab. apply Prim2SF_inj. rewrite add_spec.
  destruct (Z.eq_dec a 0) as [->|Na].
  { simpl (0 + b). destruct (Z.eq_dec b 0) as [->|Nb]; [reflexivity|].
    rewrite Prim2SF_Z2F_0, Prim2SF_Z2F_pos by lia. reflexivity. }
  destruct (Z.eq_dec b 0) as [->|Nb].
  { rewrite Prim2SF_Z2F_0, Z.add_0_r. rewrite Prim2SF_Z2F_pos by lia. reflexivity. }
  rewrite (Prim2SF_Z2F_pos a), (Prim2SF_Z2F_pos b) by lia.
  destruct (SFint_as_scaled false a ltac:(lia)) as (pa & -> & Pa).
  destruct (SFint_as_scaled false b ltac:(lia)) as (pb & -> & Pb).
  pose proof (digits_le_53 a ltac:(lia)). pose proof (digits_le_53 b ltac:(lia)).
  unfold SF64add, SFadd. cbv zeta. cbn [cond_Zopp].
  set (ez := Z.min (Zdigits2 a - 53) (Zdigits2 b - 53)).
  rewrite !shl_align_fst by (unfold ez; lia). rewrite Pa, Pb.
  rewrite <- !Z.mul_assoc, <- !Z.pow_add_r by (unfold ez; lia).
  replace (53 - Zdigits2 a + (Zdigits2 a - 53 - ez)) with (- ez) by lia.
  replace (53 - Zdigits2 b + (Zdigits2 b - 53 - ez)) with (- ez) by lia.
  rewrite <- Z.mul_add_distr_r.
  pose proof (binary_normalize_scaled (a + b) (- ez)) as N.
  rewrite Z.opp_involutive in N. apply N; unfold ez; lia.
Qed.

Lemma Z2F_sub (a b : Z) :
  0 <= a < 2 ^ 53 -> 0 <= b < 2 ^ 53 ->
  PrimFloat.sub (Z2F a) (Z2F b) = Z2F (a - b).
Proof.
  intros Ha Hb. apply Prim2SF_inj. rewrite sub_spec.
  destruct (Z.eq_dec b 0) as [->|Nb].
  { rewrite Z.sub_0_r. destruct (Z.eq_dec a 0) as [->|Na]; [reflexivity|].
    rewrite Prim2SF_Z2F_0, Prim2SF_Z2F_pos by lia. reflexivity. }
  destruct (Z.eq_dec a 0) as [->|Na].
  { rewrite Prim2SF_Z2F_0. simpl (0 - b).
    rewrite Prim2SF_Z2F_pos, Prim2SF_Z2F_neg by lia. reflexivity. }
  rewrite (Prim2SF_Z2F_pos a), (Prim2SF_Z2F_pos b) by lia.
  destruct (SFint_as_scaled false a ltac:(lia)) as (pa & -> & Pa).
  destruct (SFint_as_scaled false b ltac:(lia)) as (pb & -> & Pb).
  pose proof (digits_le_53 a ltac:(lia)). pose proof (digits_le_53 b ltac:(lia)).
  unfold SF64sub, SFsub. cbv zeta. cbn [cond_Zopp].
  set (ez := Z.min (Zdigits2 a - 53) (Zdigits2 b - 53)).
  rewrite !shl_align_fst by (unfold ez; lia). rewrite Pa, Pb.
  rewrite <- !Z.mul_assoc, <- !Z.pow_add_r by (unfold ez; lia).
  replace (53 - Zdigits2 a + (Zdigits2 a - 53 - ez)) with (- ez) by lia.
  replace (53 - Zdigits2 b + (Zdigits2 b - 53 - ez)) with (- ez) by lia.
  rewrite <- Z.mul_sub_distr_r.
  pose proof (binary_normalize_scaled (a - b) (- ez)) as N.
  rewrite Z.opp_involutive in N. apply N; unfold ez; lia.
Qed.

(** Products of non-negative whole numbers. *)
Lemma Z2F_mul (a b : Z) :
  0 <= a < 2 ^ 53 -> 0 <= b < 2 ^ 53 -> a * b < 2 ^ 53 ->
  PrimFloat.mul (Z2F a) (Z2F b) = Z2F (a * b).
Proof.
  intros Ha Hb Hab. apply Prim2SF_inj. rewrite mul_spec.
  destruct (Z.eq_dec a 0) as [->|Na].
  { rewrite Prim2SF_Z2F_0. simpl (0 * b).
    destruct (Z.eq_dec b 0) as [->|Nb]; [reflexivity|].
    rewrite Prim2SF_Z2F_pos by lia. reflexivity. }
  destruct (Z.eq_dec b 0) as [->|Nb].
  { rewrite Z.mul_0_r, Prim2SF_Z2F_0.
    rewrite Prim2SF_Z2F_pos by lia. reflexivity. }
  assert (Ha' : 0 < a < 2 ^ 53) by lia. assert (Hb' : 0 < b < 2 ^ 53) by lia.
  assert (Hab' : 0 < a * b < 2 ^ 53) by nia.
  rewrite (Prim2SF_Z2F_pos a), (Prim2SF_Z2F_pos b), (Prim2SF_Z2F_pos (a * b)) by lia.
  destruct (SFint_as_scaled false a Ha') as (pa & -> & Pa).
  destruct (SFint_as_scaled false b Hb') as (pb & -> & Pb).
  pose proof (digits_le_53 a Ha') as Da. pose proof (digits_le_53 b Hb') as Db.
  pose proof (digits_le_53 (a * b) Hab') as Dab.
  pose proof (Zdigits2_mul_ge a b ltac:(lia) ltac:(lia)) as Dge.
  unfold SF64mul, SFmul. cbn [xorb]. rewrite Pos2Z.inj_mul, Pa, Pb.
  set (da := Zdigits2 a) in *. set (db := Zdigits2 b) in *. set (dab := Zdigits2 (a * b)) in *.
  assert (E : a * 2 ^ (53 - da) * (b * 2 ^ (53 - db))
              = a * b * 2 ^ (53 - dab) * 2 ^ (dab + 53 - da - db)).
  { rewrite <- (Z.mul_assoc (a * b)), <- Z.pow_add_r by lia.
    replace (53 - dab + (dab + 53 - da - db)) with (53 - da + (53 - db)) by lia.
    rewrite Z.pow_add_r by lia. ring. }
  assert (Hpos : 0 < a * b * 2 ^ (53 - dab))
    by (apply Z.mul_pos_pos; [lia|apply Z.pow_pos_nonneg; lia]).
  assert (Hm : mag (a * 2 ^ (53 - da) * (b * 2 ^ (53 - db))) (da - 53 + (db - 53)) = dab).
  { unfold mag. rewrite E, !Zdigits2_mul_pow2 by lia. fold dab. lia. }
  rewrite binary_round_aux_exact; rewrite ?Hm, ?fexp64_eq;
    replace (Z.max (dab - 53) (-1074)) with (dab - 53) by lia.
  - unfold SFint. fold dab. do 2 f_equal.
    replace (dab - 53 - (da - 53 + (db - 53))) with (dab + 53 - da - db) by lia.
    rewrite E. apply Z.div_mul. apply Z.pow_nonzero; lia.
  - rewrite E. apply Z.mul_pos_pos; [assumption|apply Z.pow_pos_nonneg; lia].
  - lia.
  - replace (dab - 53 - (da - 53 + (db - 53))) with (dab + 53 - da - db) by lia.
    rewrite E. apply Z.mod_mul. apply Z.pow_nonzero; lia.
  - change (emax - prec) with 971. lia.
Qed.

(** * Multiplication by one *)

Lemma Prim2SF_one : Prim2SF 1 = S754_finite false 4503599627370496 (-52).
Proof. reflexivity. Qed.

Lemma SFmul_one_r (x : spec_float) :
  valid_binary x = true ->
  SFmul prec emax x (S754_finite false 4503599627370496 (-52)) = x.
Proof.
  intros V. destruct x as [[|]|[|]| |s m e]; try reflexivity.
  destruct (valid_finite s m e V) as (He & Hr & _).
  unfold SFmul. rewrite xorb_false_r, Pos2Z.inj_mul.
  change (Zpos 4503599627370496) with (2 ^ 52).
  assert (Hm : mag (Zpos m * 2 ^ 52) (e + -52) = mag (Zpos m) e).
  { unfold mag. rewrite Zdigits2_mul_pow2 by lia. lia. }
  rewrite binary_round_aux_exact; rewrite ?Hm, <- ?He.
  - replace (e - (e + -52)) with 52 by lia. rewrite Z.div_mul by lia. reflexivity.
  - apply Z.mul_pos_pos; lia.
  - lia.
  - replace (e - (e + -52)) with 52 by lia. apply Z.mod_mul. lia.
  - change (emax - prec) with 971. lia.
Qed.

Lemma mul_1_r (x : float) : PrimFloat.mul x 1 = x.
Proof.
  apply Prim2SF_inj. rewrite mul_spec, Prim2SF_one.
  apply SFmul_one_r. apply Prim2SF_valid.
Qed.

Lemma SFmul_comm (x y : spec_float) : SFmul prec emax x y = SFmul prec emax y x.
Proof.
  destruct x as [sx|sx| |sx mx ex], y as [sy|sy| |sy my ey]; cbn [SFmul];
    rewrite ?(xorb_comm sx sy); try reflexivity.
  rewrite (Pos.mul_comm mx my), (Z.add_comm ex ey). reflexivity.
Qed.

Lemma mul_comm (x y : float) : PrimFloat.mul x y = PrimFloat.mul y x.
Proof. apply Prim2SF_inj. rewrite !mul_spec. apply SFmul_comm. Qed.

Lemma mul_1_l (x : float) : PrimFloat.mul 1 x = x.
Proof. rewrite mul_comm. apply mul_1_r. Qed.

(** * Signs *)


Lemma shr_iter_nonneg (n : nat) (mrs : shr_record) :
  0 <= shr_m mrs -> 0 <= shr_m (Nat.iter n shr_1 mrs).
Proof.
  intros H. rewrite shr_iter_m by assumption.
  apply Z.div_pos; [assumption|apply Z.pow_pos_nonneg; lia].
Qed.

Lemma binary_round_aux_sign (p e : Z) (s : bool) (mx ex : Z) (lx : location) :
  0 <= mx -> SFsign (binary_round_aux p e s mx ex lx) = Some s.
Proof.
  intros H. rewrite binary_round_aux_unfold. cbv zeta.
  set (mrs1 := Nat.iter _ shr_1 (shr_record_of_loc mx lx)).
  set (m2 := round_nearest_even (shr_m mrs1) (loc_of_shr_record mrs1)).
  set (mrs2 := Nat.iter _ shr_1 (Build_shr_record m2 false false)).
  assert (H1 : 0 <= shr_m mrs1)
    by (apply shr_iter_nonneg; rewrite shr_m_of_loc; assumption).
  assert (H2 : 0 <= m2)
    by (pose proof (rne_bounds (shr_m mrs1) (loc_of_shr_record mrs1)); unfold m2; lia).
  assert (H3 : 0 <= shr_m mrs2) by (apply shr_iter_nonneg; assumption).
  destruct (shr_m mrs2); try lia; try reflexivity.
  match goal with |- context [if ?b then _ else _] => destruct b end; reflexivity.
Qed.

Lemma SFmul_sign (x y : spec_float) (sx sy : bool) :
  SFsign x = Some sx -> SFsign y = Some sy ->
  SFmul prec emax x y = S754_nan \/ SFsign (SFmul prec emax x y) = Some (xorb sx sy).
Proof.
  destruct x as [s1|s1| |s1 m1 e1], y as [s2|s2| |s2 m2 e2]; cbn [SFsign SFmul];
    intros H1 H2; try discriminate; injection H1 as <-; injection H2 as <-;
    try (right; reflexivity); try (left; reflexivity).
  right. apply binary_round_aux_sign. lia.
Qed.


(** * Equal values *)

Lemma SFcompare_Eq (x y : spec_float) :
  SFcompare x y = Some Eq -> SFval x <> 0 -> x = y.
Proof.
  destruct x as [sx|sx| |sx mx ex], y as [sy|sy| |sy my ey]; cbn [SFcompare SFval];
    intros H N; try discriminate; try lia;
    try (destruct sx; discriminate); try (destruct sy; discriminate).
  - destruct sx, sy; try discriminate; reflexivity.
  - assert (E : (ex ?= ey) = Eq /\ Pos.compare_cont Eq mx my = Eq /\ sx = sy).
    { destruct sx, sy; try discriminate; destruct (ex ?= ey); try discriminate;
        destruct (Pos.compare_cont Eq mx my); try discriminate; repeat split. }
    destruct E as (E1 & E2 & E3). apply Z.compare_eq in E1. apply Pos.compare_eq in E2.
    subst. reflexivity.
Qed.

Lemma Prim2SF_nan (x : float) : is_nan x = true -> x = nan.
Proof.
  rewrite is_nan_SFnan. intros H. apply Prim2SF_inj.
  destruct (Prim2SF x); try discriminate. reflexivity.
Qed.

Lemma Fval_inj (x y : float) :
  is_nan x = false -> is_nan y = false ->
  Fval x = Fval y -> Fval x <> 0 -> x = y.
Proof.
  intros Nx Ny E N. apply Prim2SF_inj. apply SFcompare_Eq; [|exact N].
  rewrite is_nan_SFnan in Nx, Ny.
  rewrite SFcompare_val by (apply Prim2SF_valid || assumption).
  unfold Fval in E. rewrite E, Z.compare_refl. reflexivity.
Qed.

Lemma Fval_one : Fval 1 = 2 ^ 1074.
Proof. change 1%float with (Z2F 1). rewrite Fval_Z2F by lia. lia. Qed.

Lemma Fval_minus_one : Fval (-1) = - 2 ^ 1074.
Proof. change (-1)%float with (Z2F (-1)). rewrite Fval_Z2F by lia. lia. Qed.

Lemma Fval_zero : Fval 0 = 0.
Proof. reflexivity. Qed.

(** * Bounds on rounded values *)

Lemma rounded_val_le (p emx : Z) (s : bool) (M K : Z) (r : spec_float) :
  -1074 <= SpecFloat.emin p emx ->
  rounded p emx s M r -> M <= K -> K < emx ->
  SFsign r = Some s /\
  match r with
  | S754_finite _ m e => -1074 <= e /\ Zpos m * 2 ^ (e + 1074) <= 2 ^ (K + 1074)
  | S754_zero _ => True
  | _ => False
  end.
Proof.
  intros Hemin R HK Hmx. destruct R as [Hz|Hinf|m e Hmag He Hle].
  - split; [reflexivity|exact I].
  - lia.
  - split; [reflexivity|].
    assert (He' : -1074 <= e) by (rewrite He; unfold SpecFloat.fexp; lia).
    split; [assumption|].
    pose proof (Zdigits2_bounds (Zpos m) ltac:(lia)) as [Hlo Hhi].
    pose proof (Zdigits2_pos (Zpos m) ltac:(lia)) as Hd.
    assert (Hp : 0 < 2 ^ (e + 1074)) by (apply Z.pow_pos_nonneg; lia).
    unfold mag in Hmag. destruct Hmag as [E|[E P]].
    + apply Z.le_trans with (2 ^ Zdigits2 (Zpos m) * 2 ^ (e + 1074)).
      * apply Z.mul_le_mono_nonneg_r; lia.
      * rewrite <- Z.pow_add_r by lia. apply Z.pow_le_mono_r; lia.
    + rewrite P, <- Z.pow_add_r by lia. apply Z.pow_le_mono_r; lia.
Qed.

(** * Quotients of whole numbers *)

Lemma SFdiv_int (a b : Z) :
  0 < a < 2 ^ 53 -> 0 < b < 2 ^ 53 ->
  exists (q e' : Z) (l : location),
    SFdiv prec emax (SFint false a) (SFint false b)
    = binary_round_aux prec emax false q e' l
    /\ 0 < q /\ e' <= fexp64 (mag q e') /\ -52 <= mag q e' <= 54
    /\ (a < b -> mag q e' <= 0).
Proof.
  intros Ha Hb.
  destruct (SFint_as_scaled false a Ha) as (pa & -> & Pa).
  destruct (SFint_as_scaled false b Hb) as (pb & -> & Pb).
  pose proof (digits_le_53 a Ha) as Da. pose proof (digits_le_53 b Hb) as Db.
  destruct (SFint_mantissa a Ha) as [_ DA]. destruct (SFint_mantissa b Hb) as [_ DB].
  rewrite <- Pa in DA. rewrite <- Pb in DB.
  set (da := Zdigits2 a) in *. set (db := Zdigits2 b) in *.
  pose proof (Zdigits2_bounds (Zpos pa) ltac:(lia)) as [LA HA].
  pose proof (Zdigits2_bounds (Zpos pb) ltac:(lia)) as [LB HB].
  rewrite DA in LA, HA. rewrite DB in LB, HB.
  change (2 ^ (53 - 1)) with (2 ^ 52) in LA, LB.
  cbn [SFdiv xorb]. unfold SFdiv_core_binary. rewrite DA, DB.
  replace (53 + (da - 53) - (53 + (db - 53))) with (da - db) by lia.
  replace (da - 53 - (db - 53)) with (da - db) by lia.
  rewrite fexp64_eq.
  replace (Z.min (Z.max (da - db - 53) (-1074)) (da - db)) with (da - db - 53) by lia.
  replace (da - db - (da - db - 53)) with 53 by lia.
  change (match 53 with 0 => Zpos pa | Zpos _ => Z.shiftl (Zpos pa) 53 | Zneg _ => 0 end)
    with (Z.shiftl (Zpos pa) 53).
  rewrite Z.shiftl_mul_pow2 by lia.
  set (q := Zpos pa * 2 ^ 53 / Zpos pb).
  assert (Eq : Z.div_eucl (Zpos pa * 2 ^ 53) (Zpos pb)
               = (q, (Zpos pa * 2 ^ 53) mod Zpos pb)).
  { unfold q, Z.div, Z.modulo. destruct (Z.div_eucl _ _). reflexivity. }
  rewrite Eq.
  assert (Hq1 : 2 ^ 52 <= q).
  { unfold q. apply Z.div_le_lower_bound; [lia|].
    apply Z.le_trans with (2 ^ 53 * 2 ^ 52); [nia|].
    rewrite (Z.mul_comm (Zpos pa)). apply Z.mul_le_mono_nonneg_l; lia. }
  assert (Hq2 : q < 2 ^ 54).
  { unfold q. apply Z.div_lt_upper_bound; [lia|].
    apply Z.lt_le_trans with (2 ^ 53 * 2 ^ 53); [nia|].
    change (2 ^ 54) with (2 * 2 ^ 53). nia. }
  assert (Dq : 53 <= Zdigits2 q <= 54).
  { split.
    - apply (Zdigits2_ge q 52); lia.
    - destruct (Z_le_gt_dec (Zdigits2 q) 54) as [|G]; [assumption|exfalso].
      pose proof (Zdigits2_bounds q ltac:(lia)) as [Lq _].
      assert (2 ^ 54 <= 2 ^ (Zdigits2 q - 1)) by (apply Z.pow_le_mono_r; lia). lia. }
  exists q, (da - db - 53), (new_location (Zpos pb) ((Zpos pa * 2 ^ 53) mod Zpos pb)).
  split; [reflexivity|]. split; [lia|]. unfold mag. split; [rewrite fexp64_eq; lia|].
  split; [lia|].
  intros Hab.
  assert (Hq3 : q < 2 ^ (53 + db - da)).
  { unfold q. apply Z.div_lt_upper_bound; [lia|].
    rewrite Pa, Pb.
    assert (E1 : a * 2 ^ (53 - da) * 2 ^ 53 = a * 2 ^ (106 - da)).
    { rewrite <- Z.mul_assoc, <- Z.pow_add_r by lia. do 2 f_equal. lia. }
    assert (E2 : b * 2 ^ (53 - db) * 2 ^ (53 + db - da) = b * 2 ^ (106 - da)).
    { rewrite <- Z.mul_assoc, <- Z.pow_add_r by lia. do 2 f_equal. lia. }
    rewrite E1, E2.
    assert (0 < 2 ^ (106 - da)) by (apply Z.pow_pos_nonneg; lia).
    apply Z.mul_lt_mono_pos_r; lia. }
  destruct (Z_le_gt_dec (Zdigits2 q + (da - db - 53)) 0) as [|G]; [assumption|exfalso].
  pose proof (Zdigits2_bounds q ltac:(lia)) as [Lq _].
  assert (2 ^ (53 + db - da) <= 2 ^ (Zdigits2 q - 1)) by (apply Z.pow_le_mono_r; lia).
  lia.
Qed.

Lemma emin64 : SpecFloat.emin prec emax = -1074.
Proof. reflexivity. Qed.

(** The quotient of two positive whole numbers is a finite number that is not
    negative, and at most 1 when the dividend is the smaller. *)
Lemma Z2F_div_bounds (a b : Z) :
  0 < a < 2 ^ 53 -> 0 < b < 2 ^ 53 ->
  is_nan (PrimFloat.div (Z2F a) (Z2F b)) = false
  /\ (forall s, Prim2SF (PrimFloat.div (Z2F a) (Z2F b)) <> S754_infinity s)
  /\ 0 < Fval (PrimFloat.div (Z2F a) (Z2F b))
  /\ (a < b -> Fval (PrimFloat.div (Z2F a) (Z2F b)) <= 2 ^ 1074).
Proof.
  intros Ha Hb. unfold Fval. rewrite is_nan_SFnan, div_spec.
  rewrite !Prim2SF_Z2F_pos by assumption. unfold SF64div.
  destruct (SFdiv_int a b Ha Hb) as (q & e' & l & -> & Hq & He & [HM' HM] & Hlt).
  pose proof (binary_round_aux_rounded prec emax prec64_pos emax64_ge2 false q e' l Hq He)
    as R.
  assert (Hemin : -1074 <= SpecFloat.emin prec emax) by (rewrite emin64; lia).
  pose proof (rounded_val_le prec emax false _ 54 _ Hemin R HM ltac:(reflexivity))
    as [S B].
  assert (P : 0 < 2 ^ 1074) by (apply Z.pow_pos_nonneg; lia).
  destruct (binary_round_aux prec emax false q e' l) as [s|s| |s m e] eqn:E;
    try contradiction; cbn in S; injection S as ->.
  - exfalso. inversion R as [Hz| |]. rewrite fexp64_eq in Hz. lia.
  - split; [reflexivity|]. split; [discriminate|].
    cbn [SFval]. destruct B as [B1 B2].
    assert (0 < 2 ^ (e + 1074)) by (apply Z.pow_pos_nonneg; lia).
    split; [nia|]. intros Hab.
    pose proof (rounded_val_le prec emax false _ 0 _ Hemin R (Hlt Hab) ltac:(reflexivity))
      as [_ [_ B0]].
    exact B0.
Qed.

(* ================================================================== *)
(** ** generateNoise: determinism and the pink formula *)
(* ================================================================== *)

Local Open Scope float_scope.

(** C1. Once a seed is supplied, the result of [generateNoise] (the sample
    sequence, element for element, or the error) is a function of the noise
    type, the duration, the sample rate and the seed alone: two invocations
    agree whatever [Math.random] would have returned to each of them. *)
Theorem generateNoise_deterministic :
  forall (entropy1 entropy2 : float) (type : string)
         (duration sampleRate seed : float),
    generateNoise entropy1 type duration sampleRate (Some seed)
    = generateNoise entropy2 type duration sampleRate (Some seed).
Proof. reflexivity. Qed.

(** Subtraction is addition of the opposite, and the opposite of a factor is
    the opposite of the product: the sixth pole [-0.7616 * b5 - white * 0.0168980]
    is the pole pair (-0.7616 / -0.0168980). *)
Lemma SFsub_add_opp (x y : spec_float) :
  SFsub prec emax x y = SFadd prec emax x (SFopp y).
Proof.
  destruct x as [[|]|[|]| |sx mx ex], y as [[|]|[|]| |sy my ey]; try reflexivity.
  cbn [SFsub SFadd SFopp]. cbv zeta. f_equal.
  rewrite <- Z.add_opp_r. f_equal. destruct sy; reflexivity.
Qed.

Lemma binary_round_aux_opp (p e : Z) (s : bool) (mx ex : Z) (lx : location) :
  binary_round_aux p e (negb s) mx ex lx = SFopp (binary_round_aux p e s mx ex lx).
Proof.
  rewrite !binary_round_aux_unfold. cbv zeta.
  match goal with |- context [match ?m with Z0 => _ | Zpos _ => _ | Zneg _ => _ end] =>
    destruct m end; try reflexivity.
  match goal with |- context [if ?b then _ else _] => destruct b end; reflexivity.
Qed.

Lemma SFmul_opp_r (x y : spec_float) :
  SFmul prec emax x (SFopp y) = SFopp (SFmul prec emax x y).
Proof.
  destruct x as [sx|sx| |sx mx ex], y as [sy|sy| |sy my ey]; cbn [SFmul SFopp];
    rewrite <- ?negb_xorb_r; try reflexivity.
  apply binary_round_aux_opp.
Qed.

Lemma sub_mul_opp (x w c : float) : x - w * c = x + w * (- c).
Proof.
  apply Prim2SF_inj.
  rewrite sub_spec, add_spec, !mul_spec, opp_spec.
  unfold SF64sub, SF64add, SF64mul. rewrite SFmul_opp_r. apply SFsub_add_opp.
Qed.

Lemma pole_step (a c : float) (rng : SeededRandom) (i : nat) :
  pole a c rng i = a * pole_before a c rng i + white_at rng i * c.
Proof. destruct i; reflexivity. Qed.

Lemma pink_step_state (rng : SeededRandom) (i : nat) :
  pink_step (pink_state rng i) (white_at rng i)
  = ((pole_sum rng i + white_at rng i * 0.5362) * 0.11, pink_state rng (S i)).
Proof.
  unfold pink_step, pink_state, pole_sum. cbn [b0 b1 b2 b3 b4 b5 b6 pole_before b6_at].
  rewrite (sub_mul_opp (-0.7616 * _) (white_at rng i) 0.0168980).
  change (- 0.0168980) with (-0.0168980).
  rewrite <- !pole_step. reflexivity.
Qed.

Lemma pink_loop_from (n k : nat) (rng : SeededRandom) :
  pink_loop n (rng_after k rng) (pink_state rng k)
  = map (pink_sample rng) (seq k n).
Proof.
  revert k. induction n as [|n IH]; intros k; [reflexivity|].
  cbn [pink_loop seq map].
  destruct (random (rng_after k rng)) as [u rng'] eqn:E.
  assert (Hu : u * 2 - 1 = white_at rng k) by (unfold white_at; rewrite E; reflexivity).
  assert (Hr : rng' = rng_after (S k) rng) by (cbn [rng_after]; rewrite E; reflexivity).
  rewrite Hu, pink_step_state, Hr, IH. reflexivity.
Qed.

(** C3 (as amended). For every seed, duration and sample rate, sample [i] of
    [generateNoise('pink', ...)] is
    [(b0 + b1 + b2 + b3 + b4 + b5 + b6 + white * 0.5362) * 0.11], stored in
    single precision: the six poles start at 0 and are updated with the
    coefficients of the specification on the current white draw, [b6] is the
    previous iteration's [white * 0.115926], and the current white draw enters
    the sum directly with weight 0.5362. *)
Theorem generateNoise_pink_formula :
  forall (entropy duration sampleRate seed : float),
    generateNoise entropy "pink" duration sampleRate (Some seed)
    = match ToIndex (Math_floor (duration * sampleRate)) with
      | None => inl RangeError
      | Some n => inr (map (pink_sample seed) (seq 0 n))
      end.
Proof.
  intros entropy duration sampleRate seed. unfold generateNoise.
  destruct (ToIndex (Math_floor (duration * sampleRate))) as [n|]; [|reflexivity].
  cbn [String.eqb Ascii.eqb Bool.eqb new_SeededRandom]. f_equal.
  apply (pink_loop_from n 0 seed).
Qed.

(** C3 as stated fails: with seed 1, one second at 1 Hz, the single sample
    returned is not [(b0 + ... + b6) * 0.11] (in single precision or not), but
    the value that includes [white * 0.5362]. *)
Lemma pink_formula_counterexample :
  generateNoise 0 "pink" 1 1 (Some 1) = inr [0.0050262506119906902]
  /\ pink_sample 1 0 = 0.0050262506119906902
  /\ pink_as_stated 1 0 = 0.0033900805283337831
  /\ pole_sum 1 0 * 0.11 = 0.0033900806168149175.
Proof. repeat split; vm_compute; reflexivity. Qed.

(* ================================================================== *)
(** ** wavWriter: PCM conversion and stereo expansion *)
(* ================================================================== *)

Local Open Scope float_scope.

Lemma Math_clamp (x : float) : Math_max (-1) (Math_min 1 x) = clamp x.
Proof.
  unfold clamp. destruct (is_nan x) eqn:N.
  - rewrite (Prim2SF_nan x N). reflexivity.
  - assert (Hmin : Math_min 1 x = if 1 <? x then 1 else x).
    { unfold Math_min. rewrite N. change (is_nan 1) with false. cbn [orb].
      change (is_neg_zero 1) with false. destruct (1 <? x), (x <? 1); reflexivity. }
    rewrite Hmin.
    pose proof Fval_one as V1. pose proof Fval_minus_one as Vm.
    assert (P : (0 < 2 ^ 1074)%Z) by (apply Z.pow_pos_nonneg; lia).
    rewrite (ltb_val x (-1)), (ltb_val 1 x) by (assumption || reflexivity).
    rewrite V1, Vm.
    destruct (Z.ltb_spec (2 ^ 1074) (Fval x)) as [H1|H1].
    + destruct (Z.ltb_spec (Fval x) (- 2 ^ 1074)) as [H2|H2]; [lia|]. reflexivity.
    + unfold Math_max. rewrite N. change (is_nan (-1)) with false. cbn [orb].
      change (is_neg_zero (-1)) with false.
      rewrite (ltb_val (-1) x), (ltb_val x (-1)) by (assumption || reflexivity).
      rewrite Vm.
      destruct (Z.ltb_spec (- 2 ^ 1074) (Fval x)) as [H3|H3].
      * destruct (Z.ltb_spec (Fval x) (- 2 ^ 1074)) as [H2|H2]; [lia|]. reflexivity.
      * destruct (Z.ltb_spec (Fval x) (- 2 ^ 1074)) as [H2|H2]; [reflexivity|].
        symmetry. apply Fval_inj; try assumption; try reflexivity; lia.
Qed.

Lemma ToInt32_low_byte (x : float) :
  ToUint8 (bitand x 0xFF) = (truncZ x mod 256)%Z.
Proof.
  unfold ToUint8, bitand, ToInt32. change 0xFF%Z with (Z.ones 8).
  rewrite Z.land_ones by lia. change (2 ^ 8)%Z with 256%Z.
  rewrite Z.mod_mod by lia.
  destruct (2 ^ 31 <=? truncZ x mod 2 ^ 32)%Z;
    change (2 ^ 32)%Z with 4294967296%Z; Z.to_euclidean_division_equations; lia.
Qed.

Lemma ToInt32_high_byte (x : float) :
  ToUint8 (Z.land (Z.shiftr (ToInt32 x) 8) 0xFF) = ((truncZ x / 256) mod 256)%Z.
Proof.
  unfold ToUint8, ToInt32. change 0xFF%Z with (Z.ones 8).
  rewrite Z.land_ones by lia. rewrite Z.shiftr_div_pow2 by lia.
  change (2 ^ 8)%Z with 256%Z. rewrite Z.mod_mod by lia.
  destruct (2 ^ 31 <=? truncZ x mod 2 ^ 32)%Z;
    change (2 ^ 32)%Z with 4294967296%Z; Z.to_euclidean_division_equations; lia.
Qed.

Lemma sample_bytes_pcm16 (x : float) :
  sample_bytes x = [ (pcm16 x mod 256)%Z; ((pcm16 x / 256) mod 256)%Z ].
Proof.
  unfold sample_bytes, pcm16. cbv zeta. rewrite Math_clamp.
  rewrite ToInt32_low_byte, ToInt32_high_byte. reflexivity.
Qed.

Lemma flat_map_pair_length {A B : Type} (f : A -> list B) (l : list A) :
  (forall x, List.length (f x) = 2%nat) ->
  List.length (flat_map f l) = (2 * List.length l)%nat.
Proof.
  intros H. induction l as [|a l IH]; [reflexivity|].
  cbn [flat_map]. rewrite length_app, H, IH. cbn [List.length]. lia.
Qed.

(** C7. [float32ToPCM] emits exactly two bytes per sample, in buffer order,
    low byte first: the 16-bit two's complement pattern of the sample clamped to
    [-1, 1], scaled by 32768 when negative and by 32767 otherwise, and truncated.
    The bytes do not depend on the [channels] argument. *)
Theorem float32ToPCM_spec :
  forall (buffer : list float) (channels : float),
    List.length (float32ToPCM buffer channels) = (2 * List.length buffer)%nat
    /\ float32ToPCM buffer channels
       = flat_map (fun x => [ (pcm16 x mod 256)%Z; ((pcm16 x / 256) mod 256)%Z ]) buffer
    /\ (forall x, (pcm16 x mod 256 + 256 * ((pcm16 x / 256) mod 256)
                   = pcm16 x mod 65536)%Z)
    /\ (forall channels', float32ToPCM buffer channels' = float32ToPCM buffer channels).
Proof.
  intros buffer channels. repeat split.
  - apply flat_map_pair_length. reflexivity.
  - unfold float32ToPCM. induction buffer as [|x l IH]; [reflexivity|].
    cbn [flat_map]. rewrite IH, sample_bytes_pcm16. reflexivity.
  - intros x. Z.to_euclidean_division_equations. lia.
Qed.

Lemma flat_map_pair_nth {A B : Type} (f g : A -> B) (l : list A) (i : nat) (da : A) (db : B) :
  (i < List.length l)%nat ->
  nth (2 * i) (flat_map (fun x => [f x; g x]) l) db = f (nth i l da)
  /\ nth (2 * i + 1) (flat_map (fun x => [f x; g x]) l) db = g (nth i l da).
Proof.
  revert i. induction l as [|a l IH]; intros i Hi; [cbn in Hi; lia|].
  destruct i as [|i].
  - split; reflexivity.
  - cbn [List.length] in Hi. specialize (IH i ltac:(lia)).
    replace (2 * S i)%nat with (S (S (2 * i))) by lia.
    replace (S (S (2 * i)) + 1)%nat with (S (S (2 * i + 1))) by lia.
    exact IH.
Qed.




(* ================================================================== *)
(** ** generateNoise: buffer length and failures *)
(* ================================================================== *)

Local Open Scope float_scope.

(** The shape of a number that compares with zero. *)
Lemma ltb_zero_l (x : float) :
  (0 <? x) = true -> SFsign (Prim2SF x) = Some false /\ SFval (Prim2SF x) <> 0%Z.
Proof.
  rewrite ltb_spec. change (Prim2SF 0) with (S754_zero false).
  pose proof (Prim2SF_valid x) as V.
  destruct (Prim2SF x) as [s|[|]| |[|] m e]; cbn [SFltb SFcompare SFsign SFval];
    try discriminate; intros _; (split; [reflexivity|]).
  - unfold huge. apply Z.pow_nonzero; lia.
  - pose proof (finite_val_bounds _ _ _ V). lia.
Qed.

Lemma ltb_zero_r (x : float) :
  (x <? 0) = true ->
  Prim2SF x = S754_infinity true \/ exists m e, Prim2SF x = S754_finite true m e.
Proof.
  rewrite ltb_spec. change (Prim2SF 0) with (S754_zero false).
  destruct (Prim2SF x) as [s|[|]| |[|] m e]; cbn [SFltb SFcompare];
    try discriminate; intros _; [left; reflexivity|right; eauto].
Qed.

Lemma eqb_zero (x : float) :
  (x =? 0) = true -> exists s, Prim2SF x = S754_zero s.
Proof.
  rewrite eqb_spec. change (Prim2SF 0) with (S754_zero false).
  destruct (Prim2SF x) as [s|[|]| |[|] m e]; cbn [SFeqb SFcompare];
    try discriminate; eauto.
Qed.

(** [Math.floor] on each kind of number. *)
Lemma Math_floor_not_finite (x : float) :
  (forall s m e, Prim2SF x <> S754_finite s m e) -> Math_floor x = x.
Proof.
  intros H. unfold Math_floor. destruct (Prim2SF x) eqn:E; try reflexivity.
  exfalso. eapply H. reflexivity.
Qed.

Lemma floor_quotient_bounds (s : bool) (m : positive) (e : Z) :
  valid_binary (S754_finite s m e) = true -> (e < 0)%Z ->
  (0 <= Zpos m / 2 ^ (- e) < 2 ^ 52)%Z.
Proof.
  intros V He. destruct (valid_finite_bounds s m e V) as [Hm _].
  assert (2 <= 2 ^ (- e))%Z.
  { change 2%Z with (2 ^ 1)%Z at 1. apply Z.pow_le_mono_r; lia. }
  split.
  - apply Z.div_pos; lia.
  - apply Z.div_lt_upper_bound; [lia|].
    change (2 ^ 53)%Z with (2 * 2 ^ 52)%Z in Hm. nia.
Qed.

Lemma ToIndex_Z2F (q : Z) :
  (0 <= q < 2 ^ 53)%Z -> ToIndex (Z2F q) = Some (Z.to_nat q).
Proof.
  intros H. unfold ToIndex. destruct (Z.eq_dec q 0) as [->|N]; [reflexivity|].
  rewrite Prim2SF_Z2F_pos by lia. unfold SFint at 1. fold (SFint false q).
  rewrite SFtrunc_SFint by lia.
  destruct (Z.leb_spec 0 q), (Z.leb_spec q (2 ^ 53 - 1)); try lia. reflexivity.
Qed.

Lemma ToIndex_Z2F_neg (q : Z) :
  (0 < q < 2 ^ 53)%Z -> ToIndex (Z2F (- q)) = None.
Proof.
  intros H. unfold ToIndex.
  rewrite Prim2SF_Z2F_neg by lia. unfold SFint at 1. fold (SFint true q).
  rewrite SFtrunc_SFint by lia.
  destruct (Z.leb_spec 0 (- q)); try lia. reflexivity.
Qed.

(** A negative length is refused. *)
Lemma ToIndex_floor_negative (x : float) :
  (x <? 0) = true -> ToIndex (Math_floor x) = None.
Proof.
  intros H. pose proof (Prim2SF_valid x) as V.
  destruct (ltb_zero_r x H) as [E|(m & e & E)].
  - rewrite Math_floor_not_finite by (rewrite E; discriminate).
    unfold ToIndex. rewrite E. reflexivity.
  - rewrite E in V. unfold Math_floor. rewrite E.
    assert (P : (0 < 2 ^ (- e))%Z \/ (e > 0)%Z).
    { destruct (Z_le_gt_dec e 0); [left; apply Z.pow_pos_nonneg; lia|right; assumption]. }
    destruct (Z.leb_spec 0 e) as [He|He].
    + unfold ToIndex. rewrite E. cbn [SFtrunc].
      destruct (Z.leb_spec 0 e); [|lia].
      assert (0 < Zpos m * 2 ^ e)%Z
        by (apply Z.mul_pos_pos; [lia|apply Z.pow_pos_nonneg; lia]).
      destruct (Z.leb_spec 0 (- (Zpos m * 2 ^ e))); [lia|reflexivity].
    + pose proof (floor_quotient_bounds _ _ _ V He) as Q.
      destruct (Z.eqb_spec (Zpos m mod 2 ^ (- e)) 0) as [R|R].
      * unfold ToIndex. rewrite E. cbn [SFtrunc].
        destruct (Z.leb_spec 0 e); [lia|].
        assert (0 < Zpos m / 2 ^ (- e))%Z.
        { assert (0 < 2 ^ (- e))%Z by (apply Z.pow_pos_nonneg; lia).
          Z.to_euclidean_division_equations. nia. }
        destruct (Z.leb_spec 0 (- (Zpos m / 2 ^ (- e)))); [lia|reflexivity].
      * apply ToIndex_Z2F_neg. lia.
Qed.

(** A zero factor gives the empty buffer. *)
Lemma SFmul_zero_l (s : bool) (y : spec_float) :
  (exists s', SFmul prec emax (S754_zero s) y = S754_zero s')
  \/ SFmul prec emax (S754_zero s) y = S754_nan.
Proof. destruct y; cbn; eauto. Qed.

Lemma ToIndex_zero_or_nan (x : float) :
  (exists s, Prim2SF x = S754_zero s) \/ Prim2SF x = S754_nan ->
  ToIndex (Math_floor x) = Some O.
Proof.
  intros H. rewrite Math_floor_not_finite.
  - unfold ToIndex. destruct H as [[s ->]| ->]; reflexivity.
  - destruct H as [[s ->]| ->]; discriminate.
Qed.

Lemma ToIndex_floor_zero_l (d r : float) :
  (d =? 0) = true -> ToIndex (Math_floor (d * r)) = Some O.
Proof.
  intros H. destruct (eqb_zero d H) as [s E]. apply ToIndex_zero_or_nan.
  rewrite mul_spec, E. apply SFmul_zero_l.
Qed.

Lemma ToIndex_floor_zero_r (d r : float) :
  (r =? 0) = true -> ToIndex (Math_floor (d * r)) = Some O.
Proof. intros H. rewrite mul_comm. apply ToIndex_floor_zero_l. assumption. Qed.

(** The product of two positive numbers is not negative. *)
Lemma mul_pos_sign (d r : float) :
  (0 <? d) = true -> (0 <? r) = true -> SFsign (Prim2SF (d * r)) = Some false.
Proof.
  intros Hd Hr. destruct (ltb_zero_l d Hd) as [Sd Vd]. destruct (ltb_zero_l r Hr) as [Sr Vr].
  rewrite mul_spec.
  destruct (SFmul_sign _ _ _ _ Sd Sr) as [N|S]; [|exact S].
  exfalso. unfold SF64mul in *.
  destruct (Prim2SF d) as [sd|sd| |sd md ed], (Prim2SF r) as [sr|sr| |sr mr er];
    cbn in *; try discriminate; try lia.
  pose proof (binary_round_aux_sign prec emax (xorb sd sr) (Zpos (md * mr)) (ed + er)
                loc_Exact ltac:(lia)) as B.
  rewrite N in B. discriminate.
Qed.

Lemma ToIndex_truncZ (x : float) (n : nat) :
  ToIndex x = Some n -> Z.of_nat n = truncZ x.
Proof.
  unfold ToIndex, truncZ. destruct (Prim2SF x) as [s|s| |s m e]; try discriminate;
    match goal with |- context [if ?c then _ else _] => destruct c eqn:C end;
    try discriminate; intros [= <-];
    apply andb_true_iff in C; destruct C as [C _]; apply Z.leb_le in C;
    first [reflexivity | apply Z2Nat.id; assumption].
Qed.

(** A non-negative length up to 2^53 - 1 is accepted. *)
Lemma ToIndex_floor_accepts (x : float) :
  SFsign (Prim2SF x) = Some false ->
  (Math_floor x <=? 9007199254740991) = true ->
  exists n, ToIndex (Math_floor x) = Some n.
Proof.
  intros S L. pose proof (Prim2SF_valid x) as V.
  destruct (Prim2SF x) as [s|s| |s m e] eqn:E; cbn in S; try discriminate;
    injection S as ->.
  - exists O. apply ToIndex_zero_or_nan. left. eauto.
  - exfalso. rewrite Math_floor_not_finite in L by (rewrite E; discriminate).
    rewrite leb_spec, E in L. discriminate.
  - unfold Math_floor in *. rewrite E in *.
    destruct (Z.leb_spec 0 e) as [He|He].
    + rewrite leb_val in L by (rewrite is_nan_SFnan; try rewrite E; reflexivity).
      apply Z.leb_le in L. unfold Fval in L. rewrite E in L. cbn [SFval] in L.
      change 9007199254740991 with (Z2F (2 ^ 53 - 1)) in L.
      change (SFval (Prim2SF (Z2F (2 ^ 53 - 1)))) with (Fval (Z2F (2 ^ 53 - 1))) in L.
      rewrite Fval_Z2F in L by lia.
      rewrite Z.pow_add_r, Z.mul_assoc in L by lia.
      assert (P : (0 < 2 ^ 1074)%Z) by (apply Z.pow_pos_nonneg; lia).
      assert (B : (Zpos m * 2 ^ e <= 2 ^ 53 - 1)%Z) by nia.
      assert (P' : (0 < 2 ^ e)%Z) by (apply Z.pow_pos_nonneg; lia).
      exists (Z.to_nat (Zpos m * 2 ^ e)). unfold ToIndex. rewrite E. cbn [SFtrunc].
      destruct (Z.leb_spec 0 e); [|lia].
      destruct (Z.leb_spec 0 (Zpos m * 2 ^ e)); [|nia].
      destruct (Z.leb_spec (Zpos m * 2 ^ e) (2 ^ 53 - 1)); [|lia]. reflexivity.
    + pose proof (floor_quotient_bounds _ _ _ V He) as Q.
      eexists. apply ToIndex_Z2F. lia.
Qed.

Lemma white_loop_length (n : nat) (rng : SeededRandom) :
  List.length (white_loop n rng) = n.
Proof.
  revert rng. induction n as [|n IH]; intros rng; [reflexivity|].
  cbn [white_loop]. destruct (random rng). cbn [List.length]. now rewrite IH.
Qed.

Lemma brown_loop_length (n : nat) (rng : SeededRandom) (lastOut : float) :
  List.length (brown_loop n rng lastOut) = n.
Proof.
  revert rng lastOut. induction n as [|n IH]; intros rng lastOut; [reflexivity|].
  cbn [brown_loop]. destruct (random rng). cbn [List.length]. now rewrite IH.
Qed.

Lemma pink_loop_length (n : nat) (rng : SeededRandom) (st : PinkState) :
  List.length (pink_loop n rng st) = n.
Proof.
  revert rng st. induction n as [|n IH]; intros rng st; [reflexivity|].
  cbn [pink_loop]. destruct (random rng). destruct (pink_step st _).
  cbn [List.length]. now rewrite IH.
Qed.

(** What [generateNoise] does once the length is known. *)
Lemma generateNoise_cases (entropy : float) (type : string)
    (duration sampleRate : float) (seed : option float) :
  match ToIndex (Math_floor (duration * sampleRate)) with
  | None => generateNoise entropy type duration sampleRate seed = inl RangeError
  | Some n =>
      (recognized type ->
       exists samples,
         generateNoise entropy type duration sampleRate seed = inr samples
         /\ List.length samples = n)
      /\ (~ recognized type ->
          generateNoise entropy type duration sampleRate seed
          = inl (UnknownNoiseType type))
  end.
Proof.
  unfold generateNoise, recognized.
  destruct (ToIndex (Math_floor (duration * sampleRate))) as [n|]; [|reflexivity].
  destruct (String.eqb_spec type "white") as [W|W];
    [|destruct (String.eqb_spec type "brown") as [B|B];
      [|destruct (String.eqb_spec type "pink") as [P|P]]].
  - split; [intros _|tauto]. eexists. split; [reflexivity|apply white_loop_length].
  - split; [intros _|tauto]. eexists. split; [reflexivity|apply brown_loop_length].
  - split; [intros _|tauto]. eexists. split; [reflexivity|apply pink_loop_length].
  - split; [intros [?|[?|?]]; contradiction|reflexivity].
Qed.



(* ================================================================== *)
(** ** SeededRandom *)
(* ================================================================== *)

Local Open Scope float_scope.

Lemma bitand_mask31 (x : float) :
  bitand x 0x7fffffff = (truncZ x mod 2 ^ 31)%Z.
Proof.
  unfold bitand, ToInt32. change 0x7fffffff%Z with (Z.ones 31).
  rewrite Z.land_ones by lia.
  destruct (2 ^ 31 <=? truncZ x mod 2 ^ 32)%Z;
    change (2 ^ 32)%Z with 4294967296%Z; change (2 ^ 31)%Z with 2147483648%Z;
    Z.to_euclidean_division_equations; lia.
Qed.

(** A state divided by 2^31 - 1 lies in [0, 1]. *)
Lemma state_quotient_range (n : Z) :
  (0 <= n <= 2 ^ 31 - 1)%Z ->
  (0 <=? Z2F n / 2147483647) = true /\ (Z2F n / 2147483647 <=? 1) = true.
Proof.
  intros H.
  destruct (Z.eq_dec n 0) as [->|N0]; [split; reflexivity|].
  destruct (Z.eq_dec n (2 ^ 31 - 1)) as [->|N1]; [split; reflexivity|].
  change 2147483647 with (Z2F (2 ^ 31 - 1)).
  destruct (Z2F_div_bounds n (2 ^ 31 - 1)%Z) as (Nn & _ & Lo & Hi);
    [lia|split; [lia|reflexivity]|].
  specialize (Hi ltac:(lia)).
  rewrite !leb_val by (assumption || reflexivity).
  rewrite Fval_zero, Fval_one. split; apply Z.leb_le; lia.
Qed.



(* ================================================================== *)
(** ** writeWav: the container header *)
(* ================================================================== *)

Local Open Scope float_scope.

Lemma writeUIntLE_ok (width : nat) (buf : list Z) (k : Z) (offset : nat) :
  (Z.of_nat width <= 4)%Z -> (0 <= k <= 2 ^ (8 * Z.of_nat width) - 1)%Z ->
  writeUIntLE width buf (Z2F k) offset = inr (splice buf offset (le_bytes width k)).
Proof.
  intros Hw Hk. unfold writeUIntLE.
  assert (B : (2 ^ (8 * Z.of_nat width) <= 2 ^ 32)%Z) by (apply Z.pow_le_mono_r; lia).
  assert (P : (0 < 2 ^ (8 * Z.of_nat width))%Z) by (apply Z.pow_pos_nonneg; lia).
  change (2 ^ 32)%Z with 4294967296%Z in B.
  assert (T : (2 ^ 53 = 9007199254740992)%Z) by reflexivity.
  change 0 with (Z2F 0).
  rewrite !Z2F_ltb by lia. rewrite truncZ_Z2F by lia.
  destruct (Z.ltb_spec (2 ^ (8 * Z.of_nat width) - 1) k); [lia|].
  destruct (Z.ltb_spec k 0); [lia|]. reflexivity.
Qed.

Lemma le_decode_le_bytes4 (k : Z) :
  (0 <= k < 2 ^ 32)%Z -> le_decode (le_bytes 4 k) = k.
Proof.
  intros H. cbn [le_bytes map seq le_decode Z.of_nat Pos.of_succ_nat Pos.succ].
  change (2 ^ 32)%Z with 4294967296%Z in H.
  change (2 ^ (8 * 0))%Z with 1%Z. change (2 ^ (8 * 1))%Z with 256%Z.
  change (2 ^ (8 * 2))%Z with 65536%Z. change (2 ^ (8 * 3))%Z with 16777216%Z.
  Z.to_euclidean_division_equations. lia.
Qed.

Lemma le_decode_le_bytes2 (k : Z) :
  (0 <= k < 2 ^ 16)%Z -> le_decode (le_bytes 2 k) = k.
Proof.
  intros H. cbn [le_bytes map seq le_decode Z.of_nat Pos.of_succ_nat Pos.succ].
  change (2 ^ 16)%Z with 65536%Z in H.
  change (2 ^ (8 * 0))%Z with 1%Z. change (2 ^ (8 * 1))%Z with 256%Z.
  Z.to_euclidean_division_equations. lia.
Qed.

(** The bytes written for [N] mono samples at an integer rate [R]. *)
Lemma wav_bytes_layout (data : list float) (R : Z) :
  (0 <= R)%Z -> (2 * R <= 2 ^ 32 - 1)%Z ->
  (2 * Z.of_nat (List.length data) + 36 <= 2 ^ 32 - 1)%Z ->
  wav_bytes data (Z2F R) 1
  = inr ([82; 73; 70; 70]%Z
         ++ le_bytes 4 (2 * Z.of_nat (List.length data) + 36)
         ++ [87; 65; 86; 69; 102; 109; 116; 32]%Z
         ++ le_bytes 4 16 ++ le_bytes 2 1 ++ le_bytes 2 1
         ++ le_bytes 4 R ++ le_bytes 4 (2 * R) ++ le_bytes 2 2 ++ le_bytes 2 16
         ++ [100; 97; 116; 97]%Z
         ++ le_bytes 4 (2 * Z.of_nat (List.length data))
         ++ float32ToPCM data 1).
Proof.
  intros HR HR2 HN. unfold wav_bytes. cbv zeta.
  pose proof (proj1 (float32ToPCM_spec data 1)) as L.
  set (pcm := float32ToPCM data 1) in *.
  assert (LZ : Z.of_nat (List.length pcm) = (2 * Z.of_nat (List.length data))%Z)
    by (rewrite L; lia).
  rewrite LZ. change (2 ^ 32)%Z with 4294967296%Z in *.
  assert (P16 : (2 ^ 16 = 65536)%Z) by reflexivity.
  assert (P32 : (2 ^ 32 = 4294967296)%Z) by reflexivity.
  change (1 * 2) with (Z2F 2). change 16 with (Z2F 16). change 1 with (Z2F 1).
  rewrite Z2F_mul by lia.
  unfold writeUInt32LE, writeUInt16LE.
  rewrite (writeUIntLE_ok 4) by (change (8 * Z.of_nat 4)%Z with 32%Z; lia). cbn [bind].
  rewrite (writeUIntLE_ok 4) by (change (8 * Z.of_nat 4)%Z with 32%Z; lia). cbn [bind].
  rewrite (writeUIntLE_ok 2) by (change (8 * Z.of_nat 2)%Z with 16%Z; lia). cbn [bind].
  rewrite (writeUIntLE_ok 2) by (change (8 * Z.of_nat 2)%Z with 16%Z; lia). cbn [bind].
  rewrite (writeUIntLE_ok 4) by (change (8 * Z.of_nat 4)%Z with 32%Z; lia). cbn [bind].
  rewrite (writeUIntLE_ok 4) by (change (8 * Z.of_nat 4)%Z with 32%Z; lia). cbn [bind].
  rewrite (writeUIntLE_ok 2) by (change (8 * Z.of_nat 2)%Z with 16%Z; lia). cbn [bind].
  rewrite (writeUIntLE_ok 2) by (change (8 * Z.of_nat 2)%Z with 16%Z; lia). cbn [bind].
  rewrite (writeUIntLE_ok 4) by (change (8 * Z.of_nat 4)%Z with 32%Z; lia). cbn [bind].
  replace (2 * Z.of_nat (List.length data) + 44 - 8)%Z
    with (2 * Z.of_nat (List.length data) + 36)%Z by lia.
  replace (R * 2)%Z with (2 * R)%Z by lia.
  reflexivity.
Qed.

(** C6. For a buffer of [N] mono samples written with [channels = 1] at the
    integer sample rate [R] (the sizes and rates fitting their 32-bit fields),
    [writeWav] stores at [outPath] a container of [44 + 2N] bytes whose RIFF
    size field at offset 4 is [36 + 2N], whose fmt chunk records format tag 1,
    1 channel, sample rate [R], byte rate [2R], block align 2 and 16 bits per
    sample, whose data size field is [2N], and whose PCM payload follows the
    44-byte header immediately. *)
Theorem writeWav_header :
  forall (fs : FileSystem) (data : list float) (R : Z) (outPath : string),
    (0 <= R)%Z -> (2 * R <= 2 ^ 32 - 1)%Z ->
    (2 * Z.of_nat (List.length data) + 36 <= 2 ^ 32 - 1)%Z ->
    exists (fs' : FileSystem) (wav : list Z),
      writeWav fs data (Z2F R) outPath 1 = inr fs'
      /\ fs' outPath = Some wav
      /\ List.length wav = (44 + 2 * List.length data)%nat
      /\ tag wav 0 = [82; 73; 70; 70]%Z
      /\ field wav 4 4 = (36 + 2 * Z.of_nat (List.length data))%Z
      /\ tag wav 8 = [87; 65; 86; 69]%Z
      /\ tag wav 12 = [102; 109; 116; 32]%Z
      /\ field wav 16 4 = 16%Z
      /\ field wav 20 2 = 1%Z
      /\ field wav 22 2 = 1%Z
      /\ field wav 24 4 = R
      /\ field wav 28 4 = (2 * R)%Z
      /\ field wav 32 2 = 2%Z
      /\ field wav 34 2 = 16%Z
      /\ tag wav 36 = [100; 97; 116; 97]%Z
      /\ field wav 40 4 = (2 * Z.of_nat (List.length data))%Z
      /\ skipn 44 wav = float32ToPCM data 1.
Proof.
  intros fs data R outPath HR HR2 HN.
  pose proof (wav_bytes_layout data R HR HR2 HN) as W.
  pose proof (proj1 (float32ToPCM_spec data 1)) as L.
  set (pcm := float32ToPCM data 1) in *.
  change (2 ^ 32)%Z with 4294967296%Z in *.
  assert (P16 : (2 ^ 16 = 65536)%Z) by reflexivity.
  assert (P32 : (2 ^ 32 = 4294967296)%Z) by reflexivity.
  eexists. eexists. split; [unfold writeWav; rewrite W; reflexivity|].
  split; [unfold writeFileSync; rewrite String.eqb_refl; reflexivity|].
  pose proof (le_decode_le_bytes4 (2 * Z.of_nat (List.length data) + 36)) as F1.
  pose proof (le_decode_le_bytes4 R) as F2.
  pose proof (le_decode_le_bytes4 (2 * R)) as F3.
  pose proof (le_decode_le_bytes4 (2 * Z.of_nat (List.length data))) as F4.
  cbn [le_bytes map seq] in *.
  split; [cbn [List.length app]; rewrite L; lia|].
  unfold field, tag. cbn [app firstn skipn].
  repeat split; try reflexivity.
  - rewrite F1 by lia. lia.
  - apply F2. lia.
  - apply F3. lia.
  - apply F4. lia.
Qed.

Lemma writeWav_header_witness :
  exists (fs' : FileSystem) (wav : list Z),
    writeWav (fun _ => None) [0.5; -0.5; 1; -1] (Z2F 44100) "out.wav" 1 = inr fs'
    /\ fs' "out.wav"%string = Some wav
    /\ List.length wav = 52%nat
    /\ field wav 4 4 = 44%Z
    /\ field wav 24 4 = 44100%Z
    /\ field wav 28 4 = 88200%Z
    /\ field wav 40 4 = 8%Z
    /\ skipn 44 wav = [255; 63; 0; 192; 255; 127; 0; 128]%Z.
Proof.
  destruct (writeWav_header (fun _ => None) [0.5; -0.5; 1; -1] 44100 "out.wav")
    as (fs' & wav & H); [lia|lia|cbn; lia|].
  exists fs', wav. decompose [and] H. repeat split; assumption.
Defined.

(* ================================================================== *)
(** ** applyEnvelope: the ends of the fades *)
(* ================================================================== *)

Local Open Scope float_scope.

Lemma mapi_from_nth {A B : Type} (f : nat -> A -> B) (l : list A) (k i : nat)
    (da : A) (db : B) :
  (i < List.length l)%nat ->
  nth i (mapi_from f k l) db = f (k + i)%nat (nth i l da).
Proof.
  revert k i. induction l as [|a l IH]; intros k i Hi; [cbn in Hi; lia|].
  destruct i as [|i]; cbn [mapi_from nth].
  - now rewrite Nat.add_0_r.
  - cbn [List.length] in Hi. rewrite (IH (S k) i) by lia. f_equal. lia.
Qed.

Lemma mapi_nth {A B : Type} (f : nat -> A -> B) (l : list A) (i : nat) (da : A) (db : B) :
  (i < List.length l)%nat -> nth i (mapi f l) db = f i (nth i l da).
Proof. intros H. unfold mapi. now rewrite (mapi_from_nth f l 0 i da db H). Qed.

Lemma mapi_from_length {A B : Type} (f : nat -> A -> B) (l : list A) (k : nat) :
  List.length (mapi_from f k l) = List.length l.
Proof.
  revert k. induction l as [|a l IH]; intros k; [reflexivity|].
  cbn [mapi_from List.length]. now rewrite IH.
Qed.

Lemma mapi_length {A B : Type} (f : nat -> A -> B) (l : list A) :
  List.length (mapi f l) = List.length l.
Proof. apply mapi_from_length. Qed.

(** Finite numbers. *)
Lemma is_finite_SF (x : float) :
  is_finite x = true ->
  (exists s, Prim2SF x = S754_zero s) \/ (exists s m e, Prim2SF x = S754_finite s m e).
Proof.
  unfold is_finite, is_infinity. rewrite is_nan_SFnan, eqb_spec, abs_spec.
  change (Prim2SF infinity) with (S754_infinity false).
  destruct (Prim2SF x) as [s|s| |s m e]; cbn; try discriminate; eauto 6.
Qed.

(** A finite number times a zero is a zero. *)
Lemma mul_finite_zero (x g : float) :
  is_finite x = true -> (exists s, Prim2SF g = S754_zero s) ->
  exists s, Prim2SF (x * g) = S754_zero s.
Proof.
  intros Hx [sg Hg]. rewrite mul_spec, Hg.
  destruct (is_finite_SF x Hx) as [[s ->]|(s & m & e & ->)]; cbn; eauto.
Qed.

(** Storing a zero in single precision keeps it a zero. *)
Lemma fround_zero (x : float) :
  (exists s, Prim2SF x = S754_zero s) -> (Math_fround x =? 0) = true.
Proof.
  intros [s E]. unfold Math_fround. rewrite E. destruct s; reflexivity.
Qed.

(** Zero over a positive whole number is zero. *)
Lemma zero_div_Z2F (n : Z) : (0 < n < 2 ^ 53)%Z -> 0 / Z2F n = 0.
Proof.
  intros H. apply Prim2SF_inj. rewrite div_spec, Prim2SF_Z2F_pos by assumption.
  reflexivity.
Qed.

(** Zero times the quotient of two positive whole numbers is zero. *)
Lemma zero_mul_quotient (a b : Z) :
  (0 < a < 2 ^ 53)%Z -> (0 < b < 2 ^ 53)%Z -> 0 * (Z2F a / Z2F b) = 0.
Proof.
  intros Ha Hb. destruct (Z2F_div_bounds a b Ha Hb) as (N & I & P & _).
  apply Prim2SF_inj. rewrite mul_spec. rewrite is_nan_SFnan in N. unfold Fval in P.
  destruct (Prim2SF (Z2F a / Z2F b)) as [s|s| |s m e] eqn:E; try discriminate.
  - exfalso. eapply I. reflexivity.
  - destruct s; [|reflexivity]. cbn [SFval] in P.
    assert (0 <= Zpos m * 2 ^ (e + 1074))%Z
      by (apply Z.mul_nonneg_nonneg; [lia|apply Z.pow_nonneg; lia]).
    lia.
Qed.

(** The gain at the first index, within a fade-in of at least one sample. *)
Lemma envelope_gain_first (len : nat) (n_in n_out : Z) :
  (0 < len)%nat -> (Z.of_nat len < 2 ^ 53)%Z ->
  (1 <= n_in < 2 ^ 53)%Z -> (0 <= n_out < 2 ^ 53)%Z ->
  envelope_gain len (Z2F n_in) (Z2F n_out) 0 = 0.
Proof.
  intros Hl Hl' Hin Hout. unfold envelope_gain. cbv zeta.
  change (Z.of_nat 0) with 0%Z.
  rewrite Z2F_ltb by lia. destruct (Z.ltb_spec 0 n_in) as [_|]; [|lia].
  change (Z2F 0) with 0. rewrite zero_div_Z2F by lia.
  change (1 * 0) with 0. change 0 with (Z2F 0) at 1.
  rewrite Z2F_sub by lia. rewrite Z2F_leb by lia.
  destruct (Z.leb_spec (Z.of_nat len - n_out) 0) as [H|H]; [|reflexivity].
  rewrite Z.sub_0_r. apply zero_mul_quotient; lia.
Qed.

(** The gain at the last index, outside the fade-in, within a fade-out of [n]
    samples: [1/n]. *)
Lemma envelope_gain_last (len : nat) (n_in n_out : Z) :
  (0 < len)%nat -> (Z.of_nat len < 2 ^ 53)%Z ->
  (0 <= n_in <= Z.of_nat len - 1)%Z -> (1 <= n_out < 2 ^ 53)%Z ->
  envelope_gain len (Z2F n_in) (Z2F n_out) (len - 1) = 1 / Z2F n_out.
Proof.
  intros Hl Hl' Hin Hout. unfold envelope_gain. cbv zeta.
  assert (E : Z.of_nat (len - 1) = (Z.of_nat len - 1)%Z) by lia.
  rewrite E. rewrite Z2F_ltb by lia.
  destruct (Z.ltb_spec (Z.of_nat len - 1) n_in) as [|_]; [lia|].
  rewrite Z2F_sub by lia. rewrite Z2F_leb by lia.
  destruct (Z.leb_spec (Z.of_nat len - n_out) (Z.of_nat len - 1)) as [_|]; [|lia].
  replace (Z.of_nat len - (Z.of_nat len - 1))%Z with 1%Z by lia.
  change (Z2F 1) with 1. apply mul_1_l.
Qed.

(** C10 (as amended). For a non-empty buffer and fades of whole numbers of
    samples: when the fade-in spans at least one sample, the first output
    sample of [applyEnvelope] is zero (for a finite first input sample); when
    the fade-out spans [n >= 1] samples and the fade-in does not cover the last
    sample, the last output sample is the last input sample times [1/n], stored
    in single precision, and that gain [1/n] is never zero. *)
Theorem applyEnvelope_endpoints :
  forall (buffer : list float) (fadeInSec fadeOutSec sampleRate : float)
         (n_in n_out : Z),
    buffer <> [] -> (Z.of_nat (List.length buffer) < 2 ^ 53)%Z ->
    Math_floor (fadeInSec * sampleRate) = Z2F n_in -> (0 <= n_in < 2 ^ 53)%Z ->
    Math_floor (fadeOutSec * sampleRate) = Z2F n_out -> (0 <= n_out < 2 ^ 53)%Z ->
    let out := applyEnvelope buffer fadeInSec fadeOutSec sampleRate in
    let last := (List.length buffer - 1)%nat in
    List.length out = List.length buffer
    /\ ((1 <= n_in)%Z -> is_finite (nth 0 buffer 0) = true ->
        (nth 0 out 0 =? 0) = true)
    /\ ((1 <= n_out)%Z -> (n_in <= Z.of_nat last)%Z ->
        nth last out 0 = Math_fround (nth last buffer 0 * (1 / Z2F n_out))
        /\ (1 / Z2F n_out =? 0) = false).
Proof.
  intros buffer fadeInSec fadeOutSec sampleRate n_in n_out Hne Hlen Ein Hin Eout Hout.
  cbv zeta. unfold applyEnvelope. rewrite Ein, Eout.
  assert (Hl : (0 < List.length buffer)%nat)
    by (destruct buffer; [contradiction|cbn; lia]).
  split; [apply mapi_length|]. split.
  - intros H1 Hf. rewrite (mapi_nth _ buffer 0 0 0 Hl).
    rewrite envelope_gain_first by lia.
    apply fround_zero. apply mul_finite_zero; [assumption|]. exists false. reflexivity.
  - intros H1 H2. split.
    + rewrite (mapi_nth _ buffer (List.length buffer - 1) 0 0) by lia.
      rewrite envelope_gain_last by lia. reflexivity.
    + change 1 with (Z2F 1) at 1.
      destruct (Z2F_div_bounds 1 n_out ltac:(lia) ltac:(lia)) as (N & _ & P & _).
      rewrite eqb_spec. unfold Fval in P. rewrite is_nan_SFnan in N.
      change (Prim2SF 0) with (S754_zero false).
      destruct (Prim2SF (Z2F 1 / Z2F n_out)) as [s|s| |s m e];
        cbn in *; try reflexivity; try lia; try discriminate.
      * destruct s; reflexivity.
      * destruct s; reflexivity.
Qed.

Lemma applyEnvelope_endpoints_witness :
  let out := applyEnvelope [1; 0.5; -0.5; 0.25] 1 1 2 in
  List.length out = 4%nat
  /\ (nth 0 out 0 =? 0) = true
  /\ nth 3 out 0 = Math_fround (0.25 * (1 / 2))
  /\ (1 / Z2F 2 =? 0) = false.
Proof.
  assert (B : (0 <= 2 < 2 ^ 53)%Z) by lia.
  destruct (applyEnvelope_endpoints [1; 0.5; -0.5; 0.25] 1 1 2 2 2
              ltac:(discriminate) ltac:(cbn [List.length]; lia)
              ltac:(vm_compute; reflexivity) B ltac:(vm_compute; reflexivity) B)
    as (L & F & G).
  cbv zeta. split; [exact L|]. split; [apply F; [lia|vm_compute; reflexivity]|].
  apply G; cbn [List.length]; lia.
Defined.

(** C10 as stated fails: a non-zero final input sample can yield a zero final
    output sample.  The smallest positive single-precision value, faded out
    over two samples, is multiplied by 1/2 and stored as 0. *)
Lemma applyEnvelope_counterexample :
  Math_fround 0x1p-149 = 0x1p-149
  /\ (0x1p-149 =? 0) = false
  /\ Math_floor (0 * 2) = 0
  /\ Math_floor (1 * 2) = 2
  /\ applyEnvelope [0x1p-149] 0 1 2 = [0].
Proof. repeat split; vm_compute; reflexivity. Qed.

(* ================================================================== *)
(** ** mixAmbientLayers: the soft limiter *)
(* ================================================================== *)

Local Close Scope float_scope.

(** [binary_round] returns one of the shapes of [rounded]. *)
Lemma binary_round_rounded (p emx : Z) (s : bool) (mx : positive) (ex : Z) :
  0 < p -> 2 <= emx ->
  rounded p emx s (mag (Zpos mx) ex) (binary_round p emx s mx ex).
Proof.
  intros Hp He. unfold binary_round, shl_align.
  change (Zpos (digits2_pos mx)) with (Zdigits2 (Zpos mx)).
  fold (mag (Zpos mx) ex). set (e' := SpecFloat.fexp p emx (mag (Zpos mx) ex)).
  destruct (e' - ex) as [|q|q] eqn:E.
  - apply binary_round_aux_rounded; try assumption; [lia|fold e'; lia].
  - apply binary_round_aux_rounded; try assumption; [lia|fold e'; lia].
  - assert (Hm : mag (Zpos (Pos.iter xO mx q)) e' = mag (Zpos mx) ex).
    { unfold mag. rewrite Pos_iter_xO, Zdigits2_mul_pow2 by lia. lia. }
    rewrite <- Hm. apply binary_round_aux_rounded; try assumption; [lia|].
    rewrite Hm. fold e'. lia.
Qed.

(** [SF2Prim] of a finite value with a significand below 2^53 and an exponent
    in range keeps the sign and the value. *)
Lemma ldexp_exact (m : positive) (e : Z) :
  Zpos m < 2 ^ 53 -> -1074 <= e -> mag (Zpos m) e <= 1024 ->
  exists (m' : positive) (e' : Z),
    Prim2SF (Z.ldexp (of_uint63 (Uint63.of_Z (Zpos m))) e) = S754_finite false m' e'
    /\ Zpos m' * 2 ^ (e' + 1074) = Zpos m * 2 ^ (e + 1074).
Proof.
  intros Hm He Hmag. rewrite FloatLemmas.Z_ldexp_spec.
  change (of_uint63 (Uint63.of_Z (Zpos m))) with (Z2F (Zpos m)).
  rewrite Prim2SF_Z2F_pos by lia.
  destruct (SFint_as_scaled false (Zpos m) ltac:(lia)) as (p & Ep & Hp).
  rewrite Ep. cbn [SFldexp].
  pose proof (Zdigits2_bounds (Zpos m) ltac:(lia)) as [Dlo Dhi].
  pose proof (Zdigits2_pos (Zpos m) ltac:(lia)) as Dpos.
  set (d := Zdigits2 (Zpos m)) in *.
  assert (Dle : d <= 53).
  { destruct (Z.le_gt_cases d 53) as [|G]; [assumption|].
    assert (2 ^ 53 <= 2 ^ (d - 1)) by (apply Z.pow_le_mono_r; lia). lia. }
  assert (Hd : Zdigits2 (Zpos p) = 53).
  { rewrite Hp. fold d. rewrite Zdigits2_mul_pow2 by lia. fold d. lia. }
  assert (Hmg : mag (Zpos p) (d - 53 + e) = d + e) by (unfold mag; rewrite Hd; lia).
  unfold mag in Hmag. fold d in Hmag.
  rewrite binary_round_exact; rewrite ?Hmg; fold fexp64; rewrite ?fexp64_eq.
  - destruct (Z.ltb_spec (d - 53 + e) (Z.max (d + e - 53) (-1074))) as [Hlt|Hge].
    + assert (Hlow : d - 53 + e < -1074) by lia.
      replace (Z.max (d + e - 53) (-1074)) with (-1074) in * by lia.
      set (k := -1074 - (d - 53 + e)).
      assert (Hk : 0 < k <= 53 - d) by (unfold k; lia).
      assert (Hq : Zpos p / 2 ^ k = Zpos m * 2 ^ (e + 1074)).
      { rewrite Hp. fold d. replace (53 - d) with ((e + 1074) + k) by (unfold k; lia).
        rewrite Z.pow_add_r by lia. rewrite Z.mul_assoc.
        apply Z.div_mul. apply Z.pow_nonzero; lia. }
      eexists _, _. split; [reflexivity|].
      rewrite Hq. rewrite Z2Pos.id.
      * replace (-1074 + 1074) with 0 by lia. simpl (2 ^ 0). lia.
      * apply Z.mul_pos_pos; [lia|apply Z.pow_pos_nonneg; lia].
    + assert (Hlow : -1074 <= d - 53 + e) by lia.
      replace (Z.max (d + e - 53) (-1074)) with (d - 53 + e) in * by lia.
      rewrite Z.sub_diag. simpl (2 ^ 0). rewrite Z.mul_1_r.
      eexists _, _. split; [reflexivity|].
      rewrite Pos2Z.id, Hp. fold d.
      replace (d - 53 + e + 1074) with ((e + 1074) - (53 - d)) by lia.
      rewrite <- Z.mul_assoc, <- Z.pow_add_r by lia.
      f_equal. f_equal. lia.
  - change (emax - prec) with 971. lia.
  - intros Hlt. assert (Hlow : d - 53 + e < -1074) by lia.
    replace (Z.max (d + e - 53) (-1074)) with (-1074) in * by lia.
    rewrite Hp. fold d.
    replace (53 - d) with ((e + 1074) + (-1074 - (d - 53 + e))) by lia.
    rewrite Z.pow_add_r by lia. rewrite Z.mul_assoc. apply Z.mod_mul.
    apply Z.pow_nonzero; lia.
Qed.

Lemma SF2Prim_finite (s : bool) (m : positive) (e : Z) :
  Zpos m < 2 ^ 53 -> -1074 <= e -> mag (Zpos m) e <= 1024 ->
  is_nan (SF2Prim (S754_finite s m e)) = false
  /\ Fval (SF2Prim (S754_finite s m e)) = SFval (S754_finite s m e).
Proof.
  intros Hm He Hmag. destruct (ldexp_exact m e Hm He Hmag) as (m' & e' & E & V).
  unfold SF2Prim, Fval. rewrite is_nan_SFnan. destruct s.
  - rewrite opp_spec, E. cbn [SFopp SFnan SFval negb]. split; [reflexivity|]. now rewrite V.
  - rewrite E. cbn [SFnan SFval]. split; [reflexivity|]. now rewrite V.
Qed.

Lemma huge_gt : 2 ^ 1074 < huge.
Proof. unfold huge. apply Z.pow_lt_mono_r; lia. Qed.

(** Storing a value of magnitude at most 1 in single precision keeps the
    magnitude at most 1. *)
Lemma fround_bound (t : float) :
  is_nan t = false -> - 2 ^ 1074 <= Fval t <= 2 ^ 1074 ->
  is_nan (Math_fround t) = false
  /\ - 2 ^ 1074 <= Fval (Math_fround t) <= 2 ^ 1074.
Proof.
  intros N B. pose proof huge_gt as HG.
  assert (P1 : 0 < 2 ^ 1074) by (apply Z.pow_pos_nonneg; lia).
  pose proof (Prim2SF_valid t) as V.
  rewrite is_nan_SFnan in N. unfold Fval in B.
  destruct (Prim2SF t) as [s|s| |s m e] eqn:E.
  - unfold Math_fround. rewrite E. cbn [SF32round].
    assert (Z0 : Fval (SF2Prim (S754_zero s)) = 0) by (destruct s; reflexivity).
    rewrite Z0. split; [destruct s; reflexivity|lia].
  - cbn [SFval] in B. destruct s; lia.
  - discriminate.
  - destruct (valid_finite s m e V) as (He & Hr & Hd & _).
    pose proof (Zdigits2_bounds (Zpos m) ltac:(lia)) as [Dlo Dhi].
    pose proof (Zdigits2_pos (Zpos m) ltac:(lia)) as Dpos.
    assert (Bv : Zpos m * 2 ^ (e + 1074) <= 2 ^ 1074) by (cbn [SFval] in B; destruct s; lia).
    assert (Hp : 0 < 2 ^ (e + 1074)) by (apply Z.pow_pos_nonneg; lia).
    assert (HM : mag (Zpos m) e <= 1).
    { unfold mag. destruct (Z.le_gt_cases (Zdigits2 (Zpos m) + e) 1) as [|G]; [assumption|].
      assert (2 ^ (Zdigits2 (Zpos m) - 1) * 2 ^ (e + 1074) <= Zpos m * 2 ^ (e + 1074))
        by (apply Z.mul_le_mono_nonneg_r; lia).
      rewrite <- Z.pow_add_r in H by lia.
      assert (2 ^ 1074 < 2 ^ (Zdigits2 (Zpos m) - 1 + (e + 1074)))
        by (apply Z.pow_lt_mono_r; lia).
      lia. }
    destruct (Z.eq_dec (mag (Zpos m) e) 1) as [M1|M1].
    + (* the value is 1 or -1 *)
      assert (Ev : Zpos m * 2 ^ (e + 1074) = 2 ^ 1074).
      { unfold mag in M1.
        assert (2 ^ (Zdigits2 (Zpos m) - 1) * 2 ^ (e + 1074) <= Zpos m * 2 ^ (e + 1074))
          by (apply Z.mul_le_mono_nonneg_r; lia).
        rewrite <- Z.pow_add_r in H by lia.
        replace (Zdigits2 (Zpos m) - 1 + (e + 1074)) with 1074 in H by lia. lia. }
      assert (Nt : is_nan t = false) by (rewrite is_nan_SFnan, E; reflexivity).
      destruct s.
      * assert (t = (-1)%float) as ->.
        { apply Fval_inj; [assumption|reflexivity| |].
          - rewrite Fval_minus_one. unfold Fval. rewrite E. cbn [SFval]. lia.
          - unfold Fval. rewrite E. cbn [SFval]. lia. }
        change (Math_fround (-1)) with (-1)%float. rewrite Fval_minus_one.
        split; [reflexivity|lia].
      * assert (t = 1%float) as ->.
        { apply Fval_inj; [assumption|reflexivity| |].
          - rewrite Fval_one. unfold Fval. rewrite E. cbn [SFval]. lia.
          - unfold Fval. rewrite E. cbn [SFval]. lia. }
        change (Math_fround 1) with 1%float. rewrite Fval_one.
        split; [reflexivity|lia].
    + unfold Math_fround. rewrite E. cbn [SF32round].
      pose proof (binary_round_rounded 24 128 s m e ltac:(lia) ltac:(lia)) as R.
      destruct (rounded_val_le 24 128 s (mag (Zpos m) e) 0 _ ltac:(cbv; discriminate) R
                  ltac:(lia) ltac:(lia)) as [_ Hb].
      inversion R as [Hz Er|Hinf Er|m' e' Hmag' He' Hle' Er]; rewrite <- Er in Hb.
      * assert (Z0 : Fval (SF2Prim (S754_zero s)) = 0) by (destruct s; reflexivity).
        rewrite Z0. split; [destruct s; reflexivity|lia].
      * contradiction.
      * destruct Hb as [Hb1 Hb2].
        pose proof (Zdigits2_bounds (Zpos m') ltac:(lia)) as [Dlo' Dhi'].
        assert (D24 : Zdigits2 (Zpos m') <= 24).
        { unfold SpecFloat.fexp, mag in He'. lia. }
        assert (Zpos m' < 2 ^ 53).
        { assert (2 ^ Zdigits2 (Zpos m') <= 2 ^ 53) by (apply Z.pow_le_mono_r; lia). lia. }
        assert (mag (Zpos m') e' <= 1024) by (unfold mag in *; lia).
        destruct (SF2Prim_finite s m' e') as [Nn Fv]; try assumption.
        split; [assumption|]. rewrite Fv. cbn [SFval].
        replace (0 + 1074) with 1074 in Hb2 by lia.
        assert (0 < Zpos m' * 2 ^ (e' + 1074))
          by (apply Z.mul_pos_pos; [lia|apply Z.pow_pos_nonneg; lia]).
        destruct s; lia.
Qed.

(** Sign and magnitude. *)
Lemma Fval_opp (x : float) : Fval (- x) = - Fval x.
Proof.
  unfold Fval. rewrite opp_spec.
  destruct (Prim2SF x) as [s|s| |s m e]; cbn [SFopp SFval]; try reflexivity;
    destruct s; cbn [negb]; lia.
Qed.

Lemma is_nan_opp (x : float) : is_nan (- x) = is_nan x.
Proof. rewrite !is_nan_SFnan, opp_spec. destruct (Prim2SF x); reflexivity. Qed.

Lemma Fval_abs (x : float) : Fval (abs x) = Z.abs (Fval x).
Proof.
  unfold Fval. rewrite abs_spec.
  assert (0 < huge) by (unfold huge; apply Z.pow_pos_nonneg; lia).
  destruct (Prim2SF x) as [s|s| |s m e]; cbn [SFabs SFval]; try reflexivity.
  - destruct s; lia.
  - assert (0 <= 2 ^ (e + 1074)) by (apply Z.pow_nonneg; lia).
    assert (0 <= Zpos m * 2 ^ (e + 1074)) by (apply Z.mul_nonneg_nonneg; lia).
    destruct s; lia.
Qed.

Lemma is_nan_abs (x : float) : is_nan (abs x) = is_nan x.
Proof. rewrite !is_nan_SFnan, abs_spec. destruct (Prim2SF x); reflexivity. Qed.

Lemma leb_true_not_nan (x y : float) :
  PrimFloat.leb x y = true -> is_nan x = false /\ is_nan y = false.
Proof.
  intros H. split.
  - destruct (is_nan x) eqn:N; [|reflexivity]. rewrite leb_nan_l in H by assumption. discriminate.
  - destruct (is_nan y) eqn:N; [|reflexivity]. rewrite leb_nan_r in H by assumption. discriminate.
Qed.

Lemma ltb_true_not_nan (x y : float) :
  PrimFloat.ltb x y = true -> is_nan x = false /\ is_nan y = false.
Proof.
  intros H. split.
  - destruct (is_nan x) eqn:N; [|reflexivity]. rewrite ltb_nan_l in H by assumption. discriminate.
  - destruct (is_nan y) eqn:N; [|reflexivity]. rewrite ltb_nan_r in H by assumption. discriminate.
Qed.

Local Open Scope float_scope.

(** Minus one as a factor. *)
Lemma mul_m1_l (y : float) : -1 * y = - y.
Proof.
  rewrite mul_comm. apply Prim2SF_inj.
  rewrite mul_spec, opp_spec. change (Prim2SF (-1)) with (SFopp (Prim2SF 1)).
  unfold SF64mul. rewrite SFmul_opp_r. f_equal.
  rewrite Prim2SF_one. apply SFmul_one_r. apply Prim2SF_valid.
Qed.

(** The magnitude of a number above the threshold, by its sign. *)
Lemma abs_of_pos (x : float) : (0 <? x) = true -> abs x = x.
Proof.
  intros H. apply Prim2SF_inj. rewrite abs_spec.
  destruct (ltb_zero_l x H) as [S _].
  destruct (Prim2SF x) as [s|s| |s m e]; cbn in S; try discriminate;
    injection S as ->; reflexivity.
Qed.

Lemma abs_of_neg (x : float) :
  (0 <? x) = false -> (0.95 <? abs x) = true -> abs x = - x.
Proof.
  intros H L. apply Prim2SF_inj. rewrite abs_spec, opp_spec.
  rewrite ltb_spec in H, L. rewrite abs_spec in L.
  change (Prim2SF 0) with (S754_zero false) in H.
  destruct (Prim2SF x) as [s|s| |s m e]; cbn [SFabs SFopp SFltb SFcompare] in *.
  - vm_compute in L. discriminate.
  - destruct s; [reflexivity|discriminate].
  - vm_compute in L. discriminate.
  - destruct s; [reflexivity|discriminate].
Qed.

Lemma map_nth_in {A B : Type} (f : A -> B) (l : list A) (i : nat) (da : A) (db : B) :
  (i < List.length l)%nat -> nth i (map f l) db = f (nth i l da).
Proof.
  revert i. induction l as [|a l IH]; intros i Hi; [cbn in Hi; lia|].
  destruct i as [|i]; [reflexivity|]. cbn [map nth]. apply IH. cbn in Hi. lia.
Qed.

(** The limiter on one sample. *)
Lemma soft_limit_over (Math_tanh : float -> float) (x : float) :
  (0.95 <? abs x) = true ->
  soft_limit Math_tanh x = Math_fround (sign x * Math_tanh (abs x)).
Proof.
  intros L. unfold soft_limit, sign. rewrite L.
  destruct (0 <? x) eqn:P.
  - rewrite mul_1_l, abs_of_pos by assumption. reflexivity.
  - rewrite mul_m1_l, abs_of_neg by assumption. reflexivity.
Qed.

Lemma soft_limit_under (Math_tanh : float -> float) (x : float) :
  (0.95 <? abs x) = false -> soft_limit Math_tanh x = x.
Proof. intros L. unfold soft_limit. now rewrite L. Qed.

Lemma abs_leb_1 (y : float) :
  is_nan y = false -> (- 2 ^ 1074 <= Fval y <= 2 ^ 1074)%Z -> (abs y <=? 1) = true.
Proof.
  intros N B. rewrite leb_val by (rewrite ?is_nan_abs; trivial).
  rewrite Fval_abs, Fval_one. apply Z.leb_le. lia.
Qed.

Lemma soft_limit_bounded (Math_tanh : float -> float) (x : float) :
  tanh_range Math_tanh -> is_nan x = false ->
  (abs (soft_limit Math_tanh x) <=? 1) = true.
Proof.
  intros T N. pose proof Fval_one as F1.
  assert (P1 : (0 < 2 ^ 1074)%Z) by (apply Z.pow_pos_nonneg; lia).
  unfold soft_limit. destruct (0.95 <? abs x) eqn:L.
  - assert (Pos : forall t, (0 <? t) = true ->
              is_nan (Math_tanh t) = false /\ (0 <= Fval (Math_tanh t) <= 2 ^ 1074)%Z).
    { intros t Ht. destruct (T t Ht) as [A B].
      destruct (leb_true_not_nan _ _ A) as [_ Nt].
      rewrite leb_val in A, B by trivial.
      apply Z.leb_le in A, B. rewrite Fval_zero in A. rewrite F1 in B. tauto. }
    destruct (0 <? x) eqn:P.
    + destruct (Pos x P) as [Nt Bt].
      destruct (fround_bound (Math_tanh x) Nt ltac:(lia)) as [Nf Bf].
      apply abs_leb_1; assumption.
    + assert (Px : (0 <? - x) = true).
      { rewrite ltb_val in L, P |- * by (rewrite ?is_nan_abs, ?is_nan_opp; trivial).
        rewrite Fval_abs in L. rewrite Fval_opp. rewrite Fval_zero in *.
        apply Z.ltb_lt in L. apply Z.ltb_ge in P. apply Z.ltb_lt.
        assert (0 <= Fval 0.95)%Z by (vm_compute; discriminate). lia. }
      destruct (Pos (- x) Px) as [Nt Bt].
      destruct (fround_bound (- Math_tanh (- x))) as [Nf Bf].
      * now rewrite is_nan_opp.
      * rewrite Fval_opp. lia.
      * apply abs_leb_1; assumption.
  - rewrite leb_val by (rewrite ?is_nan_abs; trivial).
    rewrite ltb_val in L by (rewrite ?is_nan_abs; trivial).
    apply Z.ltb_ge in L. rewrite F1. apply Z.leb_le.
    assert (Fval 0.95 <= 2 ^ 1074)%Z by (vm_compute; discriminate). lia.
Qed.

(** Clamping has the range required of tanh. *)
Lemma tanh_range_clamp : tanh_range clamp.
Proof.
  intros t Ht. destruct (ltb_true_not_nan _ _ Ht) as [_ Nt].
  assert (P1 : (0 < 2 ^ 1074)%Z) by (apply Z.pow_pos_nonneg; lia).
  rewrite ltb_val in Ht by trivial. rewrite Fval_zero in Ht. apply Z.ltb_lt in Ht.
  unfold clamp. rewrite (ltb_val t (-1)) by trivial. rewrite Fval_minus_one.
  destruct (Z.ltb_spec (Fval t) (- 2 ^ 1074)) as [|_]; [lia|].
  destruct (1 <? t) eqn:L; [split; reflexivity|].
  rewrite ltb_val in L by trivial. rewrite Fval_one in L. apply Z.ltb_ge in L.
  rewrite !leb_val by trivial. rewrite Fval_zero, Fval_one.
  split; apply Z.leb_le; lia.
Qed.

(** C4 (as amended). With [x] a sample before limiting: when its magnitude
    exceeds 0.95 the emitted sample is [sign(x) * tanh(|x|)] stored in single
    precision; otherwise it is [x] itself, NaN included; and when [x] is a
    number (and tanh has its range) the emitted sample has magnitude at most 1. *)
Theorem mixAmbientLayers_soft_limit :
  forall (Math_tanh : float -> float) (baseNoise : list float)
         (layers : list AmbientLayerResult) (baseLevel layerLevel : float),
    let pre := premix baseNoise layers baseLevel layerLevel in
    let out := mixAmbientLayers Math_tanh baseNoise layers baseLevel layerLevel in
    List.length out = List.length pre
    /\ forall i : nat,
         (i < List.length pre)%nat ->
         let x := nth i pre 0 in
         let y := nth i out 0 in
         ((0.95 <? abs x) = true -> y = Math_fround (sign x * Math_tanh (abs x)))
         /\ ((0.95 <? abs x) = false -> y = x)
         /\ (is_nan x = true -> is_nan y = true)
         /\ (tanh_range Math_tanh -> is_nan x = false -> (abs y <=? 1) = true).
Proof.
  intros Math_tanh baseNoise layers baseLevel layerLevel pre out.
  unfold out, mixAmbientLayers. fold pre.
  split; [apply length_map|].
  intros i Hi. rewrite (map_nth_in _ pre i 0 0 Hi).
  split; [apply soft_limit_over|]. split; [apply soft_limit_under|]. split.
  - intros N. rewrite soft_limit_under; [assumption|].
    apply ltb_nan_r. now rewrite is_nan_abs.
  - apply soft_limit_bounded.
Qed.

(** C4 as stated fails: a layer shorter than the base makes the mixer read
    outside the layer's buffer, and the emitted sample is NaN, whose magnitude
    is not at most 1. *)
Lemma mixAmbientLayers_counterexample :
  mixAmbientLayers clamp [0.5] [mkLayer "pacific_rain" [] "rain"] 0.7 0.3 = [nan]
  /\ (abs nan <=? 1) = false
  /\ (0.7 <=? 1) = true /\ (0.3 <=? 1) = true.
Proof. repeat split; vm_compute; reflexivity. Qed.

(* ================================================================== *)
(** ** The length invariant *)
(* ================================================================== *)

Local Open Scope float_scope.

Lemma upd_length (buffer : list float) (i : nat) (f : float -> float) :
  List.length (upd buffer i f) = List.length buffer.
Proof.
  revert i. induction buffer as [|x t IH]; intros i; [reflexivity|].
  destruct i as [|i]; cbn [upd List.length]; [reflexivity|]. now rewrite IH.
Qed.

Lemma set_at_length (buffer : list float) (i : nat) (v : float) :
  List.length (set_at buffer i v) = List.length buffer.
Proof. apply upd_length. Qed.

Lemma add_at_length (buffer : list float) (i : nat) (v : float) :
  List.length (add_at buffer i v) = List.length buffer.
Proof. apply upd_length. Qed.

Lemma add_at_num_length (buffer : list float) (i v : float) :
  List.length (add_at_num buffer i v) = List.length buffer.
Proof. unfold add_at_num. destruct (F2idx i); [apply add_at_length|reflexivity]. Qed.

Lemma zeros_length (n : nat) : List.length (zeros n) = n.
Proof. apply repeat_length. Qed.

Section Layers.

Variable Math_sin : float -> float.
Variable Math_exp : float -> float.
Variable toFixed : float -> nat -> string.

(** *** Rain *)

Lemma droplet_loop_length (sampleRate dropletSamples dropletIntensity frequency : float)
    (options : LayerOptions) (i rem j : nat) (st : LoopState) :
  List.length (ls_buf (droplet_loop Math_sin Math_exp sampleRate dropletSamples
                         dropletIntensity frequency options i rem j st))
  = List.length (ls_buf st).
Proof.
  revert j st. induction rem as [|rem IH]; intros j st; [reflexivity|].
  cbn [droplet_loop]. destruct (Z2F (Z.of_nat j) <? dropletSamples); [|reflexivity].
  destruct (random (ls_rng st)) as [u rng']. rewrite IH. cbn [ls_buf].
  apply add_at_length.
Qed.

Lemma rain_iter_length (baseNoise : list float) (sampleRate : float)
    (options : LayerOptions) (i : nat) (st : LoopState) :
  List.length (ls_buf (rain_iter Math_sin Math_exp baseNoise sampleRate options i st))
  = List.length (ls_buf st).
Proof.
  unfold rain_iter. destruct (random (ls_rng st)) as [u rng1].
  match goal with |- context [if ?c then _ else _] => destruct c end; [|reflexivity].
  destruct (random rng1) as [u1 rng2]. destruct (random rng2) as [u2 rng3].
  rewrite droplet_loop_length. reflexivity.
Qed.

Lemma for_loop_length (body : nat -> LoopState -> LoopState) (rem i : nat)
    (st : LoopState) :
  (forall k s, List.length (ls_buf (body k s)) = List.length (ls_buf s)) ->
  List.length (ls_buf (for_loop body rem i st)) = List.length (ls_buf st).
Proof.
  intros H. revert i st. induction rem as [|rem IH]; intros i st; [reflexivity|].
  cbn [for_loop]. now rewrite IH, H.
Qed.

Lemma generateRainLayer_length (entropy : float) (baseNoise : list float)
    (sampleRate : float) (options : LayerOptions) :
  List.length (buffer (generateRainLayer Math_sin Math_exp toFixed entropy baseNoise
                         sampleRate options))
  = List.length baseNoise.
Proof.
  unfold generateRainLayer. cbn [buffer].
  rewrite for_loop_length by (intros; apply rain_iter_length).
  cbn [ls_buf]. apply zeros_length.
Qed.

(** *** Water *)

Lemma bubble_loop_length (sampleRate bubbleSamples bubbleFreq : float)
    (options : LayerOptions) (i rem j : nat) (buf : list float) :
  List.length (bubble_loop Math_sin Math_exp sampleRate bubbleSamples bubbleFreq
                 options i rem j buf)
  = List.length buf.
Proof.
  revert j buf. induction rem as [|rem IH]; intros j buf; [reflexivity|].
  cbn [bubble_loop]. destruct (Z2F (Z.of_nat j) <? bubbleSamples); [|reflexivity].
  rewrite IH. apply add_at_length.
Qed.

Lemma water_iter_length (baseNoise : list float) (sampleRate : float)
    (options : LayerOptions) (i : nat) (ws : WaterState) :
  List.length (ls_buf (ws_loop (water_iter Math_sin Math_exp baseNoise sampleRate
                                  options i ws)))
  = List.length (ls_buf (ws_loop ws)).
Proof.
  unfold water_iter. destruct (random (ls_rng (ws_loop ws))) as [u rng1].
  destruct (random rng1) as [u2 rng2].
  match goal with |- context [if ?c then _ else _] => destruct c end.
  - destruct (random rng2) as [u3 rng3]. destruct (random rng3) as [u4 rng4].
    cbn [ws_loop ls_buf]. rewrite bubble_loop_length. apply set_at_length.
  - cbn [ws_loop ls_buf]. apply set_at_length.
Qed.

Lemma water_loop_length (baseNoise : list float) (sampleRate : float)
    (options : LayerOptions) (rem i : nat) (ws : WaterState) :
  List.length (ls_buf (ws_loop (water_loop Math_sin Math_exp baseNoise sampleRate
                                  options rem i ws)))
  = List.length (ls_buf (ws_loop ws)).
Proof.
  revert i ws. induction rem as [|rem IH]; intros i ws; [reflexivity|].
  cbn [water_loop]. now rewrite IH, water_iter_length.
Qed.

Lemma generateWaterLayer_length (entropy : float) (baseNoise : list float)
    (sampleRate : float) (options : LayerOptions) :
  List.length (buffer (generateWaterLayer Math_sin Math_exp toFixed entropy baseNoise
                         sampleRate options))
  = List.length baseNoise.
Proof.
  unfold generateWaterLayer. cbn [buffer]. rewrite water_loop_length.
  cbn [ws_loop ls_buf]. apply zeros_length.
Qed.

(** *** Birds *)

Lemma call_loop_eq (sampleRate callSamples callLength frequency modulation : float)
    (options : LayerOptions) (i : float) (fuel j : nat) (buf : list float) :
  call_loop Math_sin sampleRate callSamples callLength frequency modulation options
    i fuel j buf
  = if (Z2F (Z.of_nat j) <? callSamples)
       && (i + Z2F (Z.of_nat j) <? Z2F (Z.of_nat (List.length buf)))
    then
      match fuel with
      | O => None
      | S fuel' =>
          let callTime := Z2F (Z.of_nat j) / sampleRate in
          let envelope := Math_sin (Math_PI * callTime / callLength) in
          let freq := frequency + Math_sin (2 * Math_PI * 3 * callTime) * modulation in
          let signal := Math_sin (2 * Math_PI * freq * callTime) in
          call_loop Math_sin sampleRate callSamples callLength frequency modulation
            options i fuel' (S j)
            (add_at_num buf (i + Z2F (Z.of_nat j))
               (signal * envelope * 0.3 * intensity options))
      end
    else Some buf.
Proof. destruct fuel; reflexivity. Qed.

Lemma call_loop_length (sampleRate callSamples callLength frequency modulation : float)
    (options : LayerOptions) (i : float) (fuel j : nat) (buf buf' : list float) :
  call_loop Math_sin sampleRate callSamples callLength frequency modulation options
    i fuel j buf = Some buf' ->
  List.length buf' = List.length buf.
Proof.
  revert j buf. induction fuel as [|fuel IH]; intros j buf; rewrite call_loop_eq;
    match goal with |- context [if ?c then _ else _] => destruct c end;
    try discriminate; try (intros [= <-]; reflexivity).
  cbv zeta. intros H. apply IH in H. rewrite H. apply add_at_num_length.
Qed.

Lemma bird_loop_eq (baseNoise : list float) (sampleRate : float)
    (options : LayerOptions) (fuel : nat) (i : float) (st : LoopState) :
  bird_loop Math_sin baseNoise sampleRate options fuel i st
  = if i <? Z2F (Z.of_nat (List.length (ls_buf st))) then
      match fuel with
      | O => None
      | S fuel' =>
          let callRate := 0.5 + intensity options * 2 in
          let noiseLevel := abs (get_num baseNoise i) in
          let callChance :=
            (callRate / sampleRate) * (1 + noiseLevel * variation options * 2) in
          let (u, rng1) := random (ls_rng st) in
          if u <? callChance then
            let (birdType, rng2) := random rng1 in
            let '(frequency, modulation, callLength, rng3) :=
              bird_archetype birdType rng2 in
            let callSamples := Math_floor (callLength * sampleRate) in
            match call_loop Math_sin sampleRate callSamples callLength frequency
                    modulation options i (S (List.length (ls_buf st))) 0 (ls_buf st) with
            | None => None
            | Some buf' =>
                bird_loop Math_sin baseNoise sampleRate options fuel'
                  (i + callSamples + 1) (mkLoop rng3 buf')
            end
          else
            bird_loop Math_sin baseNoise sampleRate options fuel' (i + 1)
              (mkLoop rng1 (ls_buf st))
      end
    else Some st.
Proof. destruct fuel; reflexivity. Qed.

Lemma bird_loop_length (baseNoise : list float) (sampleRate : float)
    (options : LayerOptions) (fuel : nat) (i : float) (st st' : LoopState) :
  bird_loop Math_sin baseNoise sampleRate options fuel i st = Some st' ->
  List.length (ls_buf st') = List.length (ls_buf st).
Proof.
  revert i st. induction fuel as [|fuel IH]; intros i st; rewrite bird_loop_eq;
    destruct (i <? Z2F (Z.of_nat (List.length (ls_buf st))));
    try discriminate; try (intros [= <-]; reflexivity).
  cbv zeta. destruct (random (ls_rng st)) as [u rng1].
  match goal with |- context [if ?c then _ else _] => destruct c end.
  - destruct (random rng1) as [birdType rng2].
    destruct (bird_archetype birdType rng2) as [[[frequency modulation] callLength] rng3].
    destruct (call_loop _ _ _ _ _ _ _ _ _ _ _) as [buf'|] eqn:C; [|discriminate].
    intros H. apply IH in H. rewrite H. cbn [ls_buf].
    eapply call_loop_length. exact C.
  - intros H. apply IH in H. rewrite H. reflexivity.
Qed.

Lemma generateBirdLayer_length (fuel : nat) (entropy : float) (baseNoise : list float)
    (sampleRate : float) (options : LayerOptions) (layer : AmbientLayerResult) :
  generateBirdLayer Math_sin toFixed fuel entropy baseNoise sampleRate options = Some layer ->
  List.length (buffer layer) = List.length baseNoise.
Proof.
  unfold generateBirdLayer.
  destruct (random (new_SeededRandom entropy (seed options))) as [u rng'].
  destruct (bird_loop _ _ _ _ _ _ _) as [st|] eqn:B; [|discriminate].
  intros [= <-]. cbn [buffer]. apply bird_loop_length in B. rewrite B.
  cbn [ls_buf]. apply zeros_length.
Qed.

(** The floor of a non-negative number below 2^52. *)
Lemma floor_small (x : float) :
  SFsign (Prim2SF x) = Some false -> (x <? 4503599627370496) = true ->
  exists q : Z, (0 <= q < 2 ^ 52)%Z /\ Math_floor x = Z2F q.
Proof.
  intros S L. pose proof (Prim2SF_valid x) as V.
  destruct (ltb_true_not_nan _ _ L) as [Nx N2].
  rewrite ltb_val in L by assumption. apply Z.ltb_lt in L.
  change 4503599627370496 with (Z2F (2 ^ 52)) in L. rewrite Fval_Z2F in L by lia.
  unfold Fval in L. unfold Math_floor.
  destruct (Prim2SF x) as [s|s| |s m e] eqn:E; cbn [SFsign] in S; try discriminate;
    injection S as ->.
  - exists 0%Z. split; [lia|]. apply Prim2SF_inj. rewrite E. reflexivity.
  - exfalso. cbn [SFval] in L. pose proof huge_gt.
    assert (2 ^ 52 * 2 ^ 1074 < huge)%Z.
    { unfold huge. rewrite <- Z.pow_add_r by lia. apply Z.pow_lt_mono_r; lia. }
    lia.
  - destruct (Z.leb_spec 0 e) as [He|He].
    + exfalso. destruct (valid_finite_bounds false m e V) as [_ Hm].
      specialize (Hm ltac:(lia)). cbn [SFval] in L.
      assert (2 ^ 1074 <= 2 ^ (e + 1074))%Z by (apply Z.pow_le_mono_r; lia).
      assert (0 < 2 ^ 1074)%Z by (apply Z.pow_pos_nonneg; lia).
      assert (2 ^ 52 * 2 ^ 1074 <= Zpos m * 2 ^ (e + 1074))%Z
        by (apply Z.mul_le_mono_nonneg; lia).
      lia.
    + eexists. split; [|reflexivity]. apply (floor_quotient_bounds false m e V He).
Qed.

Lemma bird_archetype_length (birdType : float) (rng : SeededRandom) :
  In (snd (fst (bird_archetype birdType rng))) call_lengths.
Proof.
  unfold bird_archetype, call_lengths. destruct (random rng) as [u rng'].
  destruct (birdType <? 0.3); [cbn; auto|].
  destruct (birdType <? 0.6); cbn; auto.
Qed.

Lemma ltb_0_pos (L : float) : In L call_lengths -> (0 <? L) = true.
Proof. intros [<-|[<-|[<-|[]]]]; reflexivity. Qed.

(** The call loop ends within [buffer.length] iterations. *)
Lemma call_loop_total (sampleRate callSamples callLength frequency modulation : float)
    (options : LayerOptions) (k : Z) (fuel j : nat) (buf : list float) :
  (Z.of_nat (List.length buf) < 2 ^ 52)%Z ->
  (0 <= k)%Z -> (k + Z.of_nat j <= Z.of_nat (List.length buf))%Z ->
  (Z.of_nat (List.length buf) <= k + Z.of_nat j + Z.of_nat fuel)%Z ->
  exists buf',
    call_loop Math_sin sampleRate callSamples callLength frequency modulation options
      (Z2F k) fuel j buf = Some buf'.
Proof.
  intros Hlen Hk. revert j buf Hlen.
  induction fuel as [|fuel IH]; intros j buf Hlen Hj Hf; rewrite call_loop_eq;
    rewrite Z2F_add, Z2F_ltb by lia;
    destruct (Z.ltb_spec (k + Z.of_nat j) (Z.of_nat (List.length buf))) as [Lt|Ge];
    rewrite ?andb_false_r; eauto;
    destruct (Z2F (Z.of_nat j) <? callSamples); cbn [andb]; eauto.
  - lia.
  - cbv zeta. apply IH; rewrite add_at_num_length; lia.
Qed.

(** The outer loop ends within [buffer.length] iterations, when every call
    length is a whole number of samples below 2^52. *)
Lemma bird_loop_total (baseNoise : list float) (sampleRate : float)
    (options : LayerOptions) (fuel : nat) (k : Z) (st : LoopState) :
  (0 <? sampleRate) = true -> calls_fit sampleRate ->
  (Z.of_nat (List.length (ls_buf st)) < 2 ^ 52)%Z ->
  (0 <= k < 2 ^ 53)%Z ->
  (Z.of_nat (List.length (ls_buf st)) <= k + Z.of_nat fuel)%Z ->
  exists st', bird_loop Math_sin baseNoise sampleRate options fuel (Z2F k) st = Some st'.
Proof.
  intros Hsr Hfit. revert k st.
  induction fuel as [|fuel IH]; intros k st Hlen Hk Hf; rewrite bird_loop_eq;
    rewrite Z2F_ltb by lia;
    destruct (Z.ltb_spec k (Z.of_nat (List.length (ls_buf st)))) as [Lt|Ge]; eauto.
  - lia.
  - cbv zeta. destruct (random (ls_rng st)) as [u rng1].
    match goal with |- context [if ?c then _ else _] => destruct c end.
    + destruct (random rng1) as [birdType rng2].
      pose proof (bird_archetype_length birdType rng2) as HL.
      destruct (bird_archetype birdType rng2) as [[[frequency modulation] callLength] rng3].
      cbn [fst snd] in HL.
      destruct (floor_small (callLength * sampleRate)) as (q & Hq & Eq).
      { apply mul_pos_sign; [apply ltb_0_pos|]; assumption. }
      { apply Hfit. assumption. }
      rewrite Eq.
      destruct (call_loop_total sampleRate (Z2F q) callLength frequency modulation
                  options k (S (List.length (ls_buf st))) 0 (ls_buf st))
        as [buf' C]; try lia.
      rewrite C. apply call_loop_length in C.
      rewrite Z2F_add by lia. change 1 with (Z2F 1). rewrite Z2F_add by lia.
      apply IH; cbn [ls_buf]; rewrite ?C; lia.
    + change 1 with (Z2F 1). rewrite Z2F_add by lia.
      apply IH; cbn [ls_buf]; lia.
Qed.

Lemma generateBirdLayer_total (fuel : nat) (entropy : float) (baseNoise : list float)
    (sampleRate : float) (options : LayerOptions) :
  (0 <? sampleRate) = true -> calls_fit sampleRate ->
  (Z.of_nat (List.length baseNoise) < 2 ^ 52)%Z ->
  (List.length baseNoise <= fuel)%nat ->
  exists layer,
    generateBirdLayer Math_sin toFixed fuel entropy baseNoise sampleRate options
    = Some layer.
Proof.
  intros Hsr Hfit Hlen Hfuel. unfold generateBirdLayer.
  destruct (random (new_SeededRandom entropy (seed options))) as [u rng'].
  destruct (bird_loop_total baseNoise sampleRate options fuel 0
              (mkLoop rng' (zeros (List.length baseNoise))) Hsr Hfit) as [st B];
    cbn [ls_buf]; rewrite ?zeros_length; try lia.
  change (Z2F 0) with 0 in B. rewrite B. eauto.
Qed.

End Layers.

(** *** The mixer *)

Lemma add_layer_length (layerLevel : float) (count : nat) (mixed : list float)
    (layer : AmbientLayerResult) :
  List.length (add_layer layerLevel count mixed layer) = List.length mixed.
Proof. apply mapi_length. Qed.

Lemma premix_length (baseNoise : list float) (layers : list AmbientLayerResult)
    (baseLevel layerLevel : float) :
  List.length (premix baseNoise layers baseLevel layerLevel) = List.length baseNoise.
Proof.
  unfold premix. generalize (List.length layers) as count. intros count.
  rewrite <- (length_map (fun x => Math_fround (x * baseLevel)) baseNoise).
  generalize (map (fun x => Math_fround (x * baseLevel)) baseNoise) as mixed.
  induction layers as [|l ls IH]; intros mixed; [reflexivity|].
  cbn [fold_left]. rewrite IH. apply add_layer_length.
Qed.

(** The sample count of [generateNoise]. *)
Lemma generateNoise_length (entropy : float) (type : string)
    (duration sampleRate : float) (seed : option float) :
  recognized type ->
  (0 <? duration) = true -> (0 <? sampleRate) = true ->
  (Math_floor (duration * sampleRate) <=? 9007199254740991) = true ->
  exists samples,
    generateNoise entropy type duration sampleRate seed = inr samples
    /\ Z.of_nat (List.length samples) = truncZ (Math_floor (duration * sampleRate)).
Proof.
  intros R Hd Hr Hle.
  destruct (ToIndex_floor_accepts (duration * sampleRate)
              (mul_pos_sign duration sampleRate Hd Hr) Hle) as [n En].
  pose proof (generateNoise_cases entropy type duration sampleRate seed) as G.
  rewrite En in G. destruct G as [G _]. destruct (G R) as (samples & Es & Ls).
  exists samples. split; [assumption|]. rewrite Ls. apply ToIndex_truncZ. assumption.
Qed.

(** The default sample rate fits. *)
Lemma calls_fit_44100 : calls_fit 44100.
Proof. intros L [<-|[<-|[<-|[]]]]; reflexivity. Qed.



(* ================================================================== *)
(** ** Rounding against a representable bound *)
(* ================================================================== *)

Local Close Scope float_scope.

Lemma Zdigits2_le (a b : Z) : 0 < a -> a <= b -> Zdigits2 a <= Zdigits2 b.
Proof.
  intros Ha Hab. rewrite !Zdigits2_log2 by lia.
  pose proof (Z.log2_le_mono a b Hab). lia.
Qed.

(** Magnitudes are ordered as the values are. *)
Lemma mag_le (mx ex mR eR C : Z) :
  0 < mx -> 0 < mR -> 0 <= ex + C -> 0 <= eR + C ->
  mx * 2 ^ (ex + C) <= mR * 2 ^ (eR + C) ->
  mag mx ex <= mag mR eR.
Proof.
  intros Hmx HmR Hex HeR Hle. unfold mag.
  pose proof (Zdigits2_bounds mx Hmx) as [Lx _].
  pose proof (Zdigits2_bounds mR HmR) as [_ UR].
  pose proof (Zdigits2_pos mx Hmx). pose proof (Zdigits2_pos mR HmR).
  assert (Px : 0 < 2 ^ (ex + C)) by (apply Z.pow_pos_nonneg; lia).
  assert (PR : 0 < 2 ^ (eR + C)) by (apply Z.pow_pos_nonneg; lia).
  assert (A : 2 ^ (Zdigits2 mx - 1 + (ex + C)) < 2 ^ (Zdigits2 mR + (eR + C))).
  { rewrite (Z.pow_add_r 2 (Zdigits2 mx - 1) (ex + C)) by lia.
    rewrite (Z.pow_add_r 2 (Zdigits2 mR) (eR + C)) by lia.
    apply Z.le_lt_trans with (mx * 2 ^ (ex + C)); [apply Z.mul_le_mono_nonneg_r; lia|].
    apply Z.le_lt_trans with (mR * 2 ^ (eR + C)); [assumption|].
    apply (proj1 (Z.mul_lt_mono_pos_r (2 ^ (eR + C)) mR (2 ^ Zdigits2 mR) PR)). lia. }
  apply Z.pow_lt_mono_r_iff in A; lia.
Qed.

Section Below.

Variables prec emax : Z.
Hypothesis Hprec : 0 < prec.
Hypothesis Hemax : 2 <= emax.
Hypothesis Hemin : -1074 <= SpecFloat.emin prec emax.

Lemma binary_round_aux_below (s : bool) (mx ex : Z) (mR : positive) (eR C : Z) :
  0 < mx -> ex <= SpecFloat.fexp prec emax (mag mx ex) ->
  eR = SpecFloat.fexp prec emax (mag (Zpos mR) eR) -> eR <= emax - prec ->
  0 <= ex + C -> 0 <= eR + C ->
  mx * 2 ^ (ex + C) <= Zpos mR * 2 ^ (eR + C) ->
  below s mR eR (binary_round_aux prec emax s mx ex loc_Exact).
Proof.
  intros Hmx Hex HeR HleR HexC HeRC Hle.
  pose proof (mag_le mx ex (Zpos mR) eR C Hmx ltac:(lia) HexC HeRC Hle) as HM.
  pose proof (Zdigits2_bounds (Zpos mR) ltac:(lia)) as [LR UR].
  pose proof (Zdigits2_pos (Zpos mR) ltac:(lia)) as DR.
  assert (HeR74 : -1074 <= eR) by (rewrite HeR; unfold SpecFloat.fexp; lia).
  assert (HMR : mag (Zpos mR) eR <= emax).
  { unfold SpecFloat.fexp in HeR. lia. }
  destruct (Z.eq_dec (mag mx ex) (mag (Zpos mR) eR)) as [EM|NM].
  - (* same magnitude: rounding happens at the exponent of the bound *)
    rewrite binary_round_aux_unfold. cbv zeta. fold (mag mx ex).
    rewrite EM, <- HeR.
    set (k1 := eR - ex). assert (Hk1 : 0 <= k1) by (unfold k1; rewrite HeR, <- EM; lia).
    rewrite (Z.max_l k1 0) by lia. replace (ex + k1) with eR by (unfold k1; lia).
    change (shr_record_of_loc mx loc_Exact) with (Build_shr_record mx false false).
    set (mrs1 := Nat.iter (Z.to_nat k1) shr_1 (Build_shr_record mx false false)).
    assert (Hm1 : shr_m mrs1 = mx / 2 ^ k1).
    { unfold mrs1. rewrite shr_iter_m by (simpl; lia). simpl shr_m.
      rewrite Z2Nat.id by lia. reflexivity. }
    set (m2 := round_nearest_even (shr_m mrs1) (loc_of_shr_record mrs1)).
    pose proof (rne_bounds (shr_m mrs1) (loc_of_shr_record mrs1)) as Hm2.
    fold m2 in Hm2. rewrite Hm1 in Hm2.
    assert (Hp : 0 < 2 ^ k1) by (apply Z.pow_pos_nonneg; lia).
    assert (Hpx : 0 < 2 ^ (ex + C)) by (apply Z.pow_pos_nonneg; lia).
    assert (Hmx' : mx <= Zpos mR * 2 ^ k1).
    { replace (eR + C) with (k1 + (ex + C)) in Hle by (unfold k1; lia).
      rewrite (Z.pow_add_r 2 k1 (ex + C)), Z.mul_assoc in Hle by lia.
      apply (proj2 (Z.mul_le_mono_pos_r mx (Zpos mR * 2 ^ k1) (2 ^ (ex + C)) Hpx)).
      assumption. }
    assert (Hq : 0 <= mx / 2 ^ k1 <= Zpos mR).
    { split; [apply Z.div_pos; lia|].
      apply Z.div_le_upper_bound; [assumption|]. lia. }
    assert (Hm2R : 0 <= m2 <= Zpos mR).
    { split; [lia|].
      destruct (Z.eq_dec (mx / 2 ^ k1) (Zpos mR)) as [Eq|Nq]; [|lia].
      assert (Hdiv : mx mod 2 ^ k1 = 0).
      { pose proof (Z.div_mod mx (2 ^ k1) ltac:(lia)) as DM.
        pose proof (Z.mod_pos_bound mx (2 ^ k1) Hp). rewrite Eq in DM. lia. }
      unfold m2, mrs1.
      rewrite (shr_iter_exact (Z.to_nat k1) mx) by (rewrite ?Z2Nat.id by lia; lia || assumption).
      rewrite Z2Nat.id by lia. rewrite rne_exact. simpl shr_m. lia. }
    assert (Hfe : forall a b, a <= b ->
              SpecFloat.fexp prec emax a <= SpecFloat.fexp prec emax b)
      by (intros a b; unfold SpecFloat.fexp; lia).
    assert (Hk2 : SpecFloat.fexp prec emax (Zdigits2 m2 + eR) - eR <= 0).
    { destruct (Z.eq_dec m2 0) as [->|N0].
      - change (Zdigits2 0) with 0. unfold SpecFloat.fexp in *. lia.
      - pose proof (Zdigits2_le m2 (Zpos mR) ltac:(lia) ltac:(lia)).
        pose proof (Hfe (Zdigits2 m2 + eR) (mag (Zpos mR) eR) ltac:(unfold mag; lia)).
        lia. }
    replace (Z.to_nat (SpecFloat.fexp prec emax (Zdigits2 m2 + eR) - eR)) with O by lia.
    rewrite Z.max_r by lia. rewrite Z.add_0_r. simpl Nat.iter. simpl shr_m.
    destruct m2 as [|p|p] eqn:E2; try lia.
    + reflexivity.
    + apply Z.leb_le in HleR. rewrite HleR. cbn [below].
      split; [reflexivity|]. split; [assumption|].
      apply Z.mul_le_mono_nonneg_r; [apply Z.pow_nonneg; lia|lia].
  - (* smaller magnitude: at most the power of two below the bound *)
    pose proof (binary_round_aux_rounded prec emax Hprec Hemax s mx ex loc_Exact Hmx Hex) as R.
    destruct (rounded_val_le prec emax s (mag mx ex) (mag (Zpos mR) eR - 1) _ Hemin R
                ltac:(lia) ltac:(lia)) as [Sg Hb].
    assert (PB : 2 ^ (mag (Zpos mR) eR - 1 + 1074) <= Zpos mR * 2 ^ (eR + 1074)).
    { unfold mag. replace (Zdigits2 (Zpos mR) + eR - 1 + 1074)
        with (Zdigits2 (Zpos mR) - 1 + (eR + 1074)) by lia.
      rewrite Z.pow_add_r by lia.
      apply Z.mul_le_mono_nonneg_r; [apply Z.pow_nonneg; lia|lia]. }
    destruct (binary_round_aux prec emax s mx ex loc_Exact) as [s'|s'| |s' m e];
      cbn [below SFsign] in *; try contradiction.
    + now injection Sg.
    + split; [now injection Sg|]. split; [tauto|lia].
Qed.

Lemma binary_round_below (s : bool) (m : positive) (e : Z) (mR : positive) (eR C : Z) :
  eR = SpecFloat.fexp prec emax (mag (Zpos mR) eR) -> eR <= emax - prec ->
  1074 <= C -> 0 <= e + C ->
  Zpos m * 2 ^ (e + C) <= Zpos mR * 2 ^ (eR + C) ->
  below s mR eR (binary_round prec emax s m e).
Proof.
  intros HeR HleR HC HeC Hle.
  assert (HeR74 : -1074 <= eR) by (rewrite HeR; unfold SpecFloat.fexp; lia).
  unfold binary_round, shl_align.
  change (Zpos (digits2_pos m)) with (Zdigits2 (Zpos m)).
  fold (mag (Zpos m) e). set (e' := SpecFloat.fexp prec emax (mag (Zpos m) e)).
  assert (He'74 : -1074 <= e') by (unfold e', SpecFloat.fexp; lia).
  destruct (e' - e) as [|q|q] eqn:E.
  - apply binary_round_aux_below with C; try assumption; try lia; fold e'; lia.
  - apply binary_round_aux_below with C; try assumption; try lia; fold e'; lia.
  - assert (Hm : mag (Zpos (Pos.iter xO m q)) e' = mag (Zpos m) e).
    { unfold mag. rewrite Pos_iter_xO, Zdigits2_mul_pow2 by lia. lia. }
    apply binary_round_aux_below with C; try assumption; try lia.
    { rewrite Hm. fold e'. lia. }
    rewrite Pos_iter_xO. rewrite <- Z.mul_assoc, <- Z.pow_add_r by lia.
    replace (Zpos q + (e' + C)) with (e + C) by lia. assumption.
Qed.

End Below.

(* ================================================================== *)
(** ** Bounds on products and sums *)
(* ================================================================== *)

Local Close Scope float_scope.

Lemma huge_pos : 0 < huge.
Proof. unfold huge. apply Z.pow_pos_nonneg; lia. Qed.

(** A number of bounded value is a zero or finite. *)
Lemma bounded_cases (x : float) (A : Z) :
  is_nan x = false -> Z.abs (Fval x) <= A -> A < huge ->
  (exists s, Prim2SF x = S754_zero s)
  \/ (exists s m e, Prim2SF x = S754_finite s m e
        /\ valid_binary (S754_finite s m e) = true
        /\ Z.abs (Fval x) = Zpos m * 2 ^ (e + 1074)
        /\ (0 <= Fval x -> s = false) /\ (Fval x <= 0 -> s = true)).
Proof.
  intros N HA Hh. pose proof (Prim2SF_valid x) as V. pose proof huge_pos.
  rewrite is_nan_SFnan in N. unfold Fval in *.
  destruct (Prim2SF x) as [s|s| |s m e]; cbn [SFval SFnan] in *; try discriminate.
  - left. eauto.
  - exfalso. destruct s; lia.
  - right. exists s, m, e. split; [reflexivity|]. split; [assumption|].
    destruct (valid_finite s m e V) as (_ & He & _).
    assert (0 < Zpos m * 2 ^ (e + 1074))
      by (apply Z.mul_pos_pos; [lia|apply Z.pow_pos_nonneg; lia]).
    destruct s; repeat split; try lia; try reflexivity.
Qed.

(** A positive finite number, as a bound. *)
Lemma bound_cases (R : float) :
  is_nan R = false -> 0 < Fval R < huge ->
  exists mR eR,
    Prim2SF R = S754_finite false mR eR
    /\ eR = fexp64 (mag (Zpos mR) eR) /\ eR <= 971 /\ -1074 <= eR
    /\ Fval R = Zpos mR * 2 ^ (eR + 1074).
Proof.
  intros N H.
  destruct (bounded_cases R (Fval R) N ltac:(lia) ltac:(lia))
    as [[s E]|(s & m & e & E & V & Ha & S1 & _)].
  - unfold Fval in H. rewrite E in H. cbn in H. lia.
  - rewrite (S1 ltac:(lia)) in *. exists m, e. split; [assumption|].
    destruct (valid_finite false m e V) as (He & Hr & _).
    repeat split; try lia; try assumption.
Qed.

Lemma Fval_of_zero (x : float) (s : bool) : Prim2SF x = S754_zero s -> Fval x = 0.
Proof. unfold Fval. now intros ->. Qed.

(** The exponent of an exact product is never above the target exponent. *)
Lemma mul_exp_ok (sx sy : bool) (mx my : positive) (ex ey : Z) :
  valid_binary (S754_finite sx mx ex) = true ->
  valid_binary (S754_finite sy my ey) = true ->
  ex + ey <= fexp64 (mag (Zpos (mx * my)) (ex + ey)).
Proof.
  intros Vx Vy.
  destruct (valid_finite sx mx ex Vx) as (Ex & Rx & Dx & Nx).
  destruct (valid_finite sy my ey Vy) as (Ey & Ry & Dy & Ny).
  pose proof (Zdigits2_mul_ge (Zpos mx) (Zpos my) ltac:(lia) ltac:(lia)) as D.
  pose proof (Zdigits2_pos (Zpos mx) ltac:(lia)).
  pose proof (Zdigits2_pos (Zpos my) ltac:(lia)).
  rewrite Pos2Z.inj_mul. unfold mag. rewrite fexp64_eq.
  destruct (Z.eq_dec ex (-1074)) as [E1|E1], (Z.eq_dec ey (-1074)) as [E2|E2].
  - lia.
  - specialize (Ny ltac:(lia)). lia.
  - specialize (Nx ltac:(lia)). lia.
  - specialize (Nx ltac:(lia)). specialize (Ny ltac:(lia)). lia.
Qed.

(** The value of what rounding returned. *)
Lemma below_val (s : bool) (mR : positive) (eR : Z) (r : spec_float) :
  below s mR eR r ->
  SFnan r = false
  /\ Z.abs (SFval r) <= Zpos mR * 2 ^ (eR + 1074)
  /\ (s = false -> 0 <= SFval r) /\ (s = true -> SFval r <= 0).
Proof.
  assert (0 <= Zpos mR * 2 ^ (eR + 1074))
    by (apply Z.mul_nonneg_nonneg; [lia|apply Z.pow_nonneg; lia]).
  destruct r as [s'|s'| |s' m e]; cbn [below SFval SFnan]; try contradiction.
  - intros _. repeat split; lia.
  - intros (-> & He & Hv).
    assert (0 < Zpos m * 2 ^ (e + 1074))
      by (apply Z.mul_pos_pos; [lia|apply Z.pow_pos_nonneg; lia]).
    destruct s; repeat split; intros; try discriminate; lia.
Qed.

(** A product whose exact value does not exceed [R] in magnitude. *)
Lemma mul_below (x y R : float) (A B : Z) :
  is_nan x = false -> is_nan y = false ->
  Z.abs (Fval x) <= A -> Z.abs (Fval y) <= B -> A < huge -> B < huge ->
  is_nan R = false -> 0 < Fval R < huge ->
  A * B <= Fval R * 2 ^ 1074 ->
  is_nan (PrimFloat.mul x y) = false
  /\ Z.abs (Fval (PrimFloat.mul x y)) <= Fval R
  /\ (0 <= Fval x -> 0 <= Fval y -> 0 <= Fval (PrimFloat.mul x y))
  /\ (0 <= Fval x -> Fval y <= 0 -> Fval (PrimFloat.mul x y) <= 0)
  /\ (Fval x <= 0 -> 0 <= Fval y -> Fval (PrimFloat.mul x y) <= 0).
Proof.
  intros Nx Ny HA HB HAh HBh NR HR HAB.
  destruct (bound_cases R NR HR) as (mR & eR & ER & CR & LR & GR & VR).
  assert (FP : Fval (PrimFloat.mul x y) = SFval (SFmul prec emax (Prim2SF x) (Prim2SF y)))
    by (unfold Fval; rewrite mul_spec; reflexivity).
  rewrite is_nan_SFnan, FP, mul_spec. unfold SF64mul. clear FP.
  destruct (bounded_cases x A Nx HA HAh) as [[sx Ex]|(sx & mx & ex & Ex & Vx & Ax & Px & Qx)];
  destruct (bounded_cases y B Ny HB HBh) as [[sy Ey]|(sy & my & ey & Ey & Vy & Ay & Py & Qy)];
    rewrite Ex, Ey; cbn [SFmul SFnan SFval]; try (repeat split; intros; lia).
  assert (Bl : below (xorb sx sy) mR eR
                 (binary_round_aux prec emax (xorb sx sy) (Zpos (mx * my)) (ex + ey) loc_Exact)).
  { destruct (valid_finite sx mx ex Vx) as (_ & Rx & _).
    destruct (valid_finite sy my ey Vy) as (_ & Ry & _).
    apply (binary_round_aux_below prec emax prec64_pos emax64_ge2 ltac:(cbv; discriminate)
             (xorb sx sy) (Zpos (mx * my)) (ex + ey) mR eR 2148);
      [lia|apply (mul_exp_ok sx sy mx my ex ey Vx Vy)|exact CR
      |change (emax - prec) with 971; lia|lia|lia|].
    rewrite Pos2Z.inj_mul.
    replace (ex + ey + 2148) with ((ex + 1074) + (ey + 1074)) by lia.
    replace (eR + 2148) with ((eR + 1074) + 1074) by lia.
    rewrite (Z.pow_add_r 2 (ex + 1074) (ey + 1074)) by lia.
    rewrite (Z.pow_add_r 2 (eR + 1074) 1074) by lia.
    replace (Zpos mx * Zpos my * (2 ^ (ex + 1074) * 2 ^ (ey + 1074)))
      with ((Zpos mx * 2 ^ (ex + 1074)) * (Zpos my * 2 ^ (ey + 1074))) by ring.
    rewrite <- Ax, <- Ay. rewrite Z.mul_assoc, <- VR.
    apply Z.le_trans with (A * B); [|assumption].
    apply Z.mul_le_mono_nonneg; lia. }
  destruct (below_val _ _ _ _ Bl) as (N & Hv & S0 & S1). rewrite <- VR in Hv.
  split; [assumption|]. split; [assumption|].
  destruct (valid_finite sx mx ex Vx) as (_ & Rx & _).
  destruct (valid_finite sy my ey Vy) as (_ & Ry & _).
  assert (0 < Z.abs (Fval x))
    by (rewrite Ax; apply Z.mul_pos_pos; [lia|apply Z.pow_pos_nonneg; lia]).
  assert (0 < Z.abs (Fval y))
    by (rewrite Ay; apply Z.mul_pos_pos; [lia|apply Z.pow_pos_nonneg; lia]).
  repeat split; intros.
  - apply S0. rewrite Px, Py by lia. reflexivity.
  - apply S1. rewrite Px, Qy by lia. reflexivity.
  - apply S1. rewrite Qx, Py by lia. reflexivity.
Qed.

(** A sum whose exact value does not exceed [R] in magnitude. *)
Lemma add_below (x y R : float) (A B : Z) :
  is_nan x = false -> is_nan y = false ->
  Z.abs (Fval x) <= A -> Z.abs (Fval y) <= B -> A < huge -> B < huge ->
  is_nan R = false -> 0 < Fval R < huge ->
  Z.abs (Fval x + Fval y) <= Fval R ->
  is_nan (PrimFloat.add x y) = false
  /\ Z.abs (Fval (PrimFloat.add x y)) <= Fval R
  /\ (0 <= Fval x + Fval y -> 0 <= Fval (PrimFloat.add x y))
  /\ (Fval x + Fval y <= 0 -> Fval (PrimFloat.add x y) <= 0).
Proof.
  intros Nx Ny HA HB HAh HBh NR HR HS.
  destruct (bound_cases R NR HR) as (mR & eR & ER & CR & LR & GR & VR).
  assert (FP : Fval (PrimFloat.add x y) = SFval (SFadd prec emax (Prim2SF x) (Prim2SF y)))
    by (unfold Fval; rewrite add_spec; reflexivity).
  rewrite is_nan_SFnan, FP, add_spec. unfold SF64add. clear FP.
  destruct (bounded_cases x A Nx HA HAh) as [[sx Ex]|(sx & mx & ex & Ex & Vx & Ax & Px & Qx)];
  destruct (bounded_cases y B Ny HB HBh) as [[sy Ey]|(sy & my & ey & Ey & Vy & Ay & Py & Qy)].
  - rewrite Ex, Ey. destruct sx, sy; cbn; repeat split; intros; lia.
  - rewrite (Fval_of_zero x sx Ex) in *. rewrite Ex, Ey. cbn [SFadd].
    rewrite <- Ey. fold (Fval y). rewrite <- is_nan_SFnan. cbn [Z.add] in *.
    repeat split; try assumption; intros; lia.
  - rewrite (Fval_of_zero y sy Ey) in *. rewrite Ex, Ey. cbn [SFadd].
    rewrite <- Ex. fold (Fval x). rewrite <- is_nan_SFnan. rewrite Z.add_0_r in *.
    repeat split; try assumption; intros; lia.
  - destruct (valid_finite sx mx ex Vx) as (_ & Rx & _).
    destruct (valid_finite sy my ey Vy) as (_ & Ry & _).
    assert (Fx : Fval x = cond_Zopp sx (Zpos mx * 2 ^ (ex + 1074))).
    { unfold Fval. rewrite Ex. destruct sx; reflexivity. }
    assert (Fy : Fval y = cond_Zopp sy (Zpos my * 2 ^ (ey + 1074))).
    { unfold Fval. rewrite Ey. destruct sy; reflexivity. }
    rewrite Ex, Ey. cbn [SFadd]. cbv zeta.
    set (ez := Z.min ex ey).
    rewrite !shl_align_fst by (unfold ez; lia).
    set (S := cond_Zopp sx (Zpos mx * 2 ^ (ex - ez)) + cond_Zopp sy (Zpos my * 2 ^ (ey - ez))).
    assert (HSv : S * 2 ^ (ez + 1074) = Fval x + Fval y).
    { unfold S. rewrite Fx, Fy, Z.mul_add_distr_r.
      replace (ex + 1074) with ((ex - ez) + (ez + 1074)) by lia.
      replace (ey + 1074) with ((ey - ez) + (ez + 1074)) by lia.
      rewrite (Z.pow_add_r 2 (ex - ez) (ez + 1074)) by (unfold ez; lia).
      rewrite (Z.pow_add_r 2 (ey - ez) (ez + 1074)) by (unfold ez; lia).
      destruct sx, sy; cbn [cond_Zopp]; ring. }
    assert (Pz : 0 < 2 ^ (ez + 1074)) by (apply Z.pow_pos_nonneg; unfold ez; lia).
    destruct S as [|p|p] eqn:ES; cbn [binary_normalize].
    + cbn [SFnan SFval]. repeat split; intros; lia.
    + assert (Bl : below false mR eR (binary_round prec emax false p ez)).
      { apply (binary_round_below prec emax prec64_pos emax64_ge2 ltac:(cbv; discriminate)
                 false p ez mR eR 1074);
          [exact CR|change (emax - prec) with 971; lia|lia|unfold ez; lia|].
        rewrite HSv, <- VR. lia. }
      destruct (below_val _ _ _ _ Bl) as (N & Hv & S0 & S1). rewrite <- VR in Hv.
      repeat split; try assumption; intros; [apply S0; reflexivity|].
      assert (0 < Zpos p * 2 ^ (ez + 1074)) by (apply Z.mul_pos_pos; lia). lia.
    + assert (Bl : below true mR eR (binary_round prec emax true p ez)).
      { apply (binary_round_below prec emax prec64_pos emax64_ge2 ltac:(cbv; discriminate)
                 true p ez mR eR 1074);
          [exact CR|change (emax - prec) with 971; lia|lia|unfold ez; lia|].
        rewrite <- VR. replace (Zpos p * 2 ^ (ez + 1074)) with (- (Zneg p * 2 ^ (ez + 1074)))
            by lia. rewrite HSv. lia. }
      destruct (below_val _ _ _ _ Bl) as (N & Hv & S0 & S1). rewrite <- VR in Hv.
      repeat split; try assumption; intros; [|apply S1; reflexivity].
      assert (Zneg p * 2 ^ (ez + 1074) < 0) by (apply Z.mul_neg_pos; lia). lia.
Qed.

Lemma sub_add_opp (x y : float) : PrimFloat.sub x y = PrimFloat.add x (PrimFloat.opp y).
Proof.
  apply Prim2SF_inj. rewrite sub_spec, add_spec, opp_spec. apply SFsub_add_opp.
Qed.

(** The integer part of a number of bounded value. *)
Lemma truncZ_val (x : float) :
  is_nan x = false -> Z.abs (Fval x) < huge ->
  truncZ x = Z.sgn (Fval x) * (Z.abs (Fval x) / 2 ^ 1074).
Proof.
  intros N H.
  destruct (bounded_cases x (Z.abs (Fval x)) N ltac:(lia) H)
    as [[s E]|(s & m & e & E & V & Ha & P & Q)].
  - unfold truncZ. rewrite (Fval_of_zero x s E), E. reflexivity.
  - destruct (valid_finite s m e V) as (_ & Re & _).
    assert (Pp : 0 < Zpos m * 2 ^ (e + 1074))
      by (apply Z.mul_pos_pos; [lia|apply Z.pow_pos_nonneg; lia]).
    assert (Hq : Z.abs (Fval x) / 2 ^ 1074
                 = if 0 <=? e then Zpos m * 2 ^ e else Zpos m / 2 ^ (- e)).
    { rewrite Ha. destruct (Z.leb_spec 0 e) as [He|He].
      - rewrite Z.pow_add_r, Z.mul_assoc by lia. apply Z.div_mul.
        apply Z.pow_nonzero; lia.
      - replace 1074 with ((e + 1074) + (- e)) at 2 by lia.
        rewrite (Z.pow_add_r 2 (e + 1074) (- e)) by lia.
        rewrite (Z.mul_comm (2 ^ (e + 1074))).
        apply Z.div_mul_cancel_r; apply Z.pow_nonzero; lia. }
    rewrite Hq. unfold truncZ. rewrite E. cbn [SFtrunc].
    assert (Fx : Fval x = if s then - (Zpos m * 2 ^ (e + 1074)) else Zpos m * 2 ^ (e + 1074)).
    { unfold Fval. rewrite E. reflexivity. }
    destruct s; rewrite Fx.
    + rewrite (Z.sgn_neg (- _)) by lia. lia.
    + rewrite Z.sgn_pos by lia. lia.
Qed.

(* ================================================================== *)
(** ** Further properties: prefixes, length mismatches, fades *)
(* ================================================================== *)

Local Open Scope float_scope.

(** *** generateNoise: a shorter run is a prefix of a longer one *)

Lemma white_loop_prefix (n k : nat) (rng : SeededRandom) :
  firstn n (white_loop (n + k) rng) = white_loop n rng.
Proof.
  revert rng. induction n as [|n IH]; intros rng; [reflexivity|].
  cbn [Nat.add white_loop]. destruct (random rng) as [u rng'].
  cbn [firstn]. now rewrite IH.
Qed.

Lemma brown_loop_prefix (n k : nat) (rng : SeededRandom) (lastOut : float) :
  firstn n (brown_loop (n + k) rng lastOut) = brown_loop n rng lastOut.
Proof.
  revert rng lastOut. induction n as [|n IH]; intros rng lastOut; [reflexivity|].
  cbn [Nat.add brown_loop]. destruct (random rng) as [u rng'].
  cbn [firstn]. now rewrite IH.
Qed.

Lemma pink_loop_prefix (n k : nat) (rng : SeededRandom) (st : PinkState) :
  firstn n (pink_loop (n + k) rng st) = pink_loop n rng st.
Proof.
  revert rng st. induction n as [|n IH]; intros rng st; [reflexivity|].
  cbn [Nat.add pink_loop]. destruct (random rng) as [u rng'].
  destruct (pink_step st (u * 2 - 1)) as [out st'].
  cbn [firstn]. now rewrite IH.
Qed.

(** X1. Two runs of [generateNoise] with the same type, sample rate and seed
    (and the same entropy when no seed is given) agree on their common part:
    the shorter buffer is a prefix of the longer one, whatever the two
    durations are. *)
Theorem generateNoise_prefix :
  forall (entropy : float) (type : string) (d1 d2 sampleRate : float)
         (seed : option float) (short long : list float),
    generateNoise entropy type d1 sampleRate seed = inr short ->
    generateNoise entropy type d2 sampleRate seed = inr long ->
    (List.length short <= List.length long)%nat ->
    firstn (List.length short) long = short.
Proof.
  intros entropy type d1 d2 sampleRate seed short long.
  unfold generateNoise.
  destruct (ToIndex (Math_floor (d1 * sampleRate))) as [n1|]; [|discriminate].
  destruct (ToIndex (Math_floor (d2 * sampleRate))) as [n2|]; [|discriminate].
  destruct (String.eqb type "white");
    [|destruct (String.eqb type "brown"); [|destruct (String.eqb type "pink")]];
    try discriminate; intros [= <-] [= <-].
  - rewrite !white_loop_length. intros H.
    replace n2 with (n1 + (n2 - n1))%nat by lia. apply white_loop_prefix.
  - rewrite !brown_loop_length. intros H.
    replace n2 with (n1 + (n2 - n1))%nat by lia. apply brown_loop_prefix.
  - rewrite !pink_loop_length. intros H.
    replace n2 with (n1 + (n2 - n1))%nat by lia. apply pink_loop_prefix.
Qed.

Lemma generateNoise_prefix_witness :
  firstn 2 (pink_loop 5 7 pink_init) = pink_loop 2 7 pink_init.
Proof.
  apply (generateNoise_prefix 0 "pink" 1 2.5 2 (Some 7)
           (pink_loop 2 7 pink_init) (pink_loop 5 7 pink_init)).
  - vm_compute. reflexivity.
  - vm_compute. reflexivity.
  - vm_compute. lia.
Defined.

(** *** mixAmbientLayers: layers and bases of different lengths *)

Lemma mapi_from_ext {A B : Type} (f g : nat -> A -> B) (l : list A) (k : nat) :
  (forall i x, (k <= i < k + List.length l)%nat -> f i x = g i x) ->
  mapi_from f k l = mapi_from g k l.
Proof.
  revert k. induction l as [|a l IH]; intros k H; [reflexivity|].
  cbn [mapi_from]. f_equal.
  - apply H. cbn [List.length]. lia.
  - apply IH. intros i x Hi. apply H. cbn [List.length]. lia.
Qed.

Lemma mapi_ext {A B : Type} (f g : nat -> A -> B) (l : list A) :
  (forall i x, (i < List.length l)%nat -> f i x = g i x) -> mapi f l = mapi g l.
Proof. intros H. apply mapi_from_ext. intros i x Hi. apply H. lia. Qed.

Lemma get_firstn (buf : list float) (n i : nat) :
  (i < n)%nat -> get (firstn n buf) i = get buf i.
Proof.
  unfold get. revert n i. induction buf as [|x t IH]; intros n i Hi.
  - rewrite firstn_nil. reflexivity.
  - destruct n as [|n]; [lia|]. destruct i as [|i]; [reflexivity|].
    cbn [firstn nth]. apply IH. lia.
Qed.

Lemma get_agree (b b' : list float) (n i : nat) :
  firstn n b = firstn n b' -> (i < n)%nat -> get b i = get b' i.
Proof.
  intros E Hi. rewrite <- (get_firstn b n i Hi), <- (get_firstn b' n i Hi).
  now rewrite E.
Qed.

Lemma fold_add_layer_agree (layerLevel : float) (count : nat)
    (layers layers' : list AmbientLayerResult) (mixed : list float) :
  Forall2 (fun l l' => firstn (List.length mixed) (buffer l)
                       = firstn (List.length mixed) (buffer l')) layers layers' ->
  fold_left (add_layer layerLevel count) layers mixed
  = fold_left (add_layer layerLevel count) layers' mixed.
Proof.
  revert layers' mixed.
  induction layers as [|l ls IH]; intros layers' mixed H;
    inversion H as [|? l' ? ls' E T]; subst; [reflexivity|].
  cbn [fold_left].
  assert (A : add_layer layerLevel count mixed l = add_layer layerLevel count mixed l').
  { unfold add_layer. apply mapi_ext. intros i x Hi.
    now rewrite (get_agree _ _ _ i E Hi). }
  rewrite <- A. apply IH. rewrite add_layer_length. exact T.
Qed.

(** X2. The mix depends only on the first [baseNoise.length] samples of each
    layer: samples of a layer beyond the length of the base are dropped. *)
Theorem mixAmbientLayers_ignores_excess :
  forall (Math_tanh : float -> float) (baseNoise : list float)
         (layers layers' : list AmbientLayerResult) (baseLevel layerLevel : float),
    Forall2 (fun l l' => firstn (List.length baseNoise) (buffer l)
                         = firstn (List.length baseNoise) (buffer l')) layers layers' ->
    mixAmbientLayers Math_tanh baseNoise layers baseLevel layerLevel
    = mixAmbientLayers Math_tanh baseNoise layers' baseLevel layerLevel.
Proof.
  intros Math_tanh baseNoise layers layers' baseLevel layerLevel H.
  unfold mixAmbientLayers, premix. f_equal.
  rewrite (Forall2_length H). apply fold_add_layer_agree.
  rewrite length_map. exact H.
Qed.

Lemma mixAmbientLayers_ignores_excess_witness :
  mixAmbientLayers clamp [0.5; 0.25] [mkLayer "pacific_rain" [0.125; 0.5; 1; 1] "rain"] 0.7 0.3
  = mixAmbientLayers clamp [0.5; 0.25] [mkLayer "pacific_rain" [0.125; 0.5] "rain"] 0.7 0.3.
Proof.
  apply mixAmbientLayers_ignores_excess.
  constructor; [reflexivity|constructor].
Defined.

(** NaN spreads through the arithmetic of the mixer. *)
Lemma is_nan_add_l (x y : float) : is_nan x = true -> is_nan (x + y) = true.
Proof.
  rewrite !is_nan_SFnan, add_spec. destruct (Prim2SF x); try discriminate. reflexivity.
Qed.

Lemma is_nan_add_r (x y : float) : is_nan y = true -> is_nan (x + y) = true.
Proof.
  rewrite !is_nan_SFnan, add_spec.
  destruct (Prim2SF y); try discriminate. destruct (Prim2SF x); reflexivity.
Qed.

Lemma is_nan_mul_l (x y : float) : is_nan x = true -> is_nan (x * y) = true.
Proof.
  rewrite !is_nan_SFnan, mul_spec. destruct (Prim2SF x); try discriminate. reflexivity.
Qed.

Lemma is_nan_fround (x : float) : is_nan x = true -> is_nan (Math_fround x) = true.
Proof. intros H. rewrite (Prim2SF_nan x H). reflexivity. Qed.

Lemma add_layer_nth (layerLevel : float) (count : nat) (mixed : list float)
    (layer : AmbientLayerResult) (i : nat) :
  (i < List.length mixed)%nat ->
  nth i (add_layer layerLevel count mixed layer) 0
  = Math_fround (nth i mixed 0
                 + get (buffer layer) i * (layerLevel / Z2F (Z.of_nat count))).
Proof. intros H. unfold add_layer. cbv zeta. now rewrite (mapi_nth _ mixed i 0 0 H). Qed.

Lemma fold_add_layer_nan (layerLevel : float) (count : nat)
    (layers : list AmbientLayerResult) (mixed : list float) (i : nat) :
  (i < List.length mixed)%nat ->
  is_nan (nth i mixed 0) = true
  \/ (exists layer, In layer layers /\ (List.length (buffer layer) <= i)%nat) ->
  is_nan (nth i (fold_left (add_layer layerLevel count) layers mixed) 0) = true.
Proof.
  revert mixed. induction layers as [|l ls IH]; intros mixed Hi H.
  - destruct H as [H|(layer & [] & _)]. exact H.
  - cbn [fold_left]. apply IH; [now rewrite add_layer_length|].
    destruct H as [H|(layer & [<-|Hin] & Hlen)].
    + left. rewrite add_layer_nth by assumption.
      apply is_nan_fround, is_nan_add_l. assumption.
    + left. rewrite add_layer_nth by assumption.
      apply is_nan_fround, is_nan_add_r, is_nan_mul_l.
      unfold get. rewrite nth_overflow by assumption. reflexivity.
    + right. eauto.
Qed.

(** X3. When a layer's buffer is shorter than the base, every sample of the
    mix at an index the layer does not have is NaN, whatever the other layers
    and the levels are. *)
Theorem mixAmbientLayers_short_layer :
  forall (Math_tanh : float -> float) (baseNoise : list float)
         (layers : list AmbientLayerResult) (baseLevel layerLevel : float)
         (layer : AmbientLayerResult) (i : nat),
    In layer layers ->
    (List.length (buffer layer) <= i < List.length baseNoise)%nat ->
    is_nan (nth i (mixAmbientLayers Math_tanh baseNoise layers baseLevel layerLevel) 0)
    = true.
Proof.
  intros Math_tanh baseNoise layers baseLevel layerLevel layer i Hin [Hlo Hhi].
  unfold mixAmbientLayers.
  assert (Hp : (i < List.length (premix baseNoise layers baseLevel layerLevel))%nat)
    by (rewrite premix_length; assumption).
  rewrite (map_nth_in _ _ i 0 0 Hp).
  assert (N : is_nan (nth i (premix baseNoise layers baseLevel layerLevel) 0) = true).
  { unfold premix. apply fold_add_layer_nan; [now rewrite length_map|].
    right. exists layer. split; assumption. }
  rewrite soft_limit_under; [assumption|].
  apply ltb_nan_r. now rewrite is_nan_abs.
Qed.

Lemma mixAmbientLayers_short_layer_witness :
  is_nan (nth 2 (mixAmbientLayers clamp [0.5; 0.25; 0.125]
                   [mkLayer "pacific_rain" [0.25; 0.5; 0.75] "rain";
                    mkLayer "pacific_birds" [0.5; 0.5] "birds"] 0.7 0.3) 0) = true.
Proof.
  apply (mixAmbientLayers_short_layer clamp [0.5; 0.25; 0.125] _ 0.7 0.3
           (mkLayer "pacific_birds" [0.5; 0.5] "birds") 2).
  - right. left. reflexivity.
  - cbn. lia.
Defined.

(* ================================================================== *)
(** ** Further properties: fades and containers *)
(* ================================================================== *)

Local Open Scope float_scope.

(** *** applyEnvelope away from the fades *)

Lemma mapi_fixed {A : Type} (f : nat -> A -> A) (l : list A) (d : A) :
  (forall i, (i < List.length l)%nat -> f i (nth i l d) = nth i l d) -> mapi f l = l.
Proof.
  intros H. apply (nth_ext _ _ d d); [apply mapi_length|].
  intros i Hi. rewrite mapi_length in Hi. rewrite (mapi_nth f l i d d Hi). now apply H.
Qed.

(** [floor(0 * sampleRate)] is a zero or NaN. *)
Lemma floor_zero_mul (sampleRate : float) :
  (exists s, Prim2SF (Math_floor (0 * sampleRate)) = S754_zero s)
  \/ is_nan (Math_floor (0 * sampleRate)) = true.
Proof.
  assert (H : (exists s, Prim2SF (0 * sampleRate) = S754_zero s)
              \/ Prim2SF (0 * sampleRate) = S754_nan).
  { rewrite mul_spec. change (Prim2SF 0) with (S754_zero false). apply SFmul_zero_l. }
  rewrite Math_floor_not_finite.
  - destruct H as [H|H]; [left; exact H|right]. rewrite is_nan_SFnan, H. reflexivity.
  - destruct H as [[s H]|H]; rewrite H; discriminate.
Qed.

(** With fade lengths that are zeros or NaN the gain is 1 everywhere. *)
Lemma envelope_gain_no_fade (len i : nat) (zin zout : float) :
  (exists s, Prim2SF zin = S754_zero s) \/ is_nan zin = true ->
  (exists s, Prim2SF zout = S754_zero s) \/ is_nan zout = true ->
  (i < len)%nat -> (Z.of_nat len < 2 ^ 53)%Z ->
  envelope_gain len zin zout i = 1.
Proof.
  intros Hin Hout Hi Hlen. unfold envelope_gain. cbv zeta.
  assert (A : (Z2F (Z.of_nat i) <? zin) = false).
  { destruct Hin as [[s E]|N]; [|now apply ltb_nan_r].
    rewrite ltb_spec, E. destruct (Z.eq_dec (Z.of_nat i) 0) as [->|Ni]; [reflexivity|].
    rewrite Prim2SF_Z2F_pos by lia. reflexivity. }
  assert (B : (Z2F (Z.of_nat len) - zout <=? Z2F (Z.of_nat i)) = false).
  { destruct Hout as [[s E]|N].
    - assert (S : Z2F (Z.of_nat len) - zout = Z2F (Z.of_nat len)).
      { apply Prim2SF_inj. rewrite sub_spec, E, Prim2SF_Z2F_pos by lia. reflexivity. }
      rewrite S, Z2F_leb by lia. apply Z.leb_gt. lia.
    - apply leb_nan_l. rewrite is_nan_SFnan, sub_spec.
      rewrite is_nan_SFnan in N. destruct (Prim2SF zout); try discriminate.
      destruct (Prim2SF (Z2F (Z.of_nat len))); reflexivity. }
  rewrite A, B. reflexivity.
Qed.

(** X4. With both fades at zero seconds (the defaults), [applyEnvelope] returns
    the samples of the buffer unchanged, whatever the sample rate is. *)
Theorem applyEnvelope_no_fade :
  forall (buffer : list float) (sampleRate : float),
    Forall is_float32 buffer -> (Z.of_nat (List.length buffer) < 2 ^ 53)%Z ->
    applyEnvelope buffer 0 0 sampleRate = buffer.
Proof.
  intros buffer sampleRate F Hlen. unfold applyEnvelope.
  apply (mapi_fixed _ buffer 0). intros i Hi.
  rewrite envelope_gain_no_fade by (try apply floor_zero_mul; assumption).
  rewrite mul_1_r. rewrite Forall_forall in F. apply F. apply nth_In. assumption.
Qed.

Lemma applyEnvelope_no_fade_witness :
  applyEnvelope [0.5; -0.25; 1] 0 0 44100 = [0.5; -0.25; 1].
Proof.
  apply applyEnvelope_no_fade.
  - repeat constructor; vm_compute; reflexivity.
  - cbn [List.length]. lia.
Defined.

(** X5. With fades of [n_in] and [n_out] whole samples, every sample at an
    index from [n_in] up to (not including) [length - n_out] is passed through
    unchanged (stored in single precision). *)
Theorem applyEnvelope_middle :
  forall (buffer : list float) (fadeInSec fadeOutSec sampleRate : float)
         (n_in n_out : Z) (i : nat),
    (Z.of_nat (List.length buffer) < 2 ^ 53)%Z ->
    Math_floor (fadeInSec * sampleRate) = Z2F n_in -> (0 <= n_in < 2 ^ 53)%Z ->
    Math_floor (fadeOutSec * sampleRate) = Z2F n_out -> (0 <= n_out < 2 ^ 53)%Z ->
    (n_in <= Z.of_nat i < Z.of_nat (List.length buffer) - n_out)%Z ->
    nth i (applyEnvelope buffer fadeInSec fadeOutSec sampleRate) 0
    = Math_fround (nth i buffer 0).
Proof.
  intros buffer fadeInSec fadeOutSec sampleRate n_in n_out i Hlen Ein Hin Eout Hout Hi.
  unfold applyEnvelope. rewrite Ein, Eout.
  rewrite (mapi_nth _ buffer i 0 0) by lia. f_equal.
  unfold envelope_gain. cbv zeta.
  rewrite Z2F_ltb by lia. destruct (Z.ltb_spec (Z.of_nat i) n_in) as [|_]; [lia|].
  rewrite Z2F_sub, Z2F_leb by lia.
  destruct (Z.leb_spec (Z.of_nat (List.length buffer) - n_out) (Z.of_nat i)) as [|_]; [lia|].
  apply mul_1_r.
Qed.

Lemma applyEnvelope_middle_witness :
  nth 2 (applyEnvelope [1; 0.5; -0.5; 0.25; 1] 1 1 2) 0 = Math_fround (-0.5).
Proof.
  apply (applyEnvelope_middle [1; 0.5; -0.5; 0.25; 1] 1 1 2 2 2 2);
    try (vm_compute; reflexivity); cbn [List.length]; lia.
Defined.

(** *** writeWav for any channel count and rate *)

Lemma writeUIntLE_whole (width : nat) (buf : list Z) (k : Z) (offset : nat) :
  (Z.of_nat width <= 4)%Z -> (- 2 ^ 53 < k < 2 ^ 53)%Z ->
  writeUIntLE width buf (Z2F k) offset
  = if ((0 <=? k) && (k <=? 2 ^ (8 * Z.of_nat width) - 1))%Z
    then inr (splice buf offset (le_bytes width k))
    else inl RangeError.
Proof.
  intros Hw Hk. unfold writeUIntLE.
  assert (B : (2 ^ (8 * Z.of_nat width) <= 2 ^ 32)%Z) by (apply Z.pow_le_mono_r; lia).
  assert (P : (0 < 2 ^ (8 * Z.of_nat width))%Z) by (apply Z.pow_pos_nonneg; lia).
  change (2 ^ 32)%Z with 4294967296%Z in B.
  assert (T : (2 ^ 53 = 9007199254740992)%Z) by reflexivity.
  change 0 with (Z2F 0).
  rewrite !Z2F_ltb by lia. rewrite truncZ_Z2F by lia.
  destruct (Z.ltb_spec (2 ^ (8 * Z.of_nat width) - 1) k),
    (Z.ltb_spec k 0), (Z.leb_spec 0 k), (Z.leb_spec k (2 ^ (8 * Z.of_nat width) - 1));
    try lia; reflexivity.
Qed.

Lemma float32ToPCM_length (buffer : list float) (channels : float) :
  List.length (float32ToPCM buffer channels) = (2 * List.length buffer)%nat.
Proof. apply flat_map_pair_length. reflexivity. Qed.

(** The bytes handed to [writeFileSync], or the failure, for whole numbers
    [R] and [c]. *)
Lemma wav_bytes_whole (data : list float) (R c : Z) :
  (- 2 ^ 53 < R < 2 ^ 53)%Z -> (- 2 ^ 53 < c < 2 ^ 53)%Z ->
  (Z.of_nat (List.length data) < 2 ^ 51)%Z ->
  wav_bytes data (Z2F R) (Z2F c)
  = if ((2 * Z.of_nat (List.length data) + 36 <=? 2 ^ 32 - 1)
        && (0 <=? c) && (c <=? 32767)
        && (0 <=? R) && (R <=? 2 ^ 32 - 1) && (R * (c * 2) <=? 2 ^ 32 - 1))%Z
    then
      inr ([82; 73; 70; 70]%Z
           ++ le_bytes 4 (2 * Z.of_nat (List.length data) + 36)
           ++ [87; 65; 86; 69; 102; 109; 116; 32]%Z
           ++ le_bytes 4 16 ++ le_bytes 2 1 ++ le_bytes 2 c
           ++ le_bytes 4 R ++ le_bytes 4 (R * (c * 2)) ++ le_bytes 2 (c * 2)
           ++ le_bytes 2 16
           ++ [100; 97; 116; 97]%Z
           ++ le_bytes 4 (2 * Z.of_nat (List.length data))
           ++ float32ToPCM data (Z2F c))
    else inl RangeError.
Proof.
  intros HR Hc HN. unfold wav_bytes. cbv zeta.
  pose proof (float32ToPCM_length data (Z2F c)) as L.
  set (pcm := float32ToPCM data (Z2F c)) in *.
  assert (LZ : Z.of_nat (List.length pcm) = (2 * Z.of_nat (List.length data))%Z)
    by (rewrite L; lia).
  rewrite LZ.
  assert (P16 : (2 ^ 16 = 65536)%Z) by reflexivity.
  assert (P32 : (2 ^ 32 = 4294967296)%Z) by reflexivity.
  assert (P51 : (2 ^ 51 = 2251799813685248)%Z) by reflexivity.
  assert (P53 : (2 ^ 53 = 9007199254740992)%Z) by reflexivity.
  assert (W4 : (8 * Z.of_nat 4 = 32)%Z) by reflexivity.
  assert (W2 : (8 * Z.of_nat 2 = 16)%Z) by reflexivity.
  change 16 with (Z2F 16). change 1 with (Z2F 1). change 2 with (Z2F 2).
  unfold writeUInt32LE, writeUInt16LE.
  replace (2 * Z.of_nat (List.length data) + 44 - 8)%Z
    with (2 * Z.of_nat (List.length data) + 36)%Z by lia.
  rewrite (writeUIntLE_whole 4 _ (2 * Z.of_nat (List.length data) + 36)) by lia.
  rewrite W4, P32.
  destruct (Z.leb_spec (2 * Z.of_nat (List.length data) + 36) (4294967296 - 1)) as [H1|H1];
    [|destruct (0 <=? _)%Z; reflexivity].
  destruct (Z.leb_spec 0 (2 * Z.of_nat (List.length data) + 36)) as [_|]; [|lia].
  cbn [andb bind].
  rewrite (writeUIntLE_ok 4 _ 16) by (rewrite ?W4; lia). cbn [bind].
  rewrite (writeUIntLE_ok 2 _ 1) by (rewrite ?W2; lia). cbn [bind].
  rewrite (writeUIntLE_whole 2 _ c) by lia. rewrite W2, P16.
  destruct (Z.leb_spec 0 c) as [H2|H2]; [|reflexivity].
  destruct (Z.leb_spec c (65536 - 1)) as [H3|H3];
    [|destruct (Z.leb_spec c 32767); [lia|reflexivity]].
  cbn [andb bind].
  rewrite (writeUIntLE_whole 4 _ R) by lia. rewrite W4, P32.
  destruct (Z.leb_spec 0 R) as [H4|H4];
    [|destruct (c <=? 32767)%Z; reflexivity].
  destruct (Z.leb_spec R (4294967296 - 1)) as [H5|H5];
    [|destruct (c <=? 32767)%Z; reflexivity].
  cbn [andb bind].
  rewrite (Z2F_mul c 2) by lia.
  assert (HB : (0 <= R * (c * 2) < 2 ^ 53)%Z) by nia.
  rewrite (Z2F_mul R (c * 2)) by lia.
  rewrite (writeUIntLE_whole 4 _ (R * (c * 2))) by lia. rewrite W4, P32.
  destruct (Z.leb_spec 0 (R * (c * 2))) as [_|]; [|lia].
  destruct (Z.leb_spec (R * (c * 2)) (4294967296 - 1)) as [H6|H6];
    [|destruct (c <=? 32767)%Z; reflexivity].
  cbn [andb bind].
  rewrite (writeUIntLE_whole 2 _ (c * 2)) by lia. rewrite W2, P16.
  destruct (Z.leb_spec 0 (c * 2)) as [_|]; [|lia].
  destruct (Z.leb_spec (c * 2) (65536 - 1)) as [H7|H7];
    destruct (Z.leb_spec c 32767) as [H8|H8]; try lia; [|reflexivity].
  cbn [andb bind].
  rewrite (writeUIntLE_ok 2 _ 16) by (rewrite ?W2; lia). cbn [bind].
  rewrite (writeUIntLE_whole 4 _ (2 * Z.of_nat (List.length data))) by lia.
  rewrite W4, P32.
  destruct (Z.leb_spec 0 (2 * Z.of_nat (List.length data))) as [_|]; [|lia].
  destruct (Z.leb_spec (2 * Z.of_nat (List.length data)) (4294967296 - 1)) as [_|]; [|lia].
  reflexivity.
Qed.

(** X6. For whole numbers [R] (sample rate) and [c] (channels), [writeWav]
    succeeds exactly when every header value fits its field: the sizes within 32
    bits, [0 <= c <= 32767], [0 <= R <= 2^32 - 1] and the byte rate [2cR] within
    32 bits.  It then stores a container of [44 + 2N] bytes for [N] samples whose
    fields record [c] channels, rate [R], byte rate [2cR], block align [2c], 16
    bits per sample and data size [2N], followed by the PCM bytes; every other
    path of the file system is left as it was.  Otherwise it throws a RangeError
    before anything is written. *)
Theorem writeWav_whole :
  forall (fs : FileSystem) (data : list float) (R c : Z) (outPath : string),
    (- 2 ^ 53 < R < 2 ^ 53)%Z -> (- 2 ^ 53 < c < 2 ^ 53)%Z ->
    (Z.of_nat (List.length data) < 2 ^ 51)%Z ->
    let N := Z.of_nat (List.length data) in
    let fits := (2 * N + 36 <= 2 ^ 32 - 1 /\ 0 <= c <= 32767
                 /\ 0 <= R <= 2 ^ 32 - 1 /\ R * (c * 2) <= 2 ^ 32 - 1)%Z in
    (fits ->
     exists (fs' : FileSystem) (wav : list Z),
       writeWav fs data (Z2F R) outPath (Z2F c) = inr fs'
       /\ fs' outPath = Some wav
       /\ (forall p, p <> outPath -> fs' p = fs p)
       /\ List.length wav = (44 + 2 * List.length data)%nat
       /\ field wav 4 4 = (36 + 2 * N)%Z
       /\ field wav 20 2 = 1%Z
       /\ field wav 22 2 = c
       /\ field wav 24 4 = R
       /\ field wav 28 4 = (R * (c * 2))%Z
       /\ field wav 32 2 = (c * 2)%Z
       /\ field wav 34 2 = 16%Z
       /\ field wav 40 4 = (2 * N)%Z
       /\ skipn 44 wav = float32ToPCM data (Z2F c))
    /\ (~ fits -> writeWav fs data (Z2F R) outPath (Z2F c) = inl RangeError).
Proof.
  intros fs data R c outPath HR Hc HN N fits.
  pose proof (wav_bytes_whole data R c HR Hc HN) as W. fold N in W.
  pose proof (float32ToPCM_length data (Z2F c)) as L.
  set (pcm := float32ToPCM data (Z2F c)) in *.
  assert (P16 : (2 ^ 16 = 65536)%Z) by reflexivity.
  assert (P32 : (2 ^ 32 = 4294967296)%Z) by reflexivity.
  unfold fits. unfold writeWav. split.
  - intros (F1 & F2 & F3 & F4).
    destruct (Z.leb_spec (2 * N + 36) (2 ^ 32 - 1)); [|lia].
    destruct (Z.leb_spec 0 c); [|lia]. destruct (Z.leb_spec c 32767); [|lia].
    destruct (Z.leb_spec 0 R); [|lia]. destruct (Z.leb_spec R (2 ^ 32 - 1)); [|lia].
    destruct (Z.leb_spec (R * (c * 2)) (2 ^ 32 - 1)); [|lia].
    cbn [andb] in W. rewrite W. cbn [bind].
    eexists. eexists. split; [reflexivity|].
    split; [unfold writeFileSync; rewrite String.eqb_refl; reflexivity|].
    split.
    { intros p Hp. unfold writeFileSync.
      destruct (String.eqb_spec p outPath); [contradiction|reflexivity]. }
    pose proof (le_decode_le_bytes4 (2 * N + 36)) as D1.
    pose proof (le_decode_le_bytes2 c) as D2.
    pose proof (le_decode_le_bytes4 R) as D3.
    pose proof (le_decode_le_bytes4 (R * (c * 2))) as D4.
    pose proof (le_decode_le_bytes2 (c * 2)) as D5.
    pose proof (le_decode_le_bytes4 (2 * N)) as D6.
    cbn [le_bytes map seq] in *.
    split; [cbn [List.length app]; rewrite L; lia|].
    unfold field. cbn [app firstn skipn].
    repeat split; try reflexivity.
    + rewrite D1 by lia. lia.
    + apply D2. lia.
    + apply D3. lia.
    + apply D4. nia.
    + apply D5. lia.
    + apply D6. lia.
  - intros NF.
    destruct (Z.leb_spec (2 * N + 36) (2 ^ 32 - 1)), (Z.leb_spec 0 c), (Z.leb_spec c 32767),
      (Z.leb_spec 0 R), (Z.leb_spec R (2 ^ 32 - 1)), (Z.leb_spec (R * (c * 2)) (2 ^ 32 - 1));
      cbn [andb] in W; rewrite W; cbn [bind]; try reflexivity.
    exfalso. apply NF. lia.
Qed.

Lemma writeWav_whole_witness :
  (exists (fs' : FileSystem) (wav : list Z),
     writeWav (fun _ => None) [0.5; 0.5; -1; -1] (Z2F 48000) "out.wav" (Z2F 2) = inr fs'
     /\ fs' "out.wav"%string = Some wav
     /\ List.length wav = 52%nat
     /\ field wav 22 2 = 2%Z
     /\ field wav 28 4 = 192000%Z
     /\ field wav 32 2 = 4%Z)
  /\ writeWav (fun _ => None) [0.5] (Z2F (-1)) "out.wav" (Z2F 1) = inl RangeError.
Proof.
  split.
  - destruct (writeWav_whole (fun _ => None) [0.5; 0.5; -1; -1] 48000 2 "out.wav")
      as [S _]; [lia|lia|cbn [List.length]; lia|].
    destruct S as (fs' & wav & H); [cbn [List.length]; lia|].
    exists fs', wav. decompose [and] H. repeat split; assumption.
  - destruct (writeWav_whole (fun _ => None) [0.5] (-1) 1 "out.wav")
      as [_ F]; [lia|lia|cbn [List.length]; lia|].
    apply F. cbn [List.length]. lia.
Defined.

(* ================================================================== *)
(** ** Further properties: the range of the samples *)
(* ================================================================== *)

Local Open Scope float_scope.

Ltac fval_side :=
  try reflexivity; try assumption;
  repeat match goal with
  | H : Fval ?c = _ |- context [Fval ?c] => rewrite H
  end;
  rewrite ?Fval_opp, ?Fval_one, ?Fval_zero, ?Fval_minus_one;
  try lia; try apply Z.le_refl.

(** Bounds as values. *)
Lemma leb_bounds (x : float) :
  (0 <=? x) = true -> (x <=? 1) = true ->
  is_nan x = false /\ (0 <= Fval x <= 2 ^ 1074)%Z.
Proof.
  intros A B. destruct (leb_true_not_nan _ _ A) as [_ N]. split; [assumption|].
  rewrite leb_val in A, B by trivial. apply Z.leb_le in A, B.
  rewrite Fval_zero in A. rewrite Fval_one in B. lia.
Qed.

Lemma pow1074_lt_huge : (2 ^ 1075 < huge)%Z.
Proof. unfold huge. apply Z.pow_lt_mono_r; lia. Qed.

(** Every draw lies in [0, 1]. *)
Lemma random_range (rng : SeededRandom) :
  is_nan (fst (random rng)) = false /\ (0 <= Fval (fst (random rng)) <= 2 ^ 1074)%Z.
Proof.
  unfold random. cbv zeta. cbn [fst]. rewrite bitand_mask31.
  pose proof (Z.mod_pos_bound (truncZ (rng * 1103515245 + 12345)) (2 ^ 31) ltac:(lia)) as B.
  destruct (state_quotient_range (truncZ (rng * 1103515245 + 12345) mod 2 ^ 31)
              ltac:(lia)) as [L U].
  apply leb_bounds; assumption.
Qed.

(** The white value [u * 2 - 1] of a draw [u]. *)
Lemma white_value_range (u : float) :
  is_nan u = false -> (0 <= Fval u <= 2 ^ 1074)%Z ->
  is_nan (u * 2 - 1) = false /\ (- 2 ^ 1074 <= Fval (u * 2 - 1) <= 2 ^ 1074)%Z.
Proof.
  intros N B. pose proof pow1074_lt_huge as HG.
  assert (P : (0 < 2 ^ 1074)%Z) by (apply Z.pow_pos_nonneg; lia).
  assert (P5 : (2 ^ 1075 = 2 * 2 ^ 1074)%Z)
    by (change 1075%Z with (Z.succ 1074); rewrite Z.pow_succ_r; lia).
  assert (F2 : Fval 2 = (2 ^ 1075)%Z).
  { change 2 with (Z2F 2). rewrite Fval_Z2F by lia. lia. }
  destruct (mul_below u 2 2 (2 ^ 1074) (2 ^ 1075)) as (N2 & M2 & S2 & _);
    [fval_side..|].
  specialize (S2 ltac:(lia) ltac:(rewrite F2; lia)). rewrite F2 in M2.
  rewrite sub_add_opp.
  destruct (add_below (u * 2) (PrimFloat.opp 1) 1 (2 ^ 1075) (2 ^ 1074)) as (N3 & M3 & _);
    [fval_side..|].
  rewrite Fval_one in M3. split; [assumption|lia].
Qed.

Lemma abs_leb_1_fround (t : float) :
  is_nan t = false -> (- 2 ^ 1074 <= Fval t <= 2 ^ 1074)%Z ->
  (abs (Math_fround t) <=? 1) = true.
Proof.
  intros N B. destruct (fround_bound t N B) as [Nf Bf]. apply abs_leb_1; assumption.
Qed.

Lemma white_loop_range (n : nat) (rng : SeededRandom) :
  Forall (fun x => (abs x <=? 1) = true) (white_loop n rng).
Proof.
  revert rng. induction n as [|n IH]; intros rng; [constructor|].
  cbn [white_loop]. pose proof (random_range rng) as [N B].
  destruct (random rng) as [u rng']. cbn [fst] in N, B.
  destruct (white_value_range u N B) as [Nw Bw].
  constructor; [apply abs_leb_1_fround; assumption|apply IH].
Qed.

(** Clamping a number. *)
Lemma clamp_range (t : float) :
  is_nan t = false ->
  is_nan (clamp t) = false /\ (- 2 ^ 1074 <= Fval (clamp t) <= 2 ^ 1074)%Z.
Proof.
  intros N. assert (P : (0 < 2 ^ 1074)%Z) by (apply Z.pow_pos_nonneg; lia).
  unfold clamp. rewrite !ltb_val by trivial. rewrite Fval_one, Fval_minus_one.
  destruct (Z.ltb_spec (Fval t) (- 2 ^ 1074)).
  - rewrite Fval_minus_one. split; [reflexivity|lia].
  - destruct (Z.ltb_spec (2 ^ 1074) (Fval t)).
    + rewrite Fval_one. split; [reflexivity|lia].
    + split; [assumption|lia].
Qed.

(** One step of the brown filter keeps its state a number in [-1, 1]. *)
Lemma brown_step_range (lastOut w : float) :
  is_nan lastOut = false -> (- 2 ^ 1074 <= Fval lastOut <= 2 ^ 1074)%Z ->
  is_nan w = false -> (- 2 ^ 1074 <= Fval w <= 2 ^ 1074)%Z ->
  let out := Math_max (-1) (Math_min 1 ((lastOut + 0.02 * w) * 0.98)) in
  is_nan out = false /\ (- 2 ^ 1074 <= Fval out <= 2 ^ 1074)%Z.
Proof.
  intros Nl Bl Nw Bw out. unfold out. rewrite Math_clamp. apply clamp_range.
  pose proof pow1074_lt_huge as HG.
  assert (P : (0 < 2 ^ 1074)%Z) by (apply Z.pow_pos_nonneg; lia).
  assert (P5 : (2 ^ 1075 = 2 * 2 ^ 1074)%Z)
    by (change 1075%Z with (Z.succ 1074); rewrite Z.pow_succ_r; lia).
  assert (F2 : Fval 2 = (2 ^ 1075)%Z).
  { change 2 with (Z2F 2). rewrite Fval_Z2F by lia. lia. }
  assert (C1 : (0 <= Fval 0.02 <= 2 ^ 1074)%Z)
    by (split; apply Z.leb_le; vm_compute; reflexivity).
  assert (C2 : (0 <= Fval 0.98 <= 2 ^ 1074)%Z)
    by (split; apply Z.leb_le; vm_compute; reflexivity).
  pose proof Fval_one as F1.
  destruct (mul_below 0.02 w 1 (2 ^ 1074) (2 ^ 1074)) as (N1 & M1 & _);
    [fval_side..|].
  rewrite F1 in M1.
  destruct (add_below lastOut (0.02 * w) 2 (2 ^ 1074) (2 ^ 1074)) as (N2 & M2 & _);
    [fval_side..|].
  rewrite F2 in M2.
  destruct (mul_below (lastOut + 0.02 * w) 0.98 2 (2 ^ 1075) (2 ^ 1074)) as (N3 & _);
    [fval_side..|].
  assumption.
Qed.

Lemma brown_loop_range (n : nat) (rng : SeededRandom) (lastOut : float) :
  is_nan lastOut = false -> (- 2 ^ 1074 <= Fval lastOut <= 2 ^ 1074)%Z ->
  Forall (fun x => (abs x <=? 1) = true) (brown_loop n rng lastOut).
Proof.
  revert rng lastOut. induction n as [|n IH]; intros rng lastOut Nl Bl; [constructor|].
  cbn [brown_loop]. pose proof (random_range rng) as [N B].
  destruct (random rng) as [u rng']. cbn [fst] in N, B. cbv zeta.
  destruct (white_value_range u N B) as [Nw Bw].
  destruct (brown_step_range lastOut (u * 2 - 1) Nl Bl Nw Bw) as [No Bo].
  constructor; [apply abs_leb_1_fround; assumption|apply IH; assumption].
Qed.

(** X7. Every sample of white noise and of brown noise is a number of
    magnitude at most 1, for every seed (or entropy), duration and sample rate. *)
Theorem generateNoise_white_brown_range :
  forall (entropy : float) (type : string) (duration sampleRate : float)
         (seed : option float) (samples : list float),
    type = "white"%string \/ type = "brown"%string ->
    generateNoise entropy type duration sampleRate seed = inr samples ->
    Forall (fun x => (abs x <=? 1) = true) samples.
Proof.
  intros entropy type duration sampleRate seed samples Ht. unfold generateNoise.
  destruct (ToIndex (Math_floor (duration * sampleRate))) as [n|]; [|discriminate].
  destruct Ht as [-> | ->]; cbn [String.eqb Ascii.eqb Bool.eqb andb]; intros [= <-].
  - apply white_loop_range.
  - apply brown_loop_range; [reflexivity|].
    rewrite Fval_zero. assert (0 < 2 ^ 1074)%Z by (apply Z.pow_pos_nonneg; lia). lia.
Qed.

Lemma generateNoise_white_brown_range_witness :
  Forall (fun x => (abs x <=? 1) = true) (brown_loop 3 42 0).
Proof.
  apply (generateNoise_white_brown_range 0 "brown" 1.5 2 (Some 42)).
  - right. reflexivity.
  - vm_compute. reflexivity.
Defined.

(** *** float32ToPCM: the 16-bit values *)

Lemma Fval_whole (n : Z) (x : float) :
  x = Z2F n -> (- 2 ^ 53 < n < 2 ^ 53)%Z -> Fval x = (n * 2 ^ 1074)%Z.
Proof. intros -> H. now apply Fval_Z2F. Qed.

(** The integer a number is converted to. *)
Lemma pcm16_range (x : float) : (- 32768 <= pcm16 x <= 32767)%Z.
Proof.
  unfold pcm16. cbv zeta.
  assert (P : (0 < 2 ^ 1074)%Z) by (apply Z.pow_pos_nonneg; lia).
  assert (PH : (32768 * 2 ^ 1074 < huge)%Z).
  { unfold huge. change 32768%Z with (2 ^ 15)%Z. rewrite <- Z.pow_add_r by lia.
    apply Z.pow_lt_mono_r; lia. }
  pose proof pow1074_lt_huge as HG.
  assert (F8 : Fval 32768 = (32768 * 2 ^ 1074)%Z) by (apply Fval_whole; [reflexivity|lia]).
  assert (F7 : Fval 32767 = (32767 * 2 ^ 1074)%Z) by (apply Fval_whole; [reflexivity|lia]).
  destruct (is_nan x) eqn:N.
  - rewrite (Prim2SF_nan x N). vm_compute. split; discriminate.
  - destruct (clamp_range x N) as [Nc Bc]. set (c := clamp x) in *.
    destruct (c <? 0) eqn:L.
    + rewrite ltb_val in L by trivial. rewrite Fval_zero in L. apply Z.ltb_lt in L.
      destruct (mul_below c 32768 32768 (2 ^ 1074) (32768 * 2 ^ 1074))
        as (Np & Mp & _ & _ & Sp); [fval_side..|].
      specialize (Sp ltac:(lia) ltac:(rewrite F8; lia)). rewrite F8 in Mp.
      rewrite truncZ_val by (assumption || lia).
      assert (Q : (0 <= Z.abs (Fval (c * 32768)) / 2 ^ 1074 <= 32768)%Z).
      { split; [apply Z.div_pos; lia|]. apply Z.div_le_upper_bound; lia. }
      destruct (Z.eq_dec (Fval (c * 32768)) 0) as [E|E].
      * rewrite E. cbn. lia.
      * rewrite Z.sgn_neg by lia. lia.
    + rewrite ltb_val in L by trivial. rewrite Fval_zero in L. apply Z.ltb_ge in L.
      destruct (mul_below c 32767 32767 (2 ^ 1074) (32767 * 2 ^ 1074))
        as (Np & Mp & Sp & _); [fval_side..|].
      specialize (Sp ltac:(lia) ltac:(rewrite F7; lia)). rewrite F7 in Mp.
      rewrite truncZ_val by (assumption || lia).
      assert (Q : (0 <= Z.abs (Fval (c * 32767)) / 2 ^ 1074 <= 32767)%Z).
      { split; [apply Z.div_pos; lia|]. apply Z.div_le_upper_bound; lia. }
      destruct (Z.eq_dec (Fval (c * 32767)) 0) as [E|E].
      * rewrite E. cbn. lia.
      * rewrite Z.sgn_pos by lia. lia.
Qed.

Lemma int16_decode_bytes (p : Z) :
  (- 32768 <= p <= 32767)%Z ->
  int16_decode [ (p mod 256)%Z; ((p / 256) mod 256)%Z ] = p.
Proof.
  intros H. unfold int16_decode. cbn [le_decode]. cbv zeta.
  destruct (Z.ltb_spec (p mod 256 + 256 * ((p / 256) mod 256 + 256 * 0)) 32768);
    Z.to_euclidean_division_equations; lia.
Qed.

(** Samples at or beyond full scale. *)
Lemma clamp_high (x : float) : (1 <=? x) = true -> clamp x = 1.
Proof.
  intros H. destruct (leb_true_not_nan _ _ H) as [_ N].
  assert (P : (0 < 2 ^ 1074)%Z) by (apply Z.pow_pos_nonneg; lia).
  rewrite leb_val in H by trivial. rewrite Fval_one in H. apply Z.leb_le in H.
  unfold clamp. rewrite !ltb_val by trivial. rewrite Fval_one, Fval_minus_one.
  destruct (Z.ltb_spec (Fval x) (- 2 ^ 1074)); [lia|].
  destruct (Z.ltb_spec (2 ^ 1074) (Fval x)); [reflexivity|].
  apply Fval_inj; try assumption; try reflexivity; rewrite ?Fval_one; lia.
Qed.

Lemma clamp_low (x : float) : (x <=? -1) = true -> clamp x = -1.
Proof.
  intros H. destruct (leb_true_not_nan _ _ H) as [N _].
  assert (P : (0 < 2 ^ 1074)%Z) by (apply Z.pow_pos_nonneg; lia).
  rewrite leb_val in H by trivial. rewrite Fval_minus_one in H. apply Z.leb_le in H.
  unfold clamp. rewrite !ltb_val by trivial. rewrite Fval_one, Fval_minus_one.
  destruct (Z.ltb_spec (Fval x) (- 2 ^ 1074)); [reflexivity|].
  destruct (Z.ltb_spec (2 ^ 1074) (Fval x)); [lia|].
  apply Fval_inj; try assumption; try reflexivity; rewrite ?Fval_minus_one; lia.
Qed.

(** X8. The two bytes [float32ToPCM] writes for a sample, read back as a signed
    16-bit little-endian integer, give the integer the sample was converted to,
    which always lies in [-32768, 32767]: the conversion never wraps.  Samples
    of 1 or more (including +Infinity) are written as 32767 (FF 7F), samples of
    -1 or less as -32768 (00 80), and NaN as 0 (00 00). *)
Theorem float32ToPCM_int16 :
  forall (x : float),
    (- 32768 <= int16_decode (sample_bytes x) <= 32767)%Z
    /\ int16_decode (sample_bytes x) = pcm16 x
    /\ ((1 <=? x) = true -> sample_bytes x = [255; 127]%Z)
    /\ ((x <=? -1) = true -> sample_bytes x = [0; 128]%Z)
    /\ (is_nan x = true -> sample_bytes x = [0; 0]%Z).
Proof.
  intros x. pose proof (pcm16_range x) as R.
  rewrite sample_bytes_pcm16, int16_decode_bytes by assumption.
  split; [assumption|]. split; [reflexivity|]. split; [|split].
  - intros H. unfold pcm16. rewrite (clamp_high x H). reflexivity.
  - intros H. unfold pcm16. rewrite (clamp_low x H). reflexivity.
  - intros H. rewrite (Prim2SF_nan x H). reflexivity.
Qed.

(* ================================================================== *)
(** ** Further properties: the envelope only attenuates *)
(* ================================================================== *)

Local Open Scope float_scope.

(** A whole number divided by itself. *)
Lemma Z2F_div_self (a : Z) : (0 < a < 2 ^ 53)%Z -> Z2F a / Z2F a = 1.
Proof.
  intros Ha. apply Prim2SF_inj. rewrite div_spec, Prim2SF_Z2F_pos by assumption.
  unfold SF64div.
  destruct (SFint_as_scaled false a Ha) as (pa & -> & Pa).
  destruct (SFint_mantissa a Ha) as [_ DA]. rewrite <- Pa in DA.
  cbn [SFdiv xorb]. unfold SFdiv_core_binary. rewrite DA.
  replace (53 + (Zdigits2 a - 53) - (53 + (Zdigits2 a - 53)))%Z with 0%Z by lia.
  replace (Zdigits2 a - 53 - (Zdigits2 a - 53))%Z with 0%Z by lia.
  change (Z.min (SpecFloat.fexp prec emax 0) 0) with (-53)%Z.
  change (0 - -53)%Z with 53%Z.
  change (match 53%Z with 0%Z => Zpos pa | Zpos _ => Z.shiftl (Zpos pa) 53 | Zneg _ => 0%Z end)
    with (Z.shiftl (Zpos pa) 53).
  rewrite Z.shiftl_mul_pow2 by lia.
  assert (Eq : Z.div_eucl (Zpos pa * 2 ^ 53) (Zpos pa) = (2 ^ 53, 0)%Z).
  { pose proof (Z.div_eucl_eq (Zpos pa * 2 ^ 53) (Zpos pa) ltac:(lia)) as E.
    pose proof (Z.mod_pos_bound (Zpos pa * 2 ^ 53) (Zpos pa) ltac:(lia)) as B.
    unfold Z.modulo in B.
    assert (Q : (Zpos pa * 2 ^ 53 / Zpos pa = 2 ^ 53)%Z)
      by (rewrite Z.mul_comm; apply Z.div_mul; lia).
    assert (M : ((Zpos pa * 2 ^ 53) mod Zpos pa = 0)%Z)
      by (rewrite Z.mul_comm; apply Z.mod_mul; lia).
    unfold Z.div in Q. unfold Z.modulo in M.
    destruct (Z.div_eucl (Zpos pa * 2 ^ 53) (Zpos pa)) as [q r]. cbn [fst snd] in *.
    congruence. }
  rewrite Eq.
  assert (L : new_location (Zpos pa) 0 = loc_Exact).
  { unfold new_location, new_location_even, new_location_odd.
    destruct (Z.even (Zpos pa)); reflexivity. }
  rewrite L. reflexivity.
Qed.

(** The gain is a number in [0, 1]. *)
Lemma envelope_gain_range (len : nat) (n_in n_out : Z) (i : nat) :
  (Z.of_nat len < 2 ^ 53)%Z -> (0 <= n_in < 2 ^ 53)%Z -> (0 <= n_out < 2 ^ 53)%Z ->
  (i < len)%nat ->
  is_nan (envelope_gain len (Z2F n_in) (Z2F n_out) i) = false
  /\ (0 <= Fval (envelope_gain len (Z2F n_in) (Z2F n_out) i) <= 2 ^ 1074)%Z.
Proof.
  intros Hlen Hin Hout Hi. unfold envelope_gain. cbv zeta.
  assert (P : (0 < 2 ^ 1074)%Z) by (apply Z.pow_pos_nonneg; lia).
  pose proof pow1074_lt_huge as HG.
  assert (P5 : (2 ^ 1075 = 2 * 2 ^ 1074)%Z)
    by (change 1075%Z with (Z.succ 1074); rewrite Z.pow_succ_r; lia).
  pose proof Fval_one as F1.
  set (g1 := if Z2F (Z.of_nat i) <? Z2F n_in
             then 1 * (Z2F (Z.of_nat i) / Z2F n_in) else 1).
  assert (G1 : is_nan g1 = false /\ (0 <= Fval g1 <= 2 ^ 1074)%Z).
  { unfold g1. rewrite Z2F_ltb by lia.
    destruct (Z.ltb_spec (Z.of_nat i) n_in) as [Lt|Ge].
    - rewrite mul_1_l. destruct (Z.eq_dec (Z.of_nat i) 0) as [E|E].
      + rewrite E. change (Z2F 0) with 0. rewrite zero_div_Z2F by lia.
        split; [reflexivity|]. rewrite Fval_zero. lia.
      + destruct (Z2F_div_bounds (Z.of_nat i) n_in) as (N & _ & Lo & Hi'); try lia.
        split; [assumption|]. specialize (Hi' Lt). lia.
    - split; [reflexivity|]. rewrite F1. lia. }
  destruct G1 as [N1 B1].
  rewrite Z2F_sub, Z2F_leb by lia.
  destruct (Z.leb_spec (Z.of_nat len - n_out) (Z.of_nat i)) as [Le|Gt];
    [|split; assumption].
  set (q := Z2F (Z.of_nat len - Z.of_nat i) / Z2F n_out).
  assert (Q : is_nan q = false /\ (0 <= Fval q <= 2 ^ 1074)%Z).
  { unfold q. destruct (Z.eq_dec (Z.of_nat len - Z.of_nat i) n_out) as [E|E].
    - rewrite E, Z2F_div_self by lia. split; [reflexivity|]. rewrite F1. lia.
    - destruct (Z2F_div_bounds (Z.of_nat len - Z.of_nat i) n_out) as (N & _ & Lo & Hi');
        try lia.
      split; [assumption|]. specialize (Hi' ltac:(lia)). lia. }
  destruct Q as [Nq Bq].
  destruct (mul_below g1 q 1 (2 ^ 1074) (2 ^ 1074)) as (N & M & S & _); [fval_side..|].
  rewrite F1 in M. specialize (S ltac:(lia) ltac:(lia)).
  split; [assumption|lia].
Qed.

Local Close Scope float_scope.

(** A number a [Float32Array] holds, as a bound for single-precision rounding. *)
Lemma float32_bound (x : float) :
  is_float32 x -> is_nan x = false -> 0 < Z.abs (Fval x) < huge ->
  exists (mR : positive) (eR : Z),
    eR = SpecFloat.fexp 24 128 (mag (Zpos mR) eR) /\ eR <= 128 - 24
    /\ Z.abs (Fval x) = Zpos mR * 2 ^ (eR + 1074).
Proof.
  intros F32 N H. unfold is_float32, Math_fround in F32.
  destruct (bounded_cases x (Z.abs (Fval x)) N ltac:(lia) ltac:(lia))
    as [[s E]|(s & m & e & E & V & Ha & _)].
  - rewrite (Fval_of_zero x s E) in H. cbn in H. lia.
  - rewrite E in F32. cbn [SF32round] in F32.
    pose proof (binary_round_rounded 24 128 s m e ltac:(lia) ltac:(lia)) as R.
    inversion R as [Hz Er|Hinf Er|m' e' Hmag' He' Hle' Er]; rewrite <- Er in F32.
    + exfalso. assert (Z0 : Fval (SF2Prim (S754_zero s)) = 0) by (destruct s; reflexivity).
      rewrite F32 in Z0. rewrite Z0 in H. cbn in H. lia.
    + exfalso. assert (Zi : Z.abs (Fval (SF2Prim (S754_infinity s))) = huge)
        by (destruct s; reflexivity).
      rewrite F32 in Zi. lia.
    + exists m', e'. split; [assumption|]. split; [assumption|].
      pose proof (Zdigits2_bounds (Zpos m') ltac:(lia)) as [Dlo Dhi].
      assert (D24 : Zdigits2 (Zpos m') <= 24) by (unfold SpecFloat.fexp, mag in He'; lia).
      assert (Zpos m' < 2 ^ 53).
      { assert (2 ^ Zdigits2 (Zpos m') <= 2 ^ 53) by (apply Z.pow_le_mono_r; lia). lia. }
      assert (-1074 <= e') by (rewrite He'; unfold SpecFloat.fexp, SpecFloat.emin; lia).
      destruct (SF2Prim_finite s m' e') as [_ Fv]; try assumption;
        [unfold mag in *; lia|].
      rewrite F32 in Fv. rewrite Fv. cbn [SFval].
      assert (0 < Zpos m' * 2 ^ (e' + 1074))
        by (apply Z.mul_pos_pos; [lia|apply Z.pow_pos_nonneg; lia]).
      destruct s; lia.
Qed.

(** Storing a value in single precision does not take it above a bound that a
    [Float32Array] holds. *)
Lemma fround_below (t x : float) :
  is_float32 x -> is_nan x = false -> Z.abs (Fval x) < huge ->
  is_nan t = false -> Z.abs (Fval t) <= Z.abs (Fval x) ->
  is_nan (Math_fround t) = false /\ Z.abs (Fval (Math_fround t)) <= Z.abs (Fval x).
Proof.
  intros F32 Nx Hx Nt Ht. unfold Math_fround.
  destruct (bounded_cases t (Z.abs (Fval x)) Nt Ht Hx)
    as [[s E]|(s & m & e & E & V & Ha & _)].
  - rewrite E. cbn [SF32round].
    assert (Z0 : Fval (SF2Prim (S754_zero s)) = 0) by (destruct s; reflexivity).
    rewrite Z0. split; [destruct s; reflexivity|lia].
  - destruct (valid_finite s m e V) as (_ & Re & _).
    assert (0 < Z.abs (Fval t))
      by (rewrite Ha; apply Z.mul_pos_pos; [lia|apply Z.pow_pos_nonneg; lia]).
    destruct (float32_bound x F32 Nx ltac:(lia)) as (mR & eR & CR & LR & VR).
    rewrite E. cbn [SF32round].
    pose proof (binary_round_rounded 24 128 s m e ltac:(lia) ltac:(lia)) as R.
    assert (Bl : below s mR eR (binary_round 24 128 s m e)).
    { apply (binary_round_below 24 128 ltac:(lia) ltac:(lia) ltac:(cbv; discriminate)
               s m e mR eR 1074); [exact CR|exact LR|lia|lia|].
      rewrite <- Ha, <- VR. assumption. }
    inversion R as [Hz Er|Hinf Er|m' e' Hmag' He' Hle' Er]; rewrite <- Er in Bl;
      cbn [below] in Bl; try contradiction.
    + assert (Z0 : Fval (SF2Prim (S754_zero s)) = 0) by (destruct s; reflexivity).
      rewrite Z0. split; [destruct s; reflexivity|lia].
    + destruct Bl as (_ & Ge' & Bv).
      pose proof (Zdigits2_bounds (Zpos m') ltac:(lia)) as [Dlo Dhi].
      assert (D24 : Zdigits2 (Zpos m') <= 24) by (unfold SpecFloat.fexp, mag in He'; lia).
      assert (Zpos m' < 2 ^ 53).
      { assert (2 ^ Zdigits2 (Zpos m') <= 2 ^ 53) by (apply Z.pow_le_mono_r; lia). lia. }
      destruct (SF2Prim_finite s m' e') as [Nf Fv]; try assumption;
        [unfold mag in *; lia|].
      split; [assumption|]. rewrite Fv, VR. cbn [SFval].
      assert (0 < Zpos m' * 2 ^ (e' + 1074))
        by (apply Z.mul_pos_pos; [lia|apply Z.pow_pos_nonneg; lia]).
      destruct s; lia.
Qed.

Local Open Scope float_scope.

Lemma is_finite_val (x : float) :
  is_finite x = true -> is_nan x = false /\ (Z.abs (Fval x) < huge)%Z.
Proof.
  intros H. pose proof (Prim2SF_valid x) as V. pose proof huge_pos.
  rewrite is_nan_SFnan. unfold Fval.
  destruct (is_finite_SF x H) as [[s E]|(s & m & e & E)]; rewrite E in *.
  - split; [reflexivity|]. cbn. lia.
  - split; [reflexivity|]. pose proof (finite_val_bounds s m e V). cbn [SFval].
    destruct s; lia.
Qed.

(** X9. With fades of whole numbers of samples, [applyEnvelope] only attenuates:
    every output sample of a finite input sample is a number whose magnitude
    does not exceed that of the input sample. *)
Theorem applyEnvelope_attenuates :
  forall (buffer : list float) (fadeInSec fadeOutSec sampleRate : float)
         (n_in n_out : Z) (i : nat),
    Forall is_float32 buffer -> (Z.of_nat (List.length buffer) < 2 ^ 53)%Z ->
    Math_floor (fadeInSec * sampleRate) = Z2F n_in -> (0 <= n_in < 2 ^ 53)%Z ->
    Math_floor (fadeOutSec * sampleRate) = Z2F n_out -> (0 <= n_out < 2 ^ 53)%Z ->
    (i < List.length buffer)%nat -> is_finite (nth i buffer 0) = true ->
    (abs (nth i (applyEnvelope buffer fadeInSec fadeOutSec sampleRate) 0)
       <=? abs (nth i buffer 0)) = true.
Proof.
  intros buffer fadeInSec fadeOutSec sampleRate n_in n_out i F32 Hlen Ein Hin Eout Hout
    Hi Hfin.
  unfold applyEnvelope. rewrite Ein, Eout. rewrite (mapi_nth _ buffer i 0 0 Hi).
  set (x := nth i buffer 0) in *.
  assert (Fx : is_float32 x) by (rewrite Forall_forall in F32; apply F32, nth_In, Hi).
  destruct (is_finite_val x Hfin) as [Nx Hx].
  destruct (envelope_gain_range (List.length buffer) n_in n_out i Hlen Hin Hout Hi)
    as [Ng Bg].
  set (g := envelope_gain (List.length buffer) (Z2F n_in) (Z2F n_out) i) in *.
  assert (P : (0 < 2 ^ 1074)%Z) by (apply Z.pow_pos_nonneg; lia).
  pose proof huge_gt as HG.
  assert (T : is_nan (x * g) = false /\ (Z.abs (Fval (x * g)) <= Z.abs (Fval x))%Z).
  { destruct (Z.eq_dec (Fval x) 0) as [E0|N0].
    - (* a zero times a number *)
      assert (Zx : exists s, Prim2SF x = S754_zero s).
      { destruct (is_finite_SF x Hfin) as [Z|(s & m & e & E)]; [exact Z|exfalso].
        pose proof (Prim2SF_valid x) as V. rewrite E in V.
        pose proof (finite_val_bounds s m e V). unfold Fval in E0. rewrite E in E0.
        cbn [SFval] in E0. destruct s; lia. }
      destruct Zx as [s Ex].
      destruct (bounded_cases g (2 ^ 1074) Ng ltac:(lia) HG)
        as [[sg Eg]|(sg & mg & eg & Eg & _)];
        rewrite is_nan_SFnan; unfold Fval at 1; rewrite mul_spec, Ex, Eg;
        cbn; split; try reflexivity; lia.
    - assert (Nabs : is_nan (abs x) = false) by now rewrite is_nan_abs.
      destruct (mul_below x g (abs x) (Z.abs (Fval x)) (2 ^ 1074))
        as (N & M & _); try assumption; try lia.
      + rewrite Fval_abs. lia.
      + rewrite Fval_abs. lia.
      + rewrite Fval_abs in M. split; assumption. }
  destruct T as [Nt Bt].
  destruct (fround_below (x * g) x Fx Nx Hx Nt Bt) as [Nf Bf].
  rewrite leb_val by (rewrite ?is_nan_abs; assumption).
  rewrite !Fval_abs. apply Z.leb_le. assumption.
Qed.

Lemma applyEnvelope_attenuates_witness :
  (abs (nth 3 (applyEnvelope [1; 0.5; -0.5; 0.25; 1] 1 1.5 2) 0) <=? abs 0.25) = true.
Proof.
  apply (applyEnvelope_attenuates [1; 0.5; -0.5; 0.25; 1] 1 1.5 2 2 3 3).
  - repeat constructor; vm_compute; reflexivity.
  - cbn [List.length]. lia.
  - vm_compute. reflexivity.
  - lia.
  - vm_compute. reflexivity.
  - lia.
  - cbn [List.length]. lia.
  - vm_compute. reflexivity.
Defined.

(* ================================================================== *)
(** ** Further properties: the stereo file *)
(* ================================================================== *)

Local Open Scope float_scope.

Lemma convertToStereo_default (monoBuffer : list float) :
  Forall is_float32 monoBuffer ->
  convertToStereo monoBuffer 0 = flat_map (fun a => [a; a]) monoBuffer.
Proof.
  intros F. unfold convertToStereo. induction F as [|a l Ha F IH]; [reflexivity|].
  cbn [flat_map]. rewrite IH. unfold stereo_pair.
  change (1 - 0 * 0.5) with 1. rewrite mul_1_r, Ha. reflexivity.
Qed.

Lemma float32ToPCM_doubled (monoBuffer : list float) (channels : float) :
  float32ToPCM (flat_map (fun a => [a; a]) monoBuffer) channels
  = flat_map (fun x => sample_bytes x ++ sample_bytes x) monoBuffer.
Proof.
  unfold float32ToPCM. induction monoBuffer as [|a l IH]; [reflexivity|].
  cbn [flat_map app]. rewrite IH. rewrite <- app_assoc. reflexivity.
Qed.

(** X10. The stereo path of the command line, [convertToStereo] with the
    default spread followed by [writeWav] with two channels: for [n] mono
    samples at the whole rate [R] the file has [44 + 4n] bytes, records 2
    channels, byte rate [4R], block align 4 and data size [4n], and its payload
    holds the two bytes of every mono sample twice, left then right. *)
Theorem stereo_file :
  forall (fs : FileSystem) (monoBuffer : list float) (R : Z) (outPath : string),
    Forall is_float32 monoBuffer ->
    (0 <= R)%Z -> (4 * R <= 2 ^ 32 - 1)%Z ->
    (4 * Z.of_nat (List.length monoBuffer) + 36 <= 2 ^ 32 - 1)%Z ->
    exists (fs' : FileSystem) (wav : list Z),
      writeWav fs (convertToStereo monoBuffer 0) (Z2F R) outPath 2 = inr fs'
      /\ fs' outPath = Some wav
      /\ List.length wav = (44 + 4 * List.length monoBuffer)%nat
      /\ field wav 4 4 = (36 + 4 * Z.of_nat (List.length monoBuffer))%Z
      /\ field wav 22 2 = 2%Z
      /\ field wav 24 4 = R
      /\ field wav 28 4 = (4 * R)%Z
      /\ field wav 32 2 = 4%Z
      /\ field wav 34 2 = 16%Z
      /\ field wav 40 4 = (4 * Z.of_nat (List.length monoBuffer))%Z
      /\ skipn 44 wav = flat_map (fun x => sample_bytes x ++ sample_bytes x) monoBuffer.
Proof.
  intros fs monoBuffer R outPath F HR HR4 HN.
  assert (P32 : (2 ^ 32 = 4294967296)%Z) by reflexivity.
  assert (P16 : (2 ^ 16 = 65536)%Z) by reflexivity.
  assert (P51 : (2 ^ 51 = 2251799813685248)%Z) by reflexivity.
  assert (P53 : (2 ^ 53 = 9007199254740992)%Z) by reflexivity.
  rewrite (convertToStereo_default monoBuffer F).
  set (data := flat_map (fun a => [a; a]) monoBuffer).
  assert (LD : List.length data = (2 * List.length monoBuffer)%nat)
    by (apply flat_map_pair_length; reflexivity).
  change 2 with (Z2F 2).
  pose proof (wav_bytes_whole data R 2 ltac:(lia) ltac:(lia) ltac:(lia)) as W.
  destruct (Z.leb_spec (2 * Z.of_nat (List.length data) + 36) (2 ^ 32 - 1)); [|lia].
  destruct (Z.leb_spec 0 R); [|lia]. destruct (Z.leb_spec R (2 ^ 32 - 1)); [|lia].
  destruct (Z.leb_spec (R * (2 * 2)) (2 ^ 32 - 1)); [|lia].
  cbn [andb Z.leb Z.compare Pos.compare Pos.compare_cont] in W.
  unfold writeWav. rewrite W. cbn [bind].
  pose proof (float32ToPCM_length data (Z2F 2)) as L.
  rewrite <- (float32ToPCM_doubled monoBuffer (Z2F 2)). fold data.
  set (pcm := float32ToPCM data (Z2F 2)) in *.
  eexists. eexists. split; [reflexivity|].
  split; [unfold writeFileSync; rewrite String.eqb_refl; reflexivity|].
  pose proof (le_decode_le_bytes4 (2 * Z.of_nat (List.length data) + 36)) as D1.
  pose proof (le_decode_le_bytes4 R) as D3.
  pose proof (le_decode_le_bytes4 (R * (2 * 2))) as D4.
  pose proof (le_decode_le_bytes4 (2 * Z.of_nat (List.length data))) as D6.
  cbn [le_bytes map seq] in *.
  split; [cbn [List.length app]; rewrite L, LD; lia|].
  unfold field. cbn [app firstn skipn].
  repeat split; try reflexivity.
  - rewrite D1 by lia. lia.
  - apply D3. lia.
  - rewrite D4 by lia. lia.
  - rewrite D6 by lia. lia.
Qed.

Lemma stereo_file_witness :
  exists (fs' : FileSystem) (wav : list Z),
    writeWav (fun _ => None) (convertToStereo [0.5; -1] 0) (Z2F 44100) "out.wav" 2 = inr fs'
    /\ fs' "out.wav"%string = Some wav
    /\ List.length wav = 52%nat
    /\ field wav 22 2 = 2%Z
    /\ field wav 28 4 = 176400%Z
    /\ skipn 44 wav = [255; 63; 255; 63; 0; 128; 0; 128]%Z.
Proof.
  destruct (stereo_file (fun _ => None) [0.5; -1] 44100 "out.wav")
    as (fs' & wav & H);
    [repeat constructor; vm_compute; reflexivity|lia|lia|cbn [List.length]; lia|].
  exists fs', wav. decompose [and] H. repeat split; assumption.
Defined.

